(** * AlexandraAI-eval: question answering and sequence classification tasks

    A shallow embedding of [aiai_eval/question_answering.py] and of
    [aiai_eval/sequence_classification.py], and the properties of the
    feature builder, the span resolver, the label extraction and the label
    canonicaliser that the specification states about them.

    Conventions of the embedding:
    - a Python exception is a value of [exn]; code that can raise returns a
      [result], and statements in sequence are chained with [x ← c; k];
    - a Python [dict] is a [gmap]; a Python [list] is a [list], read with
      [getitem] (which raises [IndexError] out of range);
    - the logits are numpy floats: the span resolver is parametric in the
      type of scores, its addition and its strict comparison, and in numpy's
      [argsort], whose order on ties numpy leaves open. *)

From Stdlib Require Import ZArith QArith Ascii String.
From stdpp Require Import gmap strings list fin_maps sorting.

Set Warnings "-register-all".
Open Scope Z_scope.

(** ** Exceptions and results *)

Inductive exn : Type :=
| KeyError
| ValueError
| IndexError
| TypeError
| MissingLabel (label : string) (label2id : gmap string Z)
| FrameworkCannotHandleTask (framework task : string).

Inductive result (A : Type) : Type :=
| Ok (a : A)
| Raise (e : exn).
Arguments Ok {A} a.
Arguments Raise {A} e.

#[global] Instance result_ret : MRet result := λ A a, Ok a.
#[global] Instance result_bind : MBind result := λ A B k c,
  match c with
  | Ok a => k a
  | Raise e => Raise e
  end.

#[global] Instance result_fmap : FMap result := λ A B f c,
  match c with
  | Ok a => Ok (f a)
  | Raise e => Raise e
  end.

Definition is_Ok {A} (c : result A) : Prop := ∃ a, c = Ok a.

(** [l[i]] for a non-negative index. *)
Definition getitem {A} (l : list A) (i : nat) : result A :=
  match l !! i with
  | Some a => Ok a
  | None => Raise IndexError
  end.

(** [l.index(x)]: the position of the first occurrence, [ValueError] when
    there is none. *)
Fixpoint list_index (x : Z) (l : list Z) : result nat :=
  match l with
  | [] => Raise ValueError
  | y :: l' => if decide (y = x) then Ok 0%nat else S <$> list_index x l'
  end.


(** ** Python values

    The fragment of Python's values that the dynamically typed tests of the
    source look at: [==] between an offset entry and an [int], and [len],
    indexing and [isinstance] on a model's predictions.  A finite float is
    the rational it denotes. *)

Inductive pyval : Type :=
| PyInt (z : Z)
| PyFloat (x : Q)
| PyStr (s : string)
| PyList (l : list pyval).

(** [a == b].  Numbers compare by value, strings and lists with their own
    kind only; operands of different kinds are unequal. *)
Fixpoint py_eq (a b : pyval) : bool :=
  match a, b with
  | PyInt x, PyInt y => bool_decide (x = y)
  | PyInt x, PyFloat y | PyFloat y, PyInt x => Qeq_bool (inject_Z x) y
  | PyFloat x, PyFloat y => Qeq_bool x y
  | PyStr s, PyStr t => bool_decide (s = t)
  | PyList l, PyList m =>
      (fix go (l m : list pyval) : bool :=
         match l, m with
         | [], [] => true
         | x :: l', y :: m' => py_eq x y && go l' m'
         | _, _ => false
         end) l m
  | _, _ => false
  end.

(** [len(v)] *)
Definition py_len (v : pyval) : result Z :=
  match v with
  | PyStr s => Ok (Z.of_nat (String.length s))
  | PyList l => Ok (Z.of_nat (length l))
  | PyInt _ | PyFloat _ => Raise TypeError
  end.

(** [v[0]] *)
Definition py_first (v : pyval) : result pyval :=
  match v with
  | PyStr (String c _) => Ok (PyStr (String c EmptyString))
  | PyStr EmptyString => Raise IndexError
  | PyList (x :: _) => Ok x
  | PyList [] => Raise IndexError
  | PyInt _ | PyFloat _ => Raise TypeError
  end.

(** [isinstance(v, float)] and [isinstance(v, str)] *)
Definition is_float (v : pyval) : bool :=
  match v with PyFloat _ => true | _ => false end.
Definition is_str (v : pyval) : bool :=
  match v with PyStr _ => true | _ => false end.

(** ** Strings *)

(** [s[a:b]] with Python's treatment of negative and out-of-range bounds. *)
Definition slice_bound (n i : Z) : Z :=
  if i <? 0 then Z.max (i + n) 0 else Z.min i n.

Definition py_slice (s : string) (a b : Z) : string :=
  let n := Z.of_nat (String.length s) in
  let lo := slice_bound n a in
  let hi := slice_bound n b in
  String.substring (Z.to_nat lo) (Z.to_nat (hi - lo)) s.

(** [c.upper()] and [s.upper()] on ASCII text. *)
Definition upper_ascii (c : ascii) : ascii :=
  let n := nat_of_ascii c in
  if ((97 <=? n) && (n <=? 122))%nat then ascii_of_nat (n - 32) else c.

Fixpoint upper (s : string) : string :=
  match s with
  | EmptyString => EmptyString
  | String c s' => String (upper_ascii c) (upper s')
  end.

(** [s.lstrip()]: the leading whitespace is dropped. *)
Definition is_space (c : ascii) : bool :=
  let n := nat_of_ascii c in
  (((9 <=? n) && (n <=? 13)) || ((28 <=? n) && (n <=? 32)))%nat.

Fixpoint lstrip (s : string) : string :=
  match s with
  | EmptyString => EmptyString
  | String c s' => if is_space c then lstrip s' else s
  end.

(** ** Data model of the question-answering task *)

(** A row of the dataset. *)
Record example : Type := {
  ex_id : string;
  ex_question : string;
  ex_context : string;
  ex_answers_text : list string;
  ex_answers_start : list Z
}.

(** A row of the prepared dataset (a window).  An offset entry is the pair
    of character bounds; the dataset stores it as a two-element list. *)
Record feature : Type := {
  ft_id : string;
  ft_input_ids : list Z;
  ft_offset_mapping : list (Z * Z)
}.

(** The dictionary that [postprocess_labels] builds for an example. *)
Record label : Type := {
  lb_id : string;
  lb_text : list string;
  lb_answer_start : list Z
}.

Definition SENTINEL : Z * Z := (-1, -1).

(** An offset entry as the Python value that the dataset returns. *)
Definition offset_value (o : Z * Z) : pyval := PyList [PyInt o.1; PyInt o.2].

(** [for a in l: st = body(a, st)], left to right, stopping at the first
    exception. *)
Fixpoint for_each {A B} (body : A → B → result B) (l : list A) (st : B)
  : result B :=
  match l with
  | [] => Ok st
  | a :: l' => st' ← body a st; for_each body l' st'
  end.

(** ** [postprocess_predictions] *)

Section SpanResolver.
Context {F : Type}.
(** [0.0], [+] and [<] on the logits, and [np.argsort]. *)
Variable zero : F.
Variable add : F → F → F.
Variable ltb : F → F → bool.
Variable argsort : list F → list nat.

(** [dict(score=score, text=text)] *)
Record answer : Type := { score : F; text : string }.

(** [dict(id=..., prediction_text=..., no_answer_probability=0.0)] *)
Record prediction : Type := {
  pr_id : string;
  prediction_text : string;
  no_answer_probability : F
}.

Definition n_best_size : nat := 20.
Definition max_answer_length : nat := 30.

(** [np.argsort(logits)[-1 : -n_best_size - 1 : -1].tolist()]: the last
    [n_best_size] positions of the sort, last first. *)
Definition n_best (logits : list F) : list nat :=
  take n_best_size (rev (argsort logits)).

(** The first [if] of the inner loop; [or] evaluates left to right and
    stops at the first true operand.  [offset_mapping[i] == -1] compares
    the entry, a list of two ints, with an int. *)
Definition out_of_scope (offset_mapping : list (Z * Z))
    (start_index end_index : nat) : result bool :=
  if bool_decide (length offset_mapping ≤ start_index)%nat then Ok true
  else if bool_decide (length offset_mapping ≤ end_index)%nat then Ok true
  else
    os ← getitem offset_mapping start_index;
    if py_eq (offset_value os) (PyInt (-1)) then Ok true
    else
      oe ← getitem offset_mapping end_index;
      Ok (py_eq (offset_value oe) (PyInt (-1))).

(** The second [if] of the inner loop. *)
Definition bad_length (start_index end_index : nat) : bool :=
  let max_val := (max_answer_length + start_index - 1)%nat in
  bool_decide (end_index < start_index)%nat
  || bool_decide (max_val < end_index)%nat.

(** The body of the inner loop: [valid_answers] after the pair
    [(start_index, end_index)] has been considered. *)
Definition consider_span (context : string) (offset_mapping : list (Z * Z))
    (start_logits end_logits : list F) (start_index end_index : nat)
    (valid_answers : list answer) : result (list answer) :=
  skip ← out_of_scope offset_mapping start_index end_index;
  if skip : bool then Ok valid_answers
  else if bad_length start_index end_index then Ok valid_answers
  else
    os ← getitem offset_mapping start_index;
    oe ← getitem offset_mapping end_index;
    x ← getitem start_logits start_index;
    y ← getitem end_logits end_index;
    Ok (valid_answers
          ++ [{| score := add x y; text := py_slice context os.1 oe.2 |}]).

(** [start_logits[cls_index] + end_logits[cls_index]] with
    [cls_index = features["input_ids"].index(cls_token_index)]. *)
Definition feature_null_score (features : feature)
    (start_logits end_logits : list F) (cls_token_index : Z) : result F :=
  cls_index ← list_index cls_token_index (ft_input_ids features);
  x ← getitem start_logits cls_index;
  y ← getitem end_logits cls_index;
  Ok (add x y).

Section Example.
Variable prepared_dataset : list feature.
Variable all_start_logits all_end_logits : list (list F).
Variable cls_token_index : Z.
Variable context : string.

(** The logits of a feature and its null score: the part of the loop
    body up to [feature_null_score]. *)
Definition null_score_of (feature_index : nat) : result F :=
  features ← getitem prepared_dataset feature_index;
  start_logits ← getitem all_start_logits feature_index;
  end_logits ← getitem all_end_logits feature_index;
  feature_null_score features start_logits end_logits cls_token_index.

(** The body of the loop over [feature_indices]; the state is
    [(min_null_score, valid_answers)]. *)
Definition process_feature (feature_index : nat)
    (st : F * list answer) : result (F * list answer) :=
  features ← getitem prepared_dataset feature_index;
  start_logits ← getitem all_start_logits feature_index;
  end_logits ← getitem all_end_logits feature_index;
  let offset_mapping := ft_offset_mapping features in
  feature_null_score ←
    feature_null_score features start_logits end_logits cls_token_index;
  let min_null_score :=
    if ltb st.1 feature_null_score then feature_null_score else st.1 in
  let start_indexes := n_best start_logits in
  let end_indexes := n_best end_logits in
  valid_answers ←
    for_each
      (λ start_index,
         for_each
           (consider_span context offset_mapping start_logits end_logits
              start_index)
           end_indexes)
      start_indexes st.2;
  Ok (min_null_score, valid_answers).

Definition scan_features (feature_indices : list nat)
  : result (F * list answer) :=
  for_each process_feature feature_indices (zero, []).
End Example.

(** [sorted(l, key=lambda x: x["score"], reverse=True)]: the list is
    reversed, sorted in ascending order by a stable sort that compares the
    keys with [<] only, and reversed again.  The stable sort is written as
    an insertion sort; it is the result of Python's sort when [<] is a
    strict weak order on the keys, which it is on floats none of which is
    a NaN, and the properties of the best answer are stated for such an
    order. *)
Fixpoint insert_by_score (a : answer) (l : list answer) : list answer :=
  match l with
  | [] => [a]
  | b :: l' =>
      if ltb (score a) (score b) then a :: l else b :: insert_by_score a l'
  end.

Definition sort_by_score (l : list answer) : list answer :=
  fold_left (λ acc a, insert_by_score a acc) l [].

Definition sorted_reverse (l : list answer) : list answer :=
  rev (sort_by_score (rev l)).

(** The order of the sort: the score of [a] is not above the score of
    [b]. *)
Definition score_le (a b : answer) : Prop := ltb (score b) (score a) = false.

(** [best_answer] after the [if len(valid_answers) > 0: ... else: ...]. *)
Definition fake_prediction : answer := {| score := zero; text := "" |}.

Definition best_answer (valid_answers : list answer) : answer :=
  match valid_answers with
  | [] => fake_prediction
  | a :: _ => hd a (sorted_reverse valid_answers)
  end.

(** [best_answer["score"] > min_null_score] *)
Definition final_text (best : answer) (min_null_score : F) : string :=
  if ltb min_null_score (score best) then text best else "".

(** The body of the loop over the examples. *)
Definition postprocess_example (prepared_dataset : list feature)
    (all_start_logits all_end_logits : list (list F)) (cls_token_index : Z)
    (ex : example) (feature_indices : list nat) : result prediction :=
  st ← scan_features prepared_dataset all_start_logits all_end_logits
         cls_token_index (ex_context ex) feature_indices;
  let best := best_answer st.2 in
  Ok {| pr_id := ex_id ex;
        prediction_text := final_text best st.1;
        no_answer_probability := zero |}.

(** [{k: i for i, k in enumerate(dataset["id"])}], from position [i]. *)
Fixpoint id_to_index_from (i : nat) (ids : list string)
    (m : gmap string nat) : gmap string nat :=
  match ids with
  | [] => m
  | k :: ids' => id_to_index_from (S i) ids' (<[k:=i]> m)
  end.

(** The loop that fills [features_per_example], a [defaultdict(list)],
    from feature [i] on. *)
Fixpoint group_features (id_to_index : gmap string nat) (i : nat)
    (prepared : list feature) (fpe : gmap nat (list nat))
  : result (gmap nat (list nat)) :=
  match prepared with
  | [] => Ok fpe
  | f :: prepared' =>
      match id_to_index !! ft_id f with
      | None => Raise KeyError
      | Some example_index =>
          group_features id_to_index (S i) prepared'
            (<[example_index := default [] (fpe !! example_index) ++ [i]]>
               fpe)
      end
  end.

(** The loop over [enumerate(dataset)], from example [example_index] on. *)
Fixpoint examples_loop (prepared_dataset : list feature)
    (all_start_logits all_end_logits : list (list F)) (cls_token_index : Z)
    (features_per_example : gmap nat (list nat)) (example_index : nat)
    (dataset : list example) : result (list prediction) :=
  match dataset with
  | [] => Ok []
  | ex :: dataset' =>
      let feature_indices :=
        default [] (features_per_example !! example_index) in
      p ← postprocess_example prepared_dataset all_start_logits
            all_end_logits cls_token_index ex feature_indices;
      ps ← examples_loop prepared_dataset all_start_logits all_end_logits
             cls_token_index features_per_example (S example_index)
             dataset';
      Ok (p :: ps)
  end.

(** [np.asarray(predictions)[:, :, k]] (l.181-182).  [predictions] is the
    sequence that the model returned: a row per feature, a pair of logits
    per position.  [np.asarray] makes an array of it and [[:, :, k]] asks
    for three dimensions.  An empty sequence makes an array of one
    dimension, and rows without positions an array of two: the indexing
    raises [IndexError].  Rows of different lengths make no array:
    [np.asarray] raises [ValueError] (numpy before 1.24 made an array of
    objects of one dimension there, and the indexing raised [IndexError]).
    Otherwise the array has the shape (features, positions, 2). *)
Definition rectangular (predictions : list (list (F * F))) : bool :=
  match predictions with
  | [] => true
  | row :: rows => forallb (λ r, Nat.eqb (length r) (length row)) rows
  end.

Definition logits_array (predictions : list (list (F * F)))
    : result (list (list (F * F))) :=
  if rectangular predictions then
    match predictions with
    | [] => Raise IndexError
    | [] :: _ => Raise IndexError
    | _ :: _ => Ok predictions
    end
  else Raise ValueError.

Definition postprocess_predictions (predictions : list (list (F * F)))
    (dataset : list example) (prepared_dataset : list feature)
    (cls_token_index : Z) : result (list prediction) :=
  array ← logits_array predictions;
  let all_start_logits := map (map fst) array in
  let all_end_logits := map (map snd) array in
  let id_to_index := id_to_index_from 0 (map ex_id dataset) ∅ in
  features_per_example ← group_features id_to_index 0 prepared_dataset ∅;
  examples_loop prepared_dataset all_start_logits all_end_logits
    cls_token_index features_per_example 0 dataset.

End SpanResolver.

(** ** [postprocess_labels] *)

Definition postprocess_labels (dataset : list example) : list label :=
  map (λ ex, {| lb_id := ex_id ex;
                lb_text := ex_answers_text ex;
                lb_answer_start := ex_answers_start ex |}) dataset.

(** ** [prepare_test_examples] *)

(** What the call of the tokenizer returns: a row per window of
    [input_ids] and of [offset_mapping], [sequence_ids(i)] for each window
    ([None] for a special or padding token, 0 for the question, 1 for the
    context), and [overflow_to_sample_mapping]. *)
Record tokenized : Type := {
  tk_input_ids : list (list Z);
  tk_offset_mapping : list (list (Z * Z));
  tk_sequence_ids : list (list (option Z));
  tk_overflow_to_sample_mapping : list nat
}.

(** The batch that [prepare_test_examples] returns. *)
Record prepared : Type := {
  pp_input_ids : list (list Z);
  pp_offset_mapping : list (list (Z * Z));
  pp_id : list string
}.

Definition context_index : Z := 1.

(** The list comprehension that rewrites the offsets of a window, from
    position [k] on. *)
Fixpoint mask_offsets (sequence_ids : list (option Z)) (k : nat)
    (offsets : list (Z * Z)) : result (list (Z * Z)) :=
  match offsets with
  | [] => Ok []
  | o :: offsets' =>
      sid ← getitem sequence_ids k;
      let o' := if bool_decide (sid = Some context_index) then o
                else SENTINEL in
      rest ← mask_offsets sequence_ids (S k) offsets';
      Ok (o' :: rest)
  end.

Section FeatureBuilder.
(** The tokenizer: its [model_max_length] and the output of its call on
    the questions and the contexts with [max_length] and [stride], for a
    call that returns; the exceptions of the call itself are not
    modelled. *)
Variable model_max_length : Z.
Variable tokenizer : list string → list string → Z → Z → tokenized.

(** The body of the loop over the windows; the state is
    [(tokenized_examples["id"], tokenized_examples["offset_mapping"])]. *)
Definition prepare_window (ids : list string) (tk : tokenized) (i : nat)
    (st : list string * list (list (Z * Z)))
  : result (list string * list (list (Z * Z))) :=
  sequence_ids ← getitem (tk_sequence_ids tk) i;
  sample_index ← getitem (tk_overflow_to_sample_mapping tk) i;
  id ← getitem ids sample_index;
  offsets ← getitem st.2 i;
  masked ← mask_offsets sequence_ids 0 offsets;
  Ok (st.1 ++ [id], <[i := masked]> st.2).

Definition prepare_test_examples (examples : list example)
  : result prepared :=
  let question := map (λ ex, lstrip (ex_question ex)) examples in
  let stride := model_max_length `div` 4 in
  let max_length := model_max_length - stride in
  let tk := tokenizer question (map ex_context examples) max_length stride in
  st ← for_each (prepare_window (map ex_id examples) tk)
         (seq 0 (length (tk_input_ids tk)))
         ([], tk_offset_mapping tk);
  Ok {| pp_input_ids := tk_input_ids tk;
        pp_offset_mapping := st.2;
        pp_id := st.1 |}.
End FeatureBuilder.

(** ** [SequenceClassification._create_numerical_labels] *)

(** [[label2id[lbl.upper()] for lbl in labels]] *)
Fixpoint lookup_labels (label2id : gmap string Z) (labels : list string)
  : result (list Z) :=
  match labels with
  | [] => Ok []
  | lbl :: labels' =>
      match label2id !! upper lbl with
      | None => Raise KeyError
      | Some i => ids ← lookup_labels label2id labels'; Ok (i :: ids)
      end
  end.

(** [[lbl.upper() for lbl in labels if lbl.upper() not in label2id]] *)
Definition missing_labels (label2id : gmap string Z) (labels : list string)
  : list string :=
  filter (λ l, label2id !! l = None) (map upper labels).

(** The new value of [examples["labels"]]. *)
Definition _create_numerical_labels (labels : list string)
    (label2id : gmap string Z) : result (list Z) :=
  match lookup_labels label2id labels with
  | Raise KeyError =>
      missing_label ← getitem (missing_labels label2id labels) 0;
      Raise (MissingLabel missing_label label2id)
  | r => r
  end.

(** ** The methods of [QuestionAnswering] *)

Record TaskConfig : Type := { name : string; pretty_name : string }.

(** [_spacy_preprocess_fn] and [_extract_spacy_predictions] *)
Definition _spacy_preprocess_fn {A} (task_config : TaskConfig)
    (examples : A) : result A :=
  Raise (FrameworkCannotHandleTask "spaCy" (pretty_name task_config)).

Definition _extract_spacy_predictions {A B} (task_config : TaskConfig)
    (tokens_processed : A) : result B :=
  Raise (FrameworkCannotHandleTask "spaCy" (pretty_name task_config)).

(** [_check_if_model_is_trained_for_task]: each right-hand side is
    evaluated in the order of the source. *)
Definition _check_if_model_is_trained_for_task (model_predictions : pyval)
  : result bool :=
  sample_preds ← py_first model_predictions;
  n ← (py_first sample_preds ≫= py_len);
  let elements_are_pairs := bool_decide (n = 2) in
  leaf ← (py_first sample_preds ≫= py_first);
  let leaves_are_floats := is_float leaf in
  elt ← py_first sample_preds;
  let elements_are_strings := is_str elt in
  Ok ((elements_are_pairs && leaves_are_floats) || elements_are_strings).

(** ** The task orchestrator *)

Inductive framework : Type := PyTorch | SpaCy.

Section Orchestrator.
Context {Ex Ft Raw Out Res : Type}.
Variable preprocess : framework → Ex → result Ft.
Variable predict : Ft → Raw.
Variable postprocess : Raw → Ex → Ft → Out.
Variable compute_metrics : Out → Res.

Inductive stage : Type :=
| Idle
| Preprocessed (features : Ft)
| Inferred (features : Ft) (raw : Raw)
| Postprocessed (out : Out)
| Scored (res : Res)
| Failed (e : exn).

Record pipeline : Type := {
  pl_stage : stage;
  pl_inference_calls : nat
}.

(** Modelled from the spec: the pipeline of the Task Orchestrator (the
    class [Task], whose module is not among the sources).  Its state
    machine is [Idle → Preprocessed → Inferred → Postprocessed → Scored],
    linear, with one branch: a preprocessing stage that fails aborts from
    [Idle] to a terminal error state.  The counter records the calls of
    the external model. *)
Definition step (fw : framework) (examples : Ex) (p : pipeline)
  : option pipeline :=
  let n := pl_inference_calls p in
  match pl_stage p with
  | Idle =>
      match preprocess fw examples with
      | Ok features => Some {| pl_stage := Preprocessed features;
                               pl_inference_calls := n |}
      | Raise e => Some {| pl_stage := Failed e; pl_inference_calls := n |}
      end
  | Preprocessed features =>
      Some {| pl_stage := Inferred features (predict features);
              pl_inference_calls := S n |}
  | Inferred features raw =>
      Some {| pl_stage := Postprocessed (postprocess raw examples features);
              pl_inference_calls := n |}
  | Postprocessed out =>
      Some {| pl_stage := Scored (compute_metrics out);
              pl_inference_calls := n |}
  | Scored _ | Failed _ => None
  end.

Fixpoint run (fuel : nat) (fw : framework) (examples : Ex) (p : pipeline)
  : pipeline :=
  match fuel with
  | O => p
  | S fuel' =>
      match step fw examples p with
      | Some p' => run fuel' fw examples p'
      | None => p
      end
  end.

Definition initial : pipeline :=
  {| pl_stage := Idle; pl_inference_calls := 0 |}.
End Orchestrator.

(** Modelled from the spec: the dispatch of the preprocessing stage of the
    question-answering task on the framework, to the two strategies that
    [QuestionAnswering] defines. *)
Definition qa_preprocess {A} (task_config : TaskConfig)
    (_pytorch_preprocess_fn : A → result A) (fw : framework) (examples : A)
  : result A :=
  match fw with
  | PyTorch => _pytorch_preprocess_fn examples
  | SpaCy => _spacy_preprocess_fn task_config examples
  end.

(** ** [QuestionAnswering._prepare_predictions_and_labels] *)

(** [kwargs] holds the keyword arguments of the call; the value of
    [kwargs["cls_token_index"]] is an argument of
    [postprocess_predictions], evaluated before the call. *)
Definition _prepare_predictions_and_labels {F : Type} (zero : F)
    (add : F → F → F) (ltb : F → F → bool) (argsort : list F → list nat)
    (predictions : list (list (F * F))) (dataset : list example)
    (prepared_dataset : list feature) (kwargs : gmap string Z)
  : result (list (list prediction * list label)) :=
  match kwargs !! "cls_token_index" with
  | None => Raise KeyError
  | Some cls_token_index =>
      predictions ← postprocess_predictions zero add ltb argsort predictions
                      dataset prepared_dataset cls_token_index;
      let labels := postprocess_labels dataset in
      Ok [(predictions, labels)]
  end.

(** ** The helper [tokenise] of [SequenceClassification._preprocess_data] *)

(** The exceptions of the preprocessing of the sequence classification. *)
Inductive preprocess_exn : Type :=
| InvalidEvaluation (message : string)
| WrongFeatureColumnName (feature_column_names : list string).

(** A column of a tokenised batch: token ids from the tokenizer, or the
    raw labels. *)
Inductive column : Type :=
| Tokens (rows : list (list Z))
| Labels (labels : list string).

(** [[examples[feat_col] for feat_col in feature_column_names]]; [None]
    stands for the [KeyError] of a missing column. *)
Definition feature_columns (examples : gmap string (list string))
    (feature_column_names : list string) : option (list (list string)) :=
  mapM (λ feat_col, examples !! feat_col) feature_column_names.

(** [tokenise(examples)], for a tokenizer that is called on the feature
    columns and returns its columns of token ids; each [KeyError] of the
    [try] block becomes [WrongFeatureColumnName]. *)
Definition tokenise
    (tokenizer : list (list string) → gmap string (list (list Z)))
    (feature_column_names : list string) (label_column_name : string)
    (examples : gmap string (list string))
  : preprocess_exn + gmap string column :=
  match feature_columns examples feature_column_names with
  | None => inl (WrongFeatureColumnName feature_column_names)
  | Some columns =>
      let tokenised_examples := Tokens <$> tokenizer columns in
      match examples !! label_column_name with
      | None => inl (WrongFeatureColumnName feature_column_names)
      | Some labels => inr (<["labels" := Labels labels]> tokenised_examples)
      end
  end.

(** ** The task configurations of [task_configs.py] *)

Module TaskConfigs.

(** The arguments with which the module builds its [Label],
    [MetricConfig] and [TaskConfig] objects. *)
Record Label : Type := { label_name : string; synonyms : list string }.

Record MetricConfig : Type := {
  metric_name : string;
  metric_pretty_name : string;
  metric_huggingface_id : string;
  results_key : string;
  compute_kwargs : list (string * string)
}.

Record TaskConfig : Type := {
  task_name : string;
  dataset_name : string;
  pretty_dataset_name : string;
  huggingface_id : string;
  supertask : string;
  metrics : list MetricConfig;
  labels : list Label;
  split_names : list (string * option string)
}.

Definition NER : TaskConfig :=
  {| task_name := "ner";
     dataset_name := "dane";
     pretty_dataset_name := "DaNE";
     huggingface_id := "dane";
     supertask := "token-classification";
     metrics :=
       [{| metric_name := "micro_f1";
           metric_pretty_name := "Micro-average F1-score";
           metric_huggingface_id := "seqeval";
           results_key := "overall_f1";
           compute_kwargs := [] |};
        {| metric_name := "micro_f1_no_misc";
           metric_pretty_name := "Micro-average F1-score without MISC tags";
           metric_huggingface_id := "seqeval";
           results_key := "overall_f1";
           compute_kwargs := [] |}];
     labels :=
       [{| label_name := "O";
           synonyms := [] |};
        {| label_name := "B-LOC";
           synonyms :=
             ["B-LOCATION"; "B-PLACE"; "B-GPELOC"; "B-GPE_LOC"; "B-GPE/LOC";
              "B-LOCGPE"; "B-LOC_GPE"; "B-LOC/GPE"; "B-LOCORG"; "B-LOC_ORG";
              "B-LOC/ORG"; "B-ORGLOC"; "B-ORG_LOC"; "B-ORG/LOC"; "B-LOCPRS";
              "B-LOC_PRS"; "B-LOC/PRS"; "B-PRSLOC"; "B-PRS_LOC"; "B-PRS/LOC"] |};
        {| label_name := "I-LOC";
           synonyms :=
             ["I-LOCATION"; "I-PLACE"; "I-GPELOC"; "I-GPE_LOC"; "I-GPE/LOC";
              "I-LOCGPE"; "I-LOC_GPE"; "I-LOC/GPE"; "I-LOCORG"; "I-LOC_ORG";
              "I-LOC/ORG"; "I-ORGLOC"; "I-ORG_LOC"; "I-ORG/LOC"; "I-LOCPRS";
              "I-LOC_PRS"; "I-LOC/PRS"; "I-PRSLOC"; "I-PRS_LOC"; "I-PRS/LOC"] |};
        {| label_name := "B-ORG";
           synonyms :=
             ["B-ORGANIZATION"; "B-ORGANISATION"; "B-INST"; "B-GPEORG";
              "B-GPE_ORG"; "B-GPE/ORG"; "B-ORGGPE"; "B-ORG_GPE"; "B-ORG/GPE";
              "B-ORGPRS"; "B-ORG_PRS"; "B-ORG/PRS"; "B-PRSORG"; "B-PRS_ORG";
              "B-PRS/ORG"; "B-OBJORG"; "B-OBJ_ORG"; "B-OBJ/ORG"; "B-ORGOBJ";
              "B-ORG_OBJ"; "B-ORG/OBJ"] |};
        {| label_name := "I-ORG";
           synonyms :=
             ["I-ORGANIZATION"; "I-ORGANISATION"; "I-INST"; "I-GPEORG";
              "I-GPE_ORG"; "I-GPE/ORG"; "I-ORGGPE"; "I-ORG_GPE"; "I-ORG/GPE";
              "I-ORGPRS"; "I-ORG_PRS"; "I-ORG/PRS"; "I-PRSORG"; "I-PRS_ORG";
              "I-PRS/ORG"; "I-OBJORG"; "I-OBJ_ORG"; "I-OBJ/ORG"; "I-ORGOBJ";
              "I-ORG_OBJ"; "I-ORG/OBJ"] |};
        {| label_name := "B-PER";
           synonyms := ["B-PERSON"] |};
        {| label_name := "I-PER";
           synonyms := ["I-PERSON"] |};
        {| label_name := "B-MISC";
           synonyms := ["B-MISCELLANEOUS"] |};
        {| label_name := "I-MISC";
           synonyms := ["I-MISCELLANEOUS"] |}];
     split_names :=
       [("train", Some "train"); ("test", Some "test");
        ("val", Some "validation")] |}.

Definition SENT : TaskConfig :=
  {| task_name := "sent";
     dataset_name := "angry-tweets";
     pretty_dataset_name := "Angry Tweets";
     huggingface_id := "DDSC/angry-tweets";
     supertask := "text-classification";
     metrics :=
       [{| metric_name := "mcc";
           metric_pretty_name := "Matthew's Correlation Coefficient";
           metric_huggingface_id := "matthews_correlation";
           results_key := "matthews_correlation";
           compute_kwargs := [] |};
        {| metric_name := "macro_f1";
           metric_pretty_name := "Macro-average F1-score";
           metric_huggingface_id := "f1";
           results_key := "f1";
           compute_kwargs := [("average", "macro")] |}];
     labels :=
       [{| label_name := "NEGATIVE";
           synonyms :=
             ["NEG"; "NEGATIV"; "LABEL_0"] |};
        {| label_name := "NEUTRAL";
           synonyms :=
             ["NEU"; "LABEL_1"] |};
        {| label_name := "POSITIVE";
           synonyms :=
             ["POS"; "POSITIV"; "LABEL_2"] |}];
     split_names :=
       [("train", Some "train"); ("test", Some "test"); ("val", None)] |}.

(** [{cfg.name: cfg for cfg in cfgs}]: a later configuration replaces an
    earlier one of the same name. *)
Definition by_name (cfgs : list TaskConfig) : gmap string TaskConfig :=
  fold_left (λ m cfg, <[task_name cfg := cfg]> m) cfgs ∅.

(** The values of [globals()] that are instances of [TaskConfig], in the
    order in which the module defines them. *)
Definition task_config_globals : list TaskConfig := [NER; SENT].

Definition get_all_task_configs : gmap string TaskConfig :=
  by_name task_config_globals.

(** The strings under which the labels of a task can be written: the name
    and the synonyms of each label. *)
Definition label_strings (cfg : TaskConfig) : list string :=
  concat (map (λ l, label_name l :: synonyms l) (labels cfg)).

End TaskConfigs.

(** ** [local_model_utils.py] *)

(** [s.lower()] on ASCII text. *)
Definition lower_ascii (c : ascii) : ascii :=
  let n := nat_of_ascii c in
  if ((65 <=? n) && (n <=? 90))%nat then ascii_of_nat (n + 32) else c.

Fixpoint lower (s : string) : string :=
  match s with
  | EmptyString => EmptyString
  | String c s' => String (lower_ascii c) (lower s')
  end.

(** [s.split()]: the words between runs of whitespace; [word] is the word
    that is being read. *)
Fixpoint split_ws_from (word s : string) : list string :=
  match s with
  | EmptyString => if decide (word = EmptyString) then [] else [word]
  | String c s' =>
      if is_space c then
        if decide (word = EmptyString) then split_ws_from EmptyString s'
        else word :: split_ws_from EmptyString s'
      else split_ws_from (word +:+ String c EmptyString) s'
  end.

Definition split_ws (s : string) : list string := split_ws_from EmptyString s.

(** [s.split(sep)] for a separator of one character. *)
Fixpoint split_on_from (sep : ascii) (word s : string) : list string :=
  match s with
  | EmptyString => [word]
  | String c s' =>
      if decide (c = sep) then word :: split_on_from sep EmptyString s'
      else split_on_from sep (word +:+ String c EmptyString) s'
  end.

Definition split_on (sep : ascii) (s : string) : list string :=
  split_on_from sep EmptyString s.

Module LocalModels.

(** The values of a configuration file, which is a JSON object; [VNull]
    is [None]. *)
Inductive value : Type :=
| VNull
| VBool (b : bool)
| VInt (z : Z)
| VFloat (x : Q)
| VStr (s : string)
| VList (l : list value)
| VDict (d : list (string * value)).

(** The types that [get_from_config] tells apart.  For an [expected_type]
    that is none of them, the code assigns no value to the key of a reply;
    such calls are not modelled. *)
Inductive pytype : Type := TStr | TInt | TFloat | TBool | TList | TDict.

(** [isinstance(v, t)]; [bool] is a subclass of [int]. *)
Definition isinstance (v : value) (t : pytype) : bool :=
  match v, t with
  | VBool _, (TBool | TInt) => true
  | VInt _, TInt => true
  | VFloat _, TFloat => true
  | VStr _, TStr => true
  | VList _, TList => true
  | VDict _, TDict => true
  | _, _ => false
  end.

(** [v is not None] *)
Definition is_not_None (v : value) : bool :=
  match v with VNull => false | _ => true end.

(** [d[k] = v] on a dictionary that keeps the order of its keys. *)
Fixpoint dict_set (k : string) (v : value) (d : list (string * value))
  : list (string * value) :=
  match d with
  | [] => [(k, v)]
  | (k', v') :: d' =>
      if decide (k' = k) then (k, v) :: d' else (k', v') :: dict_set k v d'
  end.

(** [dict(item.split("=") for item in items)]: every item must split into
    two parts. *)
Fixpoint dict_of_items (items : list string) (d : list (string * value))
  : result (list (string * value)) :=
  match items with
  | [] => Ok d
  | item :: items' =>
      match split_on "=" item with
      | [k; v] => dict_of_items items' (dict_set k (VStr v) d)
      | _ => Raise ValueError
      end
  end.

Section FileSystem.
(** The file system: [glob folder pattern] lists what
    [Path(folder).glob(pattern)] yields, in order, [join folder name] is
    [Path(folder) / name], and [path_exists] is [Path.exists]. *)
Variable glob : string → string → list string.
Variable join : string → string → string.
Variable path_exists : string → bool.

(** [next(model_folder.glob(pattern))] when no name is given, and
    [model_folder / fname] otherwise; [None] stands for
    [StopIteration]. *)
Definition find_file (model_folder pattern : string) (fname : option string)
  : option string :=
  match fname with
  | None => head (glob model_folder pattern)
  | Some name => Some (join model_folder name)
  end.

Definition model_exists_locally (model_id : string)
    (architecture_fname weight_fname : option string) : bool :=
  let model_folder := model_id in
  match find_file model_folder "*.py" architecture_fname with
  | None => false
  | Some architecture_path =>
      match find_file model_folder "*.bin" weight_fname with
      | None => false
      | Some weight_path =>
          path_exists architecture_path && path_exists weight_path
      end
  end.
End FileSystem.

Section Config.
(** [int(s)] and [float(s)]; [None] stands for [ValueError]. *)
Variable int_of_string : string → option Z.
Variable float_of_string : string → option Q.

Definition base_prompt : string :=
  "The configuration did not contain the {key!r} entry. Please specify its value".

(** The prompt when [user_prompt] is [None].  The prompt that mentions the
    default value is assigned first and then replaced in every branch of
    the test of the type. *)
Definition generated_prompt (expected_type : pytype)
    (user_prompt_default_value : value) : string :=
  let user_prompt :=
    if is_not_None user_prompt_default_value then
      Some "The configuration did not contain the {key!r} entry. Press Enter to use the default value {user_prompt_default_value!r} or specify a new value"
    else None in
  match expected_type with
  | TBool => base_prompt +:+ " (true/false): "
  | TList => base_prompt +:+ " (comma-separated): "
  | TDict => base_prompt +:+ " (key=value, comma-separated): "
  | _ => base_prompt +:+ ": "
  end%string.

(** The value that the user typed, by the expected type. *)
Definition parse_input (expected_type : pytype) (user_input : string)
  : result value :=
  match expected_type with
  | TStr => Ok (VStr user_input)
  | TInt =>
      match int_of_string user_input with
      | Some z => Ok (VInt z)
      | None => Raise ValueError
      end
  | TFloat =>
      match float_of_string user_input with
      | Some x => Ok (VFloat x)
      | None => Raise ValueError
      end
  | TBool => Ok (VBool (bool_decide (lower user_input = "true")))
  | TList => Ok (VList (VStr <$> split_ws user_input))
  | TDict => VDict <$> dict_of_items (split_on "," user_input) []
  end.

(** What a call does: the value it returns or the exception it raises,
    the prompt it showed, if any, and the configuration file after the
    call ([None] when the folder has no JSON file). *)
Record outcome : Type := {
  returned : result value;
  prompted : option string;
  saved : option (gmap string value)
}.

(** [config[key] = v], the write of the file and [return config[key]]. *)
Definition store (config : gmap string value) (key : string) (v : value)
    (prompt : option string) : outcome :=
  {| returned := Ok v;
     prompted := prompt;
     saved := Some (<[key := v]> config) |}.

(** [file] is the content of the first JSON file of the model folder, and
    [user_input] is the line that [input] reads if it is called.  The
    file is taken to hold a JSON object, and [input] and the write of the
    file to succeed: an outcome describes a call in which neither the file
    system nor the standard input raises. *)
Definition get_from_config (file : option (gmap string value))
    (key : string) (expected_type : pytype) (default_value : value)
    (user_prompt : option string) (user_prompt_default_value : value)
    (user_input : string) : outcome :=
  let config := default ∅ file in
  match config !! key with
  | Some v => {| returned := Ok v; prompted := None; saved := file |}
  | None =>
      let ask :=
        let prompt :=
          match user_prompt with
          | Some p => p
          | None => generated_prompt expected_type user_prompt_default_value
          end in
        if bool_decide (user_input = EmptyString)
           && is_not_None user_prompt_default_value
        then store config key user_prompt_default_value (Some prompt)
        else
          match parse_input expected_type user_input with
          | Ok v => store config key v (Some prompt)
          | Raise e =>
              {| returned := Raise e; prompted := Some prompt;
                 saved := file |}
          end in
      if is_not_None default_value && isinstance default_value expected_type
      then store config key default_value None
      else ask
  end.

(** [", ".join(l)] *)
Fixpoint join_comma (l : list string) : string :=
  match l with
  | [] => EmptyString
  | [s] => s
  | s :: l' => (s +:+ ", " +:+ join_comma l')%string
  end.

Record ModelConfig : Type := {
  mc_model_id : string;
  mc_tokenizer_id : value;
  mc_revision : string;
  mc_framework : framework;
  mc_id2label : value
}.

(** What [get_model_config_locally] does: the model configuration or the
    exception, the prompts it showed and the configuration file after the
    call.  [path_name] is [Path(...).name]; [line1] and [line2] are the
    next two lines of the standard input. *)
Definition get_model_config_locally (path_name : string → string)
    (file : option (gmap string value)) (model_folder : string)
    (dataset_id2label : list string) (line1 line2 : string)
  : result ModelConfig * list string * option (gmap string value) :=
  let tokenizer_id :=
    get_from_config file "tokenizer_id" TStr VNull
      (Some "Please specify the Hugging Face ID of the tokenizer to use: ")
      VNull line1 in
  match returned tokenizer_id with
  | Raise e => (Raise e, option_list (prompted tokenizer_id),
                saved tokenizer_id)
  | Ok tok =>
      let line :=
        match prompted tokenizer_id with
        | Some _ => line2
        | None => line1
        end in
      let id2label :=
        get_from_config (saved tokenizer_id) "id2label" TList VNull
          (Some ("Please specify the labels in the order the model was trained (comma-separated), or press enter to use the default values ["
                 +:+ join_comma dataset_id2label +:+ "]: ")%string)
          (VList (VStr <$> dataset_id2label)) line in
      let prompts :=
        option_list (prompted tokenizer_id)
        ++ option_list (prompted id2label) in
      match returned id2label with
      | Raise e => (Raise e, prompts, saved id2label)
      | Ok labels =>
          (Ok {| mc_model_id := path_name model_folder;
                 mc_tokenizer_id := tok;
                 mc_revision := "";
                 mc_framework := PyTorch;
                 mc_id2label := labels |},
           prompts, saved id2label)
      end
  end.
End Config.

End LocalModels.

(** No character of [s] is whitespace. *)
Fixpoint no_space (s : string) : bool :=
  match s with
  | EmptyString => true
  | String c s' => negb (is_space c) && no_space s'
  end.

(** ** Logits with integer values

    On floats whose values are small integers, the sum and the comparison
    of floats are the sum and the comparison of the integers.  The resolver
    is run on such logits below, with a stable [argsort]. *)
Module IntLogits.

Fixpoint insert_index (l : list Z) (i : nat) (sorted : list nat)
  : list nat :=
  match sorted with
  | [] => [i]
  | j :: sorted' =>
      if nth i l 0 <? nth j l 0 then i :: sorted
      else j :: insert_index l i sorted'
  end.

Definition argsort (l : list Z) : list nat :=
  fold_left (λ acc i, insert_index l i acc) (seq 0 (length l)) [].

Definition postprocess_predictions :=
  postprocess_predictions 0 Z.add Z.ltb argsort.

End IntLogits.

(** ** Sample data *)
Module Sample.

Definition ex_paris : example :=
  {| ex_id := "q1"; ex_question := "Which city?";
     ex_context := "Paris is nice"; ex_answers_text := ["Paris"];
     ex_answers_start := [0] |}.

Definition ex_nobody : example :=
  {| ex_id := "q0"; ex_question := "Who?"; ex_context := "Nobody";
     ex_answers_text := []; ex_answers_start := [] |}.

(** A window of [ex_paris]: the classifier token, a question token and the
    context token that spells "Paris". *)
Definition ft_paris : feature :=
  {| ft_id := "q1"; ft_input_ids := [101; 7; 8];
     ft_offset_mapping := [SENTINEL; SENTINEL; (0, 5)] |}.

(** Two windows of [ex_paris] without question tokens, over "Paris" and
    over "is". *)
Definition ft_first : feature :=
  {| ft_id := "q1"; ft_input_ids := [101; 8];
     ft_offset_mapping := [SENTINEL; (0, 5)] |}.

Definition ft_second : feature :=
  {| ft_id := "q1"; ft_input_ids := [101; 9];
     ft_offset_mapping := [SENTINEL; (6, 8)] |}.

(** A window without the classifier token. *)
Definition ft_no_cls : feature :=
  {| ft_id := "q1"; ft_input_ids := [7; 8];
     ft_offset_mapping := [SENTINEL; (0, 5)] |}.

(** A tokenizer that returns one window for [ex_paris]: the classifier
    token, a question token, a separator, the context token "Paris", a
    separator and one token of padding. *)
Definition tokenizer (question context : list string) (max_length stride : Z)
  : tokenized :=
  {| tk_input_ids := [[101; 7; 102; 8; 102; 0]];
     tk_offset_mapping := [[(0, 0); (0, 5); (0, 0); (0, 5); (0, 0); (0, 0)]];
     tk_sequence_ids := [[None; Some 0; None; Some 1; None; None]];
     tk_overflow_to_sample_mapping := [0%nat] |}.

(** The answers that the scan of [ft_paris] records for the start and end
    logits 0, 1 and 5. *)
Definition answers_paris : list (@answer Z) :=
  [{| score := 10; text := "Paris" |}; {| score := 6; text := "" |};
   {| score := 2; text := "" |}; {| score := 5; text := "" |};
   {| score := 1; text := "" |}; {| score := 0; text := "" |}].

(** Answers with a tie for the highest score. *)
Definition answers_tied : list (@answer Z) :=
  [{| score := 5; text := "a" |}; {| score := 7; text := "b" |};
   {| score := 7; text := "c" |}; {| score := 3; text := "d" |}].

End Sample.

(** ** Predicates of the properties *)

(** [a] is the answer that the span from [start_index] to [end_index] of a
    feature gives: the span is in order and at most [max_answer_length]
    positions long, the score is the sum of the two logits and the text is
    the slice of the context between the character bounds of the span. *)
Definition answer_of_span {F : Type} (add : F → F → F) (context : string)
    (offset_mapping : list (Z * Z)) (start_logits end_logits : list F)
    (start_index end_index : nat) (a : answer) : Prop :=
  (start_index ≤ end_index
   ∧ end_index - start_index + 1 ≤ max_answer_length)%nat
  ∧ ∃ os oe x y,
      offset_mapping !! start_index = Some os
      ∧ offset_mapping !! end_index = Some oe
      ∧ start_logits !! start_index = Some x
      ∧ end_logits !! end_index = Some y
      ∧ a = {| score := add x y; text := py_slice context os.1 oe.2 |}.

(** [a] is an answer of the feature [feature_index], for a span among the
    [n_best] start and end positions. *)
Definition answer_of_feature {F : Type} (add : F → F → F)
    (argsort : list F → list nat) (prepared_dataset : list feature)
    (all_start_logits all_end_logits : list (list F)) (context : string)
    (feature_index : nat) (a : answer) : Prop :=
  ∃ features start_logits end_logits start_index end_index,
    prepared_dataset !! feature_index = Some features
    ∧ all_start_logits !! feature_index = Some start_logits
    ∧ all_end_logits !! feature_index = Some end_logits
    ∧ start_index ∈ n_best argsort start_logits
    ∧ end_index ∈ n_best argsort end_logits
    ∧ answer_of_span add context (ft_offset_mapping features) start_logits
        end_logits start_index end_index a.

(** [argsort] sorts: it returns the positions of its argument, once each,
    in an order in which no logit is followed by a smaller one, as
    [np.argsort] does on floats none of which is a NaN. *)
Definition sorts {F : Type} (ltb : F → F → bool)
    (argsort : list F → list nat) : Prop :=
  ∀ logits,
    argsort logits ≡ₚ seq 0 (length logits)
    ∧ StronglySorted
        (λ i j, ∀ x y, logits !! i = Some x → logits !! j = Some y →
                       ltb y x = false)
        (argsort logits).

(** The position [i] is among the [n] best of [logits]: the positions that
    hold a greater logit are fewer than [n]. *)
Definition among_best {F : Type} (ltb : F → F → bool) (n : nat)
    (logits : list F) (i : nat) : Prop :=
  (i < length logits)%nat
  ∧ ∀ above, NoDup above →
      (∀ j, j ∈ above →
         ∃ x y, logits !! i = Some x ∧ logits !! j = Some y
                ∧ ltb x y = true) →
      (length above < n)%nat.

(** The logits of a feature have a row, and the classifier token of the
    feature has a position within the row. *)
Definition has_null_score {F : Type} (predictions : list (list (F * F)))
    (cls_token_index : Z) (feature_index : nat) (f : feature) : Prop :=
  ∃ row cls_index,
    predictions !! feature_index = Some row
    ∧ list_index cls_token_index (ft_input_ids f) = Ok cls_index
    ∧ (cls_index < length row)%nat.

(** The output of the tokenizer is well formed for the first [n] windows:
    each of them has its sequence ids, the index of an example, and
    offsets with a sequence id for every position. *)
Definition windows_well_formed (ids : list string) (tk : tokenized)
    (n : nat) : Prop :=
  ∀ i, (i < n)%nat →
    ∃ sequence_ids sample_index offsets,
      tk_sequence_ids tk !! i = Some sequence_ids
      ∧ tk_overflow_to_sample_mapping tk !! i = Some sample_index
      ∧ (sample_index < length ids)%nat
      ∧ tk_offset_mapping tk !! i = Some offsets
      ∧ (length offsets ≤ length sequence_ids)%nat.

(** The example with [w] in front of its question. *)
Definition prefix_question (w : string) (ex : example) : example :=
  {| ex_id := ex_id ex;
     ex_question := (w +:+ ex_question ex)%string;
     ex_context := ex_context ex;
     ex_answers_text := ex_answers_text ex;
     ex_answers_start := ex_answers_start ex |}.

(** The reply [user_input] is not a value of the type [expected_type]:
    [int] or [float] rejects it, or one of its items between commas does
    not split at ["="] into a key and a value. *)
Definition unparsable (int_of_string : string → option Z)
    (float_of_string : string → option Q)
    (expected_type : LocalModels.pytype) (user_input : string) : Prop :=
  match expected_type with
  | LocalModels.TInt => int_of_string user_input = None
  | LocalModels.TFloat => float_of_string user_input = None
  | LocalModels.TDict =>
      ∃ item, item ∈ split_on "," user_input
              ∧ length (split_on "=" item) ≠ 2%nat
  | _ => False
  end.

(** * Properties *)

(** ** The result monad *)

Lemma bind_Ok {A B} (c : result A) (k : A → result B) (b : B) :
  c ≫= k = Ok b → ∃ a, c = Ok a ∧ k a = Ok b.
Proof. destruct c as [a|e]; [by exists a | discriminate]. Qed.

Lemma fmap_Ok {A B} (f : A → B) (c : result A) (b : B) :
  f <$> c = Ok b → ∃ a, c = Ok a ∧ b = f a.
Proof. destruct c as [a|e]; [|discriminate]. intros [= <-]. by exists a. Qed.

Lemma getitem_Ok {A} (l : list A) (i : nat) (a : A) :
  getitem l i = Ok a ↔ l !! i = Some a.
Proof. unfold getitem. destruct (l !! i); split; congruence. Qed.

Lemma getitem_lt {A} (l : list A) (i : nat) :
  (i < length l)%nat → ∃ a, getitem l i = Ok a ∧ l !! i = Some a.
Proof.
  intros Hi. destruct (lookup_lt_is_Some_2 l i Hi) as [a Ha].
  exists a. by rewrite getitem_Ok.
Qed.

(** Splits the hypotheses that say that a sequence of statements returned. *)
Ltac inv_result :=
  repeat match goal with
    | H : Ok _ = Ok _ |- _ => injection H as H; try subst
    | H : Raise _ = Ok _ |- _ => discriminate H
    | H : mbind _ _ = Ok _ |- _ =>
        let a := fresh "a" in
        let Ha := fresh "H" a in
        apply bind_Ok in H as (a & Ha & H); cbn beta in H
    | H : getitem _ _ = Ok _ |- _ => rewrite getitem_Ok in H
    end.

(** ** The span filter *)

(** An offset entry is never equal to an [int]. *)
Lemma py_eq_offset_int (o : Z * Z) (z : Z) :
  py_eq (offset_value o) (PyInt z) = false.
Proof. reflexivity. Qed.

Section SpanFilter.
Context {F : Type} (add : F → F → F).

Lemma out_of_scope_spec (om : list (Z * Z)) (s e : nat) :
  out_of_scope om s e
  = Ok (bool_decide (length om ≤ s)%nat || bool_decide (length om ≤ e)%nat).
Proof.
  unfold out_of_scope.
  case_bool_decide as Hs; [done|]. case_bool_decide as He; [done|].
  destruct (getitem_lt om s) as (os & -> & _); [lia|].
  destruct (getitem_lt om e) as (oe & -> & _); [lia|].
  by cbn.
Qed.

(** What the span filter does check: a pair that is recorded lies within
    the offset mapping, in order, and spans at most
    [max_answer_length] positions. *)
Lemma consider_span_recorded context om sl el s e (va va' : list (@answer F)) :
  consider_span add context om sl el s e va = Ok va' →
  va' ≠ va →
  (s < length om ∧ e < length om ∧ s ≤ e ∧ e - s + 1 ≤ max_answer_length)%nat.
Proof.
  unfold consider_span. rewrite out_of_scope_spec. cbn.
  destruct (bool_decide _ || bool_decide _) eqn:Hscope; [by intros [= ->]|].
  destruct (bad_length s e) eqn:Hlen; [by intros [= ->]|].
  intros _ _. unfold bad_length, max_answer_length in *.
  apply orb_false_iff in Hscope as [Hs He], Hlen as [H1 H2].
  repeat match goal with
    | H : bool_decide _ = false |- _ => apply bool_decide_eq_false in H
    end.
  lia.
Qed.

(** A pair that is not recorded leaves [valid_answers] as it was, and a
    recorded one appends one answer. *)
Lemma consider_span_cases context om sl el s e (va va' : list (@answer F)) :
  consider_span add context om sl el s e va = Ok va' →
  va' = va ∨ ∃ a, va' = va ++ [a].
Proof.
  unfold consider_span. rewrite out_of_scope_spec. cbn.
  destruct (bool_decide _ || bool_decide _); [intros [= ->]; by left|].
  destruct (bad_length s e); [intros [= ->]; by left|].
  intros H. inv_result. right. eauto.
Qed.
End SpanFilter.

(** C1 (the code departs from the claim).  The span filter compares an
    offset entry, a pair, with the integer [-1], which never holds, so a
    pair of positions whose offset entries are the SENTINEL is recorded as
    a valid answer.  Here the question token at position 1 carries the
    highest logits: the span (1, 1) is recorded with the text
    [context[-1:-1]], and the prediction for the example is the empty string
    although the context token at position 2 spells "Paris". *)
Theorem sentinel_span_is_recorded :
  ft_offset_mapping Sample.ft_paris !! 1%nat = Some SENTINEL
  ∧ consider_span Z.add (ex_context Sample.ex_paris)
      (ft_offset_mapping Sample.ft_paris) [0; 9; 5] [0; 9; 5] 1 1 []
    = Ok [{| score := 18; text := "" |}]
  ∧ IntLogits.postprocess_predictions [[(0, 0); (9, 9); (5, 5)]]
      [Sample.ex_paris] [Sample.ft_paris] 101
    = Ok [{| pr_id := "q1"; prediction_text := "";
             no_answer_probability := 0 |}].
Proof. repeat split; vm_compute; reflexivity. Qed.

(** ** The choice of the best answer *)

Section BestAnswer.
Context {F : Type} (zero : F) (ltb : F → F → bool).

Lemma insert_by_score_perm (a : answer) (l : list answer) :
  insert_by_score ltb a l ≡ₚ a :: l.
Proof.
  induction l as [|b l IH]; cbn; [done|].
  destruct (ltb (score a) (score b)); [done|].
  rewrite IH. apply Permutation_swap.
Qed.

Lemma sort_by_score_perm (l : list (@answer F)) : sort_by_score ltb l ≡ₚ l.
Proof.
  unfold sort_by_score.
  assert (∀ acc, fold_left (λ acc a, insert_by_score ltb a acc) l acc
                 ≡ₚ acc ++ l) as H; [|apply (H [])].
  induction l as [|a l IH]; intros acc; cbn.
  - by rewrite app_nil_r.
  - rewrite IH, insert_by_score_perm. cbn. apply Permutation_middle.
Qed.

Lemma sorted_reverse_perm (l : list (@answer F)) : sorted_reverse ltb l ≡ₚ l.
Proof.
  unfold sorted_reverse.
  by rewrite <-Permutation_rev, sort_by_score_perm, <-Permutation_rev.
Qed.

(** The best answer is one of the valid answers, when there is one. *)
Lemma best_answer_elem (valid : list (@answer F)) :
  valid ≠ [] → best_answer zero ltb valid ∈ valid.
Proof.
  destruct valid as [|a valid]; [done|]. intros _. unfold best_answer.
  pose proof (sorted_reverse_perm (a :: valid)) as Hp.
  destruct (sorted_reverse ltb (a :: valid)) as [|b l] eqn:Hs.
  - by apply Permutation_nil_cons in Hp.
  - cbn. rewrite <-Hp. apply list_elem_of_here.
Qed.

Lemma best_answer_nil : best_answer zero ltb [] = fake_prediction zero.
Proof. reflexivity. Qed.
End BestAnswer.

Section BestAnswerMax.
Context {F : Type} (zero : F) (ltb : F → F → bool).
Hypothesis ltb_asym : ∀ x y, ltb x y = true → ltb y x = false.
Hypothesis ltb_cotrans :
  ∀ x y z, ltb x z = true → ltb x y = true ∨ ltb y z = true.

Abbreviation score_le := (score_le ltb).

Lemma score_le_trans (a b c : answer) :
  score_le a b → score_le b c → score_le a c.
Proof.
  unfold score_le. intros Hab Hbc.
  destruct (ltb (score c) (score a)) eqn:H; [|done].
  destruct (ltb_cotrans _ (score b) _ H); congruence.
Qed.

Lemma insert_by_score_sorted (a : answer) (l : list answer) :
  StronglySorted score_le l → StronglySorted score_le (insert_by_score ltb a l).
Proof.
  induction 1 as [|b l Hl IH Hb]; cbn.
  - repeat constructor.
  - destruct (ltb (score a) (score b)) eqn:Hab.
    + assert (score_le a b) as Hle by (by apply ltb_asym).
      constructor; [by constructor|]. constructor; [done|].
      eapply Forall_impl; [exact Hb|]. intros c. by apply score_le_trans.
    + constructor; [done|].
      rewrite insert_by_score_perm. by constructor.
Qed.

Lemma sort_by_score_sorted (l : list answer) :
  StronglySorted score_le (sort_by_score ltb l).
Proof.
  unfold sort_by_score.
  assert (∀ acc, StronglySorted score_le acc →
                 StronglySorted score_le
                   (fold_left (λ acc a, insert_by_score ltb a acc) l acc))
    as H; [|apply H; constructor].
  induction l as [|a l IH]; intros acc Hacc; cbn; [done|].
  by apply IH, insert_by_score_sorted.
Qed.

Lemma sorted_last_max (l : list answer) (b : answer) :
  StronglySorted score_le (l ++ [b]) → ∀ a, a ∈ l ++ [b] → score_le a b.
Proof.
  intros Hs a Ha. apply elem_of_app in Ha as [Ha|Ha].
  - eapply StronglySorted_app_1_elem_of; [exact Hs|done|by left].
  - apply list_elem_of_singleton in Ha as ->. unfold score_le.
    destruct (ltb (score b) (score b)) eqn:H; [|done].
    by rewrite (ltb_asym _ _ H) in H.
Qed.

(** On a strict weak order, no valid answer has a score above the score
    of the best answer. *)
Lemma best_answer_highest_score (valid : list answer) (a : answer) :
  a ∈ valid → ltb (score (best_answer zero ltb valid)) (score a) = false.
Proof.
  intros Ha. destruct valid as [|a0 valid]; [by apply elem_of_nil in Ha|].
  unfold best_answer, sorted_reverse.
  pose proof (sort_by_score_sorted (rev (a0 :: valid))) as Hs.
  pose proof (sort_by_score_perm ltb (rev (a0 :: valid))) as Hp.
  destruct (sort_by_score ltb (rev (a0 :: valid))) as [|c l _] eqn:Hsort
    using rev_ind.
  - rewrite <-Permutation_rev in Hp. by apply Permutation_nil_cons in Hp.
  - rewrite rev_app_distr. cbn. apply (sorted_last_max l c Hs).
    by rewrite Hp, <-Permutation_rev.
Qed.
End BestAnswerMax.

(** ** The loop over the examples *)

Section ExamplesLoop.
Context {F : Type} (zero : F) (add : F → F → F) (ltb : F → F → bool).
Context (argsort : list F → list nat).
Context (prepared_dataset : list feature).
Context (all_start_logits all_end_logits : list (list F)).
Context (cls_token_index : Z).
Context (features_per_example : gmap nat (list nat)).

Abbreviation loop := (examples_loop zero add ltb argsort prepared_dataset
                    all_start_logits all_end_logits cls_token_index
                    features_per_example).
Abbreviation body := (postprocess_example zero add ltb argsort prepared_dataset
                    all_start_logits all_end_logits cls_token_index).

(** The loop returns one prediction per example, in the order of the
    dataset: the prediction at position [i] is the one that the body
    returns for example [i]. *)
Lemma examples_loop_Ok (dataset : list example) (i0 : nat)
    (preds : list prediction) :
  loop i0 dataset = Ok preds →
  length preds = length dataset
  ∧ ∀ i ex, dataset !! i = Some ex →
      ∃ p, preds !! i = Some p
           ∧ body ex (default [] (features_per_example !! (i0 + i)%nat))
             = Ok p.
Proof.
  revert i0 preds. induction dataset as [|ex dataset IH]; intros i0 preds H.
  - cbn in H. inv_result. split; [done|]. intros i ex. by rewrite lookup_nil.
  - cbn in H. apply bind_Ok in H as (p0 & Hp0 & H).
    apply bind_Ok in H as (ps & Hps & [= <-]).
    apply IH in Hps as [Hlen Hi]. split.
    + cbn. by rewrite Hlen.
    + intros [|i] ex' Hex; cbn in Hex.
      * injection Hex as <-. exists p0. by rewrite Nat.add_0_r.
      * destruct (Hi i ex' Hex) as (p & Hp & Hb). exists p.
        split; [done|]. by rewrite <-Nat.add_succ_comm.
Qed.

(** The loop fails only where the body fails. *)
Lemma examples_loop_is_Ok (dataset : list example) (i0 : nat) :
  (∀ i ex, dataset !! i = Some ex →
     is_Ok (body ex (default [] (features_per_example !! (i0 + i)%nat)))) →
  is_Ok (loop i0 dataset).
Proof.
  revert i0. induction dataset as [|ex dataset IH]; intros i0 H.
  - by exists [].
  - cbn. destruct (H 0%nat ex eq_refl) as [p Hp].
    rewrite Nat.add_0_r in Hp. rewrite Hp. cbn.
    destruct (IH (S i0)) as [ps Hps].
    + intros i ex' Hex. rewrite Nat.add_succ_comm. by apply (H (S i)).
    + rewrite Hps. by exists (p :: ps).
Qed.

Lemma examples_loop_ids (dataset : list example) (i0 : nat)
    (preds : list prediction) :
  loop i0 dataset = Ok preds → map pr_id preds = map ex_id dataset.
Proof.
  revert i0 preds. induction dataset as [|ex dataset IH]; intros i0 preds H.
  - cbn in H. by inv_result.
  - cbn in H. apply bind_Ok in H as (p0 & Hp0 & H).
    apply bind_Ok in H as (ps & Hps & [= <-]).
    cbn. f_equal; [|by eapply IH].
    unfold postprocess_example in Hp0.
    by apply bind_Ok in Hp0 as (st & _ & [= <-]).
Qed.

Lemma examples_loop_no_answer_probability (dataset : list example)
    (i0 : nat) (preds : list prediction) :
  loop i0 dataset = Ok preds →
  Forall (λ p, no_answer_probability p = zero) preds.
Proof.
  revert i0 preds. induction dataset as [|ex dataset IH]; intros i0 preds H.
  - cbn in H. inv_result. constructor.
  - cbn in H. apply bind_Ok in H as (p0 & Hp0 & H).
    apply bind_Ok in H as (ps & Hps & [= <-]).
    constructor; [|by eapply IH].
    unfold postprocess_example in Hp0.
    by apply bind_Ok in Hp0 as (st & _ & [= <-]).
Qed.
End ExamplesLoop.

(** ** The array of the logits *)

Lemma logits_array_Ok {F : Type} (predictions array : list (list (F * F))) :
  logits_array predictions = Ok array →
  array = predictions
  ∧ ∃ row rows, predictions = row :: rows ∧ row ≠ []
      ∧ Forall (λ r, length r = length row) rows.
Proof.
  unfold logits_array. destruct (rectangular predictions) eqn:Hr; [|done].
  destruct predictions as [|[|x row] rows]; [done..|].
  intros H. injection H as <-. split; [done|].
  exists (x :: row), rows. split_and!; [done..|].
  cbn in Hr. apply Forall_forall. intros r Hr'.
  apply list_elem_of_In in Hr'.
  rewrite forallb_forall in Hr. apply Hr in Hr'. by apply Nat.eqb_eq in Hr'.
Qed.

Lemma postprocess_predictions_Ok {F : Type} (zero : F) (add : F → F → F)
    (ltb : F → F → bool) (argsort : list F → list nat)
    (predictions : list (list (F * F))) (dataset : list example)
    (prepared_dataset : list feature) (cls_token_index : Z)
    (preds : list prediction) :
  postprocess_predictions zero add ltb argsort predictions dataset
    prepared_dataset cls_token_index = Ok preds →
  logits_array predictions = Ok predictions
  ∧ ∃ fpe,
      group_features (id_to_index_from 0 (map ex_id dataset) ∅) 0
        prepared_dataset ∅ = Ok fpe
      ∧ examples_loop zero add ltb argsort prepared_dataset
          (map (map fst) predictions) (map (map snd) predictions)
          cls_token_index fpe 0 dataset = Ok preds.
Proof.
  intros H. unfold postprocess_predictions in H.
  apply bind_Ok in H as (array & Harray & H).
  pose proof (logits_array_Ok _ _ Harray) as [-> _].
  split; [done|]. apply bind_Ok in H as (fpe & Hfpe & H). by exists fpe.
Qed.

Lemma postprocess_predictions_array {F : Type} (zero : F) (add : F → F → F)
    (ltb : F → F → bool) (argsort : list F → list nat)
    (predictions : list (list (F * F))) (dataset : list example)
    (prepared_dataset : list feature) (cls_token_index : Z) :
  logits_array predictions = Ok predictions →
  postprocess_predictions zero add ltb argsort predictions dataset
    prepared_dataset cls_token_index
  = (features_per_example ←
       group_features (id_to_index_from 0 (map ex_id dataset) ∅) 0
         prepared_dataset ∅;
     examples_loop zero add ltb argsort prepared_dataset
       (map (map fst) predictions) (map (map snd) predictions)
       cls_token_index features_per_example 0 dataset).
Proof. intros H. unfold postprocess_predictions. by rewrite H. Qed.

(** ** The final decision *)

(** C2.  On scores whose [<] is a strict weak order (the floats of the
    logits, none of them a NaN): when the features of an example have been
    scanned, leaving the reference score [min_null] and the candidates
    [valid], the best candidate is one of the candidates and none of them
    has a score above its score, and the example gets a prediction whose
    text is the text of the best candidate if the score of the best
    candidate exceeds [min_null], which is the case exactly when some
    candidate has a score above [min_null], and the empty string otherwise:
    in particular when no candidate survived (the best candidate is then
    the fake one, with the empty text and the score 0.0) and when no
    candidate has a score above [min_null].  Every prediction that
    [postprocess_predictions] returns has [no_answer_probability] 0.0. *)
Theorem null_answer_decision {F : Type} (zero : F) (add : F → F → F)
    (ltb : F → F → bool) (argsort : list F → list nat)
    (prepared_dataset : list feature)
    (all_start_logits all_end_logits : list (list F)) (cls_token_index : Z)
    (ex : example) (feature_indices : list nat)
    (min_null : F) (valid : list answer) :
  (∀ x y, ltb x y = true → ltb y x = false) →
  (∀ x y z, ltb x z = true → ltb x y = true ∨ ltb y z = true) →
  scan_features zero add ltb argsort prepared_dataset all_start_logits
    all_end_logits cls_token_index (ex_context ex) feature_indices
  = Ok (min_null, valid) →
  let best := best_answer zero ltb valid in
  ∃ p, postprocess_example zero add ltb argsort prepared_dataset
         all_start_logits all_end_logits cls_token_index ex feature_indices
       = Ok p
    ∧ pr_id p = ex_id ex
    ∧ no_answer_probability p = zero
    ∧ (valid ≠ [] →
       best ∈ valid ∧ ∀ a, a ∈ valid → ltb (score best) (score a) = false)
    ∧ (ltb min_null (score best) = false → prediction_text p = "")
    ∧ (ltb min_null (score best) = true → prediction_text p = text best)
    ∧ (valid = [] → best = fake_prediction zero ∧ prediction_text p = "")
    ∧ ((∀ a, a ∈ valid → ltb min_null (score a) = false) →
       prediction_text p = "")
    ∧ (∀ a, a ∈ valid → ltb min_null (score a) = true →
         ltb min_null (score best) = true ∧ prediction_text p = text best)
    ∧ (∀ predictions dataset preds,
         postprocess_predictions zero add ltb argsort predictions dataset
           prepared_dataset cls_token_index = Ok preds →
         Forall (λ q, no_answer_probability q = zero) preds).
Proof.
  intros Hasym Hcotrans Hscan best. unfold postprocess_example.
  rewrite Hscan. cbn.
  eexists. split; [reflexivity|]. cbn. fold best.
  assert (valid = [] → best = fake_prediction zero) as Hnil
    by (by intros ->).
  assert (∀ a, a ∈ valid → ltb (score best) (score a) = false) as Hmax
    by (intros a Ha; by apply best_answer_highest_score).
  unfold final_text. split_and!.
  - done.
  - done.
  - intros Hne. split; [by apply best_answer_elem|done].
  - by intros ->.
  - by intros ->.
  - intros Hv. split; [auto|]. subst valid. by destruct (ltb _ _).
  - intros Hall. destruct (decide (valid = [])) as [->|Hne].
    + by destruct (ltb _ _).
    + by rewrite (Hall best (best_answer_elem zero ltb valid Hne)).
  - intros a Ha Hlt.
    destruct (Hcotrans _ (score best) _ Hlt) as [H|H].
    + by rewrite H.
    + by rewrite (Hmax a Ha) in H.
  - intros predictions dataset preds H.
    apply postprocess_predictions_Ok in H as (_ & fpe & _ & H).
    by eapply examples_loop_no_answer_probability.
Qed.

Lemma null_answer_decision_witness :
  ∃ p, postprocess_example 0 Z.add Z.ltb IntLogits.argsort [Sample.ft_paris]
         [[0; 1; 5]] [[0; 1; 5]] 101 Sample.ex_paris [0%nat] = Ok p
       ∧ prediction_text p = "Paris".
Proof.
  destruct (null_answer_decision 0 Z.add Z.ltb IntLogits.argsort
              [Sample.ft_paris] [[0; 1; 5]] [[0; 1; 5]] 101 Sample.ex_paris
              [0%nat] 0
              [{| score := 10; text := "Paris" |};
               {| score := 6; text := "" |}; {| score := 2; text := "" |};
               {| score := 5; text := "" |}; {| score := 1; text := "" |};
               {| score := 0; text := "" |}])
    as (p & Hp & _ & _ & _ & _ & Htext & _).
  - intros x y. rewrite Z.ltb_lt, Z.ltb_ge. lia.
  - intros x y z. rewrite !Z.ltb_lt. lia.
  - vm_compute. reflexivity.
  - exists p. split; [exact Hp|]. rewrite Htext; vm_compute; reflexivity.
Defined.

(** ** Predictions and labels *)

(** C5.  When [postprocess_predictions] returns, its predictions and the
    labels of [postprocess_labels] for the same dataset are lists of the
    same length, and at every position the prediction and the label carry
    the id of the example at that position. *)
Theorem predictions_and_labels_share_ids {F : Type} (zero : F)
    (add : F → F → F) (ltb : F → F → bool) (argsort : list F → list nat)
    (predictions : list (list (F * F))) (dataset : list example)
    (prepared_dataset : list feature) (cls_token_index : Z)
    (preds : list prediction) :
  postprocess_predictions zero add ltb argsort predictions dataset
    prepared_dataset cls_token_index = Ok preds →
  length preds = length (postprocess_labels dataset)
  ∧ map pr_id preds = map lb_id (postprocess_labels dataset)
  ∧ ∀ i p l, preds !! i = Some p → postprocess_labels dataset !! i = Some l →
      ∃ ex, dataset !! i = Some ex ∧ pr_id p = ex_id ex ∧ lb_id l = ex_id ex.
Proof.
  intros H. apply postprocess_predictions_Ok in H as (_ & fpe & _ & H).
  pose proof (examples_loop_ids _ _ _ _ _ _ _ _ _ _ _ _ H) as Hids.
  assert (map lb_id (postprocess_labels dataset) = map ex_id dataset) as Hl.
  { unfold postprocess_labels. rewrite map_map. done. }
  split; [|split].
  - rewrite <-(length_map pr_id), Hids, <-Hl. by rewrite length_map.
  - by rewrite Hl.
  - intros i p l Hp Hlab.
    assert (map pr_id preds !! i = Some (pr_id p)) as Hpi
      by (by rewrite list_lookup_fmap, Hp).
    assert (map lb_id (postprocess_labels dataset) !! i = Some (lb_id l))
      as Hli by (by rewrite list_lookup_fmap, Hlab).
    rewrite Hids in Hpi. rewrite Hl in Hli.
    rewrite list_lookup_fmap in Hpi.
    destruct (dataset !! i) as [ex|] eqn:Hex; [|done].
    exists ex. cbn in Hpi. injection Hpi as Hpi.
    rewrite list_lookup_fmap, Hex in Hli. injection Hli as Hli. done.
Qed.

Lemma predictions_and_labels_share_ids_witness :
  map pr_id [{| pr_id := "q1"; prediction_text := "Paris";
                no_answer_probability := 0 |}]
  = map lb_id (postprocess_labels [Sample.ex_paris]).
Proof.
  apply (predictions_and_labels_share_ids 0 Z.add Z.ltb IntLogits.argsort
           [[(0, 0); (1, 1); (5, 5)]] [Sample.ex_paris] [Sample.ft_paris]
           101).
  vm_compute. reflexivity.
Defined.

(** ** The null-answer reference score *)

Section NullScore.
Context {F : Type} (zero : F) (add : F → F → F) (ltb : F → F → bool).
Context (argsort : list F → list nat).
Context (prepared_dataset : list feature).
Context (all_start_logits all_end_logits : list (list F)).
Context (cls_token_index : Z) (context : string).

Abbreviation null_score :=
  (null_score_of add prepared_dataset all_start_logits all_end_logits
     cls_token_index).
Abbreviation feature_step :=
  (process_feature add ltb argsort prepared_dataset all_start_logits
     all_end_logits cls_token_index context).

(** A feature that is processed replaces the reference score by its null
    score exactly when the reference score is smaller. *)
Lemma process_feature_min_null (fi : nat) (st st' : F * list answer) :
  feature_step fi st = Ok st' →
  ∃ n, null_score fi = Ok n ∧ st'.1 = if ltb st.1 n then n else st.1.
Proof.
  unfold process_feature, null_score_of. intros H.
  apply bind_Ok in H as (f & -> & H). apply bind_Ok in H as (sl & -> & H).
  apply bind_Ok in H as (el & -> & H). apply bind_Ok in H as (n & Hn & H).
  apply bind_Ok in H as (va & _ & [= <-]). exists n. by cbn.
Qed.

(** A feature whose null score cannot be computed stops the run. *)
Lemma process_feature_null_score_Raise (fi : nat) (st : F * list answer)
    (e : exn) :
  null_score fi = Raise e → feature_step fi st = Raise e.
Proof.
  unfold process_feature, null_score_of. intros H.
  destruct (getitem prepared_dataset fi) as [f|]; cbn in *; [|by injection H as ->].
  destruct (getitem all_start_logits fi) as [sl|]; cbn in *; [|by injection H as ->].
  destruct (getitem all_end_logits fi) as [el|]; cbn in *; [|by injection H as ->].
  by rewrite H.
Qed.

Hypothesis ltb_asym : ∀ x y, ltb x y = true → ltb y x = false.
Hypothesis ltb_cotrans :
  ∀ x y z, ltb x z = true → ltb x y = true ∨ ltb y z = true.

Lemma ltb_irrefl (x : F) : ltb x x = false.
Proof.
  destruct (ltb x x) eqn:H; [|done]. by rewrite (ltb_asym x x H) in H.
Qed.

Lemma scan_from_max (fis : list nat) (st st' : F * list answer) :
  for_each feature_step fis st = Ok st' →
  ∃ nulls, Forall2 (λ fi n, null_score fi = Ok n) fis nulls
    ∧ st'.1 ∈ st.1 :: nulls
    ∧ ∀ x, x ∈ st.1 :: nulls → ltb st'.1 x = false.
Proof.
  revert st. induction fis as [|fi fis IH]; intros st H; cbn in H.
  - injection H as <-. exists []. split_and!; [constructor|by left|].
    intros x Hx. apply list_elem_of_singleton in Hx as ->. apply ltb_irrefl.
  - apply bind_Ok in H as (st1 & H1 & H).
    apply process_feature_min_null in H1 as (n & Hn & Hst1).
    apply IH in H as (nulls & Hnulls & Hmem & Hmax).
    exists (n :: nulls). split_and!; [by constructor| |].
    + rewrite Hst1 in Hmem. rewrite !elem_of_cons in *.
      destruct (ltb st.1 n); tauto.
    + assert (ltb st'.1 st1.1 = false) as Hle by (apply Hmax; by left).
      intros x Hx. rewrite !elem_of_cons in Hx.
      destruct Hx as [->|[->|Hx]]; [| |apply Hmax; by right].
      * rewrite Hst1 in Hle. destruct (ltb st.1 n) eqn:Hlt; [|done].
        destruct (ltb st'.1 st.1) eqn:Hx; [|done].
        destruct (ltb_cotrans _ n _ Hx) as [Hc|Hc]; [congruence|].
        by rewrite (ltb_asym _ _ Hlt) in Hc.
      * rewrite Hst1 in Hle. destruct (ltb st.1 n) eqn:Hlt; [done|].
        destruct (ltb st'.1 n) eqn:Hx; [|done].
        destruct (ltb_cotrans _ st.1 _ Hx) as [Hc|Hc]; congruence.
Qed.
End NullScore.

(** C3.  On scores whose [<] is a strict weak order, the reference score
    with which the final decision for an example is taken is the maximum
    of 0.0 and of the null scores
    [start_logits[cls_index] + end_logits[cls_index]] of the features of
    the example: it is one of these scores and none of them is above it; in
    particular it is not below 0.0. *)
Theorem null_reference_is_maximum {F : Type} (zero : F) (add : F → F → F)
    (ltb : F → F → bool) (argsort : list F → list nat)
    (prepared_dataset : list feature)
    (all_start_logits all_end_logits : list (list F)) (cls_token_index : Z)
    (ex : example) (feature_indices : list nat)
    (min_null : F) (valid : list answer) :
  (∀ x y, ltb x y = true → ltb y x = false) →
  (∀ x y z, ltb x z = true → ltb x y = true ∨ ltb y z = true) →
  scan_features zero add ltb argsort prepared_dataset all_start_logits
    all_end_logits cls_token_index (ex_context ex) feature_indices
  = Ok (min_null, valid) →
  postprocess_example zero add ltb argsort prepared_dataset all_start_logits
    all_end_logits cls_token_index ex feature_indices
  = Ok {| pr_id := ex_id ex;
          prediction_text := final_text ltb (best_answer zero ltb valid)
                               min_null;
          no_answer_probability := zero |}
  ∧ ∃ nulls,
      Forall2 (λ fi n,
                 ∃ features start_logits end_logits cls_index x y,
                   prepared_dataset !! fi = Some features
                   ∧ all_start_logits !! fi = Some start_logits
                   ∧ all_end_logits !! fi = Some end_logits
                   ∧ list_index cls_token_index (ft_input_ids features)
                     = Ok cls_index
                   ∧ start_logits !! cls_index = Some x
                   ∧ end_logits !! cls_index = Some y
                   ∧ n = add x y)
              feature_indices nulls
      ∧ min_null ∈ zero :: nulls
      ∧ (∀ x, x ∈ zero :: nulls → ltb min_null x = false)
      ∧ ltb min_null zero = false.
Proof.
  intros Hasym Hcotrans Hscan. split.
  { unfold postprocess_example. by rewrite Hscan. }
  unfold scan_features in Hscan.
  apply scan_from_max in Hscan as (nulls & Hnulls & Hmem & Hmax); [|done..].
  exists nulls. split_and!; [|done|done|apply Hmax; by left].
  eapply Forall2_impl; [exact Hnulls|]. cbn. intros fi n H.
  unfold null_score_of, feature_null_score in H.
  apply bind_Ok in H as (f & Hf & H). apply bind_Ok in H as (sl & Hsl & H).
  apply bind_Ok in H as (el & Hel & H). apply bind_Ok in H as (ci & Hci & H).
  apply bind_Ok in H as (x & Hx & H). apply bind_Ok in H as (y & Hy & [= <-]).
  apply getitem_Ok in Hf, Hsl, Hel, Hx, Hy.
  by exists f, sl, el, ci, x, y.
Qed.

Lemma null_reference_is_maximum_witness :
  postprocess_example 0 Z.add Z.ltb IntLogits.argsort
    [Sample.ft_first; Sample.ft_second] [[-2; 1]; [3; 4]] [[-1; 1]; [1; 2]]
    101 Sample.ex_paris [0%nat; 1%nat]
  = Ok {| pr_id := "q1"; prediction_text := "is";
          no_answer_probability := 0 |}
  ∧ ∃ nulls, 4 ∈ 0 :: nulls ∧ ∀ x, x ∈ 0 :: nulls → (4 <? x) = false.
Proof.
  destruct (null_reference_is_maximum 0 Z.add Z.ltb IntLogits.argsort
              [Sample.ft_first; Sample.ft_second] [[-2; 1]; [3; 4]]
              [[-1; 1]; [1; 2]] 101 Sample.ex_paris [0%nat; 1%nat] 4
              [{| score := 2; text := "Paris" |};
               {| score := -1; text := "" |}; {| score := -3; text := "" |};
               {| score := 6; text := "is" |}; {| score := 5; text := "" |};
               {| score := 4; text := "" |}])
    as (Hp & nulls & _ & Hmem & Hmax & _).
  - intros x y. rewrite Z.ltb_lt, Z.ltb_ge. lia.
  - intros x y z. rewrite !Z.ltb_lt. lia.
  - vm_compute. reflexivity.
  - split; [exact Hp|]. by exists nulls.
Defined.

(** ** The map from an example to its features *)

Lemma id_to_index_from_Some (ids : list string) (i : nat)
    (m : gmap string nat) (k : string) (j : nat) :
  id_to_index_from i ids m !! k = Some j →
  m !! k = Some j ∨ (i ≤ j)%nat ∧ ids !! (j - i)%nat = Some k.
Proof.
  revert i m. induction ids as [|k' ids IH]; intros i m H; cbn in H.
  - by left.
  - apply IH in H as [H|[Hle H]].
    + destruct (decide (k' = k)) as [->|Hne].
      * rewrite lookup_insert_eq in H. injection H as <-.
        right. split; [lia|]. by rewrite Nat.sub_diag.
      * rewrite lookup_insert_ne in H by done. by left.
    + right. split; [lia|].
      replace (j - i)%nat with (S (j - S i)) by lia. done.
Qed.

(** An index of [id_to_index] is the position of an example with that
    id. *)
Lemma id_to_index_example (dataset : list example) (k : string) (j : nat) :
  id_to_index_from 0 (map ex_id dataset) ∅ !! k = Some j →
  ∃ ex, dataset !! j = Some ex ∧ ex_id ex = k.
Proof.
  intros H. apply id_to_index_from_Some in H as [H|[_ H]]; [done|].
  rewrite Nat.sub_0_r, list_lookup_fmap in H.
  destruct (dataset !! j) as [ex|]; [|done]. injection H as H. by exists ex.
Qed.

Section GroupFeatures.
Context (id_to_index : gmap string nat).

(** The feature indices recorded for an example are those that were
    recorded before and the indices of the features whose id is mapped to
    the example. *)
Lemma group_features_elem (prepared : list feature) (i : nat)
    (fpe fpe' : gmap nat (list nat)) (example_index fi : nat) :
  group_features id_to_index i prepared fpe = Ok fpe' →
  fi ∈ default [] (fpe' !! example_index)
  ↔ fi ∈ default [] (fpe !! example_index)
    ∨ ∃ f, (i ≤ fi)%nat ∧ prepared !! (fi - i)%nat = Some f
           ∧ id_to_index !! ft_id f = Some example_index.
Proof.
  revert i fpe. induction prepared as [|f prepared IH]; intros i fpe H.
  - cbn in H. injection H as <-. split; [by left|].
    intros [H|(f & _ & H & _)]; [done|by rewrite lookup_nil in H].
  - cbn in H. destruct (id_to_index !! ft_id f) as [exi|] eqn:Hf; [|done].
    rewrite (IH _ _ H). clear IH H.
    destruct (decide (exi = example_index)) as [->|Hne].
    + rewrite lookup_insert_eq. cbn. rewrite elem_of_app, list_elem_of_singleton.
      split.
      * intros [[H| ->]|(f' & Hle & H & Hid)]; [by left|..].
        -- right. exists f. split; [lia|]. by rewrite Nat.sub_diag.
        -- right. exists f'. split; [lia|].
           replace (fi - i)%nat with (S (fi - S i)) by lia. done.
      * intros [H|(f' & Hle & H & Hid)]; [by left; left|].
        destruct (decide (fi = i)) as [->|Hne]; [by left; right|].
        right. exists f'. split; [lia|].
        replace (fi - i)%nat with (S (fi - S i)) in H by lia. done.
    + rewrite lookup_insert_ne by done. split.
      * intros [H|(f' & Hle & H & Hid)]; [by left|].
        right. exists f'. split; [lia|].
        replace (fi - i)%nat with (S (fi - S i)) by lia. done.
      * intros [H|(f' & Hle & H & Hid)]; [by left|].
        destruct (decide (fi = i)) as [->|Hne'].
        -- rewrite Nat.sub_diag in H. cbn in H. injection H as <-. congruence.
        -- right. exists f'. split; [lia|].
           replace (fi - i)%nat with (S (fi - S i)) in H by lia. done.
Qed.

(** The loop returns when, and only when, the id of every feature is a key
    of [id_to_index]. *)
Lemma group_features_Ok (prepared : list feature) (i : nat)
    (fpe fpe' : gmap nat (list nat)) (f : feature) :
  group_features id_to_index i prepared fpe = Ok fpe' →
  f ∈ prepared → is_Some (id_to_index !! ft_id f).
Proof.
  revert i fpe. induction prepared as [|f' prepared IH]; intros i fpe H Hf.
  - by apply elem_of_nil in Hf.
  - cbn in H. destruct (id_to_index !! ft_id f') as [exi|] eqn:Hf'; [|done].
    apply elem_of_cons in Hf as [->|Hf]; [by rewrite Hf'|by eapply IH].
Qed.

Lemma group_features_is_Ok (prepared : list feature) (i : nat)
    (fpe : gmap nat (list nat)) :
  (∀ f, f ∈ prepared → is_Some (id_to_index !! ft_id f)) →
  is_Ok (group_features id_to_index i prepared fpe).
Proof.
  revert i fpe. induction prepared as [|f prepared IH]; intros i fpe H.
  - by eexists.
  - cbn. destruct (H f) as [exi ->]; [by left|].
    apply IH. intros f' Hf'. apply H. by right.
Qed.
End GroupFeatures.

(** ** A feature without the classifier token *)

Lemma list_index_not_elem (x : Z) (l : list Z) :
  x ∉ l → list_index x l = Raise ValueError.
Proof.
  induction l as [|y l IH]; intros Hx; cbn; [done|].
  rewrite not_elem_of_cons in Hx. destruct Hx as [Hne Hx].
  destruct (decide (y = x)); [done|]. by rewrite IH.
Qed.

Lemma list_index_Ok (x : Z) (l : list Z) (i : nat) :
  list_index x l = Ok i → l !! i = Some x.
Proof.
  revert i. induction l as [|y l IH]; intros i H; cbn in H; [done|].
  destruct (decide (y = x)) as [->|Hne]; [by injection H as <-|].
  apply fmap_Ok in H as (j & Hj & ->). by apply IH.
Qed.

Section Scan.
Context {F : Type} (zero : F) (add : F → F → F) (ltb : F → F → bool).
Context (argsort : list F → list nat).
Context (prepared_dataset : list feature).
Context (all_start_logits all_end_logits : list (list F)).
Context (cls_token_index : Z) (context : string).

(** The scan of the features of an example returns only if the null score
    of each of them can be computed. *)
Lemma for_each_process_feature_Ok (fis : list nat) (st st' : F * list answer)
    (fi : nat) :
  for_each
    (process_feature add ltb argsort prepared_dataset all_start_logits
       all_end_logits cls_token_index context) fis st = Ok st' →
  fi ∈ fis →
  is_Ok (null_score_of add prepared_dataset all_start_logits all_end_logits
           cls_token_index fi).
Proof.
  revert st. induction fis as [|fi' fis IH]; intros st H Hfi.
  - by apply elem_of_nil in Hfi.
  - cbn in H. apply bind_Ok in H as (st1 & H1 & H).
    apply elem_of_cons in Hfi as [->|Hfi]; [|by eapply IH].
    apply process_feature_min_null in H1 as (n & Hn & _). by exists n.
Qed.

Lemma null_score_of_missing_cls (fi : nat) (f : feature) :
  prepared_dataset !! fi = Some f →
  cls_token_index ∉ ft_input_ids f →
  is_Some (all_start_logits !! fi) → is_Some (all_end_logits !! fi) →
  null_score_of add prepared_dataset all_start_logits all_end_logits
    cls_token_index fi = Raise ValueError.
Proof.
  intros Hf Hcls [sl Hsl] [el Hel]. unfold null_score_of, getitem.
  rewrite Hf, Hsl, Hel. cbn. unfold feature_null_score.
  by rewrite list_index_not_elem.
Qed.

Lemma null_score_of_missing_cls_not_Ok (fi : nat) (f : feature) :
  prepared_dataset !! fi = Some f →
  cls_token_index ∉ ft_input_ids f →
  ¬ is_Ok (null_score_of add prepared_dataset all_start_logits
             all_end_logits cls_token_index fi).
Proof.
  intros Hf Hcls [n H]. unfold null_score_of in H.
  apply bind_Ok in H as (f' & Hf' & H). apply getitem_Ok in Hf'.
  assert (f' = f) as -> by congruence.
  apply bind_Ok in H as (sl & _ & H). apply bind_Ok in H as (el & _ & H).
  unfold feature_null_score in H. by rewrite list_index_not_elem in H.
Qed.
End Scan.

(** C8.  A feature of the prepared dataset whose [input_ids] do not contain
    the classifier token is fatal: processing it raises [ValueError] (when
    the model returned logits for it), and [postprocess_predictions] on a
    prepared dataset with such a feature raises an exception, whatever the
    predictions and the dataset; it never returns predictions. *)
Theorem missing_cls_token_is_fatal {F : Type} (zero : F) (add : F → F → F)
    (ltb : F → F → bool) (argsort : list F → list nat)
    (prepared_dataset : list feature) (cls_token_index : Z)
    (feature_index : nat) (features : feature) :
  prepared_dataset !! feature_index = Some features →
  cls_token_index ∉ ft_input_ids features →
  (∀ all_start_logits all_end_logits context st,
     is_Some (all_start_logits !! feature_index) →
     is_Some (all_end_logits !! feature_index) →
     process_feature add ltb argsort prepared_dataset all_start_logits
       all_end_logits cls_token_index context feature_index st
     = Raise ValueError)
  ∧ (∀ predictions dataset,
       ∃ e, postprocess_predictions zero add ltb argsort predictions dataset
              prepared_dataset cls_token_index = Raise e).
Proof.
  intros Hf Hcls. split.
  - intros all_start all_end context st Hs He.
    apply process_feature_null_score_Raise.
    by eapply null_score_of_missing_cls.
  - intros predictions dataset.
    destruct (postprocess_predictions _ _ _ _ _ _ _ _) as [preds|e] eqn:H;
      [exfalso|by exists e].
    apply postprocess_predictions_Ok in H as (_ & fpe & Hfpe & H).
    destruct (group_features_Ok _ _ _ _ _ features Hfpe) as [exi Hexi].
    { by eapply list_elem_of_lookup_2. }
    destruct (id_to_index_example _ _ _ Hexi) as (ex & Hex & _).
    apply examples_loop_Ok in H as [_ H].
    destruct (H _ _ Hex) as (p & _ & Hp). cbn in Hp.
    unfold postprocess_example in Hp. apply bind_Ok in Hp as (st & Hst & _).
    eapply null_score_of_missing_cls_not_Ok; [exact Hf|exact Hcls|].
    eapply for_each_process_feature_Ok; [exact Hst|].
    apply (group_features_elem _ _ _ _ _ exi feature_index Hfpe).
    right. exists features. split; [lia|]. by rewrite Nat.sub_0_r.
Qed.

Lemma missing_cls_token_is_fatal_witness :
  ∃ e, IntLogits.postprocess_predictions [[(0, 0); (5, 5)]]
         [Sample.ex_paris] [Sample.ft_no_cls] 101 = Raise e.
Proof.
  apply (missing_cls_token_is_fatal 0 Z.add Z.ltb IntLogits.argsort
           [Sample.ft_no_cls] 101 0 Sample.ft_no_cls).
  - reflexivity.
  - apply (bool_decide_unpack (101 ∉ [7; 8])). vm_compute. exact I.
Defined.

(** ** An example without features *)

(** C10.  An example whose id is the id of no feature of the prepared
    dataset does not by itself make [postprocess_predictions] fail: the
    list of its feature indices is empty, the body of the loop returns for
    it the prediction with the empty text and [no_answer_probability] 0.0,
    and the run returns whenever the predictions make an array of three
    dimensions, the features are grouped and the body returns for the
    other examples.  When the run returns, there is one prediction per
    example, in the order of the dataset, and the prediction of this
    example is the one above.  Without any prediction the run raises
    [IndexError], whatever the dataset. *)
Theorem example_without_features {F : Type} (zero : F) (add : F → F → F)
    (ltb : F → F → bool) (argsort : list F → list nat)
    (predictions : list (list (F * F))) (dataset : list example)
    (prepared_dataset : list feature) (cls_token_index : Z)
    (i : nat) (ex : example) :
  dataset !! i = Some ex →
  (∀ f, f ∈ prepared_dataset → ft_id f ≠ ex_id ex) →
  let all_start_logits := map (map fst) predictions in
  let all_end_logits := map (map snd) predictions in
  let empty_prediction :=
    {| pr_id := ex_id ex; prediction_text := "";
       no_answer_probability := zero |} in
  let body := postprocess_example zero add ltb argsort prepared_dataset
                all_start_logits all_end_logits cls_token_index in
  let grouped :=
    group_features (id_to_index_from 0 (map ex_id dataset) ∅) 0
      prepared_dataset ∅ in
  let run := postprocess_predictions zero add ltb argsort predictions
               dataset prepared_dataset cls_token_index in
  (∀ fpe, grouped = Ok fpe →
     default [] (fpe !! i) = [] ∧ body ex (default [] (fpe !! i))
                                  = Ok empty_prediction)
  ∧ (∀ fpe, logits_array predictions = Ok predictions →
       grouped = Ok fpe →
       (∀ j ex', j ≠ i → dataset !! j = Some ex' →
          is_Ok (body ex' (default [] (fpe !! j)))) →
       is_Ok run)
  ∧ (∀ preds, run = Ok preds →
       length preds = length dataset
       ∧ map pr_id preds = map ex_id dataset
       ∧ preds !! i = Some empty_prediction)
  ∧ (predictions = [] → run = Raise IndexError).
Proof.
  intros Hex Hnone all_start all_end empty_prediction body grouped run.
  assert (∀ fpe, grouped = Ok fpe → default [] (fpe !! i) = []) as Hempty.
  { intros fpe Hfpe. apply elem_of_nil_inv. intros fi Hfi.
    apply (group_features_elem _ _ _ _ _ _ _ Hfpe) in Hfi
      as [Hfi|(f & _ & Hf & Hid)].
    - rewrite lookup_empty in Hfi. by apply elem_of_nil in Hfi.
    - apply id_to_index_example in Hid as (ex' & Hex' & Hid).
      assert (ex' = ex) as -> by congruence.
      apply (Hnone f); [by eapply list_elem_of_lookup_2|done]. }
  assert (body ex [] = Ok empty_prediction) as Hbody.
  { unfold body, postprocess_example, empty_prediction, final_text. cbn.
    by destruct (ltb zero zero). }
  split_and!.
  - intros fpe Hfpe. rewrite (Hempty fpe Hfpe). done.
  - intros fpe Harray Hfpe Hothers. unfold run.
    rewrite (postprocess_predictions_array _ _ _ _ _ _ _ _ Harray).
    fold grouped. rewrite Hfpe. cbn. apply examples_loop_is_Ok.
    intros j ex' Hex'. cbn. destruct (decide (j = i)) as [->|Hne].
    + assert (ex' = ex) as -> by congruence.
      rewrite (Hempty fpe Hfpe). by eexists.
    + by apply Hothers.
  - intros preds Hrun. unfold run in Hrun.
    apply postprocess_predictions_Ok in Hrun as (_ & fpe & Hfpe & Hloop).
    pose proof (examples_loop_ids _ _ _ _ _ _ _ _ _ _ _ _ Hloop) as Hids.
    apply examples_loop_Ok in Hloop as [Hlen Hloop].
    split_and!; [done..|].
    destruct (Hloop i ex Hex) as (p & Hp & Hb). cbn in Hb.
    rewrite (Hempty fpe Hfpe) in Hb. fold all_start all_end body in Hb.
    rewrite Hbody in Hb. by injection Hb as <-.
  - intros Hnil. unfold run. by rewrite Hnil.
Qed.

Lemma example_without_features_witness :
  ∃ preds,
    IntLogits.postprocess_predictions [[(0, 0); (1, 1); (5, 5)]]
      [Sample.ex_nobody; Sample.ex_paris] [Sample.ft_paris] 101 = Ok preds
    ∧ preds !! 0%nat = Some {| pr_id := "q0"; prediction_text := "";
                               no_answer_probability := 0 |}.
Proof.
  eexists. split; [vm_compute; reflexivity|].
  apply (example_without_features 0 Z.add Z.ltb IntLogits.argsort
           [[(0, 0); (1, 1); (5, 5)]] [Sample.ex_nobody; Sample.ex_paris]
           [Sample.ft_paris] 101 0 Sample.ex_nobody).
  - reflexivity.
  - intros f Hf. apply list_elem_of_singleton in Hf as ->. discriminate.
  - vm_compute. reflexivity.
Defined.

(** C10, as the claim has it, fails: the only example of the dataset below
    has no feature, the model was given no feature and returned no
    prediction, and the indexing of the empty array raises [IndexError]. *)
Lemma example_without_features_can_fail :
  [Sample.ex_nobody] !! 0%nat = Some Sample.ex_nobody
  ∧ filter (λ f, ft_id f = ex_id Sample.ex_nobody) ([] : list feature) = []
  ∧ IntLogits.postprocess_predictions [] [Sample.ex_nobody] [] 101
    = Raise IndexError.
Proof. split_and!; reflexivity. Qed.

(** ** The offsets of the windows *)

Lemma mask_offsets_Ok (sequence_ids : list (option Z)) (k : nat)
    (offsets masked : list (Z * Z)) :
  mask_offsets sequence_ids k offsets = Ok masked →
  length masked = length offsets
  ∧ ∀ j o, offsets !! j = Some o →
      ∃ sid, sequence_ids !! (k + j)%nat = Some sid
             ∧ masked !! j
               = Some (if bool_decide (sid = Some context_index) then o
                       else SENTINEL).
Proof.
  revert k masked. induction offsets as [|o offsets IH]; intros k masked H.
  - cbn in H. injection H as <-. split; [done|]. intros j o'.
    by rewrite lookup_nil.
  - cbn in H. apply bind_Ok in H as (sid & Hsid & H).
    apply bind_Ok in H as (rest & Hrest & [= <-]).
    apply getitem_Ok in Hsid. apply IH in Hrest as [Hlen Hrest].
    split; [cbn; by rewrite Hlen|]. intros [|j] o' Ho'; cbn in Ho'.
    + injection Ho' as <-. exists sid. by rewrite Nat.add_0_r.
    + destruct (Hrest j o' Ho') as (sid' & Hsid' & Hj). exists sid'.
      by rewrite <-Nat.add_succ_comm.
Qed.

Section Windows.
Context (ids : list string) (tk : tokenized).

(** The loop over the windows [a], ..., [a + n - 1] rewrites the offsets of
    these windows and leaves the others as they were. *)
Lemma prepare_windows_Ok (n a : nat)
    (st st' : list string * list (list (Z * Z))) :
  for_each (prepare_window ids tk) (seq a n) st = Ok st' →
  length st'.2 = length st.2
  ∧ (∀ i, (i < a ∨ a + n ≤ i)%nat → st'.2 !! i = st.2 !! i)
  ∧ ∀ i, (a ≤ i < a + n)%nat →
      ∃ sequence_ids offsets masked,
        tk_sequence_ids tk !! i = Some sequence_ids
        ∧ st.2 !! i = Some offsets
        ∧ mask_offsets sequence_ids 0 offsets = Ok masked
        ∧ st'.2 !! i = Some masked.
Proof.
  revert a st. induction n as [|n IH]; intros a st H; cbn in H.
  - injection H as <-. split_and!; [done|done|]. intros i Hi. lia.
  - apply bind_Ok in H as (st1 & H1 & H).
    apply IH in H as (Hlen & Hout & Hin).
    unfold prepare_window in H1.
    apply bind_Ok in H1 as (sids & Hsids & H1).
    apply bind_Ok in H1 as (sample_index & _ & H1).
    apply bind_Ok in H1 as (id & _ & H1).
    apply bind_Ok in H1 as (offsets & Hoffsets & H1).
    apply bind_Ok in H1 as (masked & Hmasked & [= <-]).
    apply getitem_Ok in Hsids, Hoffsets. cbn in Hlen, Hout, Hin.
    rewrite length_insert in Hlen. split_and!; [done| |].
    + intros i Hi. rewrite Hout by lia. cbn.
      apply list_lookup_insert_ne. lia.
    + intros i Hi. destruct (decide (i = a)) as [->|Hne].
      * exists sids, offsets, masked. split_and!; [done..|].
        rewrite Hout by lia. apply list_lookup_insert_eq.
        by eapply lookup_lt_Some.
      * destruct (Hin i) as (sids' & offsets' & masked' & ? & Hi' & ? & ?);
          [lia|].
        exists sids', offsets', masked'. split_and!; [done| |done..].
        by rewrite list_lookup_insert_ne in Hi' by lia.
Qed.
End Windows.

(** C4.  When [prepare_test_examples] returns, for every window that the
    tokenizer emitted and every position of the window, the entry of the
    offset mapping at that position is the SENTINEL (-1, -1) if the
    position is not in the context (its sequence id is not 1: a question
    token, a special token or padding), and is the entry that the tokenizer
    returned if it is in the context. *)
Theorem offsets_outside_context_are_sentinel (model_max_length : Z)
    (tokenizer : list string → list string → Z → Z → tokenized)
    (examples : list example) (out : prepared) :
  prepare_test_examples model_max_length tokenizer examples = Ok out →
  let stride := model_max_length `div` 4 in
  let tk := tokenizer (map (λ ex, lstrip (ex_question ex)) examples)
              (map ex_context examples) (model_max_length - stride) stride in
  pp_input_ids out = tk_input_ids tk
  ∧ length (pp_offset_mapping out) = length (tk_offset_mapping tk)
  ∧ ∀ i window, tk_input_ids tk !! i = Some window →
      ∃ sequence_ids offsets masked,
        tk_sequence_ids tk !! i = Some sequence_ids
        ∧ tk_offset_mapping tk !! i = Some offsets
        ∧ pp_offset_mapping out !! i = Some masked
        ∧ length masked = length offsets
        ∧ ∀ k o, offsets !! k = Some o →
            ∃ sid, sequence_ids !! k = Some sid
              ∧ (sid ≠ Some context_index → masked !! k = Some SENTINEL)
              ∧ (sid = Some context_index → masked !! k = Some o).
Proof.
  intros H stride tk. unfold prepare_test_examples in H.
  fold stride tk in H. apply bind_Ok in H as (st & Hst & [= <-]). cbn.
  apply prepare_windows_Ok in Hst as (Hlen & _ & Hin). cbn in Hlen, Hin.
  split_and!; [done..|]. intros i window Hi.
  destruct (Hin i) as (sids & offsets & masked & Hsids & Hoffs & Hmask & Hm).
  { apply lookup_lt_Some in Hi. lia. }
  apply mask_offsets_Ok in Hmask as [Hlenm Hmask].
  exists sids, offsets, masked. split_and!; [done..|].
  intros k o Ho. destruct (Hmask k o Ho) as (sid & Hsid & Hk). cbn in Hsid.
  exists sid. split_and!; [done| |]; intros Hc; rewrite Hk.
  - by rewrite bool_decide_eq_false_2.
  - by rewrite bool_decide_eq_true_2.
Qed.

Lemma offsets_outside_context_are_sentinel_witness :
  prepare_test_examples 8 Sample.tokenizer [Sample.ex_paris]
  = Ok {| pp_input_ids := [[101; 7; 102; 8; 102; 0]];
          pp_offset_mapping :=
            [[SENTINEL; SENTINEL; SENTINEL; (0, 5); SENTINEL; SENTINEL]];
          pp_id := ["q1"] |}
  ∧ pp_input_ids
      {| pp_input_ids := [[101; 7; 102; 8; 102; 0]];
         pp_offset_mapping :=
           [[SENTINEL; SENTINEL; SENTINEL; (0, 5); SENTINEL; SENTINEL]];
         pp_id := ["q1"] |}
    = tk_input_ids (Sample.tokenizer ["Which city?"] ["Paris is nice"] 6 2).
Proof.
  split; [reflexivity|].
  apply (offsets_outside_context_are_sentinel 8 Sample.tokenizer
           [Sample.ex_paris]).
  reflexivity.
Defined.

(** ** Label canonicalisation *)

Lemma lookup_labels_Ok (label2id : gmap string Z) (labels : list string)
    (ids : list Z) :
  lookup_labels label2id labels = Ok ids
  ↔ Forall2 (λ lbl i, label2id !! upper lbl = Some i) labels ids.
Proof.
  revert ids. induction labels as [|lbl labels IH]; intros ids; cbn.
  - split; [intros [= <-]; constructor|]. intros H. by inversion H.
  - destruct (label2id !! upper lbl) as [i|] eqn:Hlbl.
    + split.
      * intros H. apply bind_Ok in H as (ids' & H & [= <-]).
        constructor; [done|by apply IH].
      * intros H. inversion H as [|? i' ? ids' Hi Hrest]; subst.
        apply IH in Hrest. rewrite Hrest. cbn. congruence.
    + split; [done|]. intros H. inversion H; congruence.
Qed.

Lemma lookup_labels_Raise (label2id : gmap string Z) (labels : list string)
    (e : exn) :
  lookup_labels label2id labels = Raise e → e = KeyError.
Proof.
  induction labels as [|lbl labels IH]; cbn; [done|].
  destruct (label2id !! upper lbl); [|congruence].
  destruct (lookup_labels label2id labels); [done|]. cbn. intros [= <-]. auto.
Qed.

Lemma lookup_labels_missing (label2id : gmap string Z)
    (before after : list string) (lbl : string) :
  Forall (λ l, is_Some (label2id !! upper l)) before →
  label2id !! upper lbl = None →
  lookup_labels label2id (before ++ lbl :: after) = Raise KeyError
  ∧ missing_labels label2id (before ++ lbl :: after) !! 0%nat
    = Some (upper lbl).
Proof.
  intros Hbefore Hlbl. unfold missing_labels.
  induction Hbefore as [|l before [i Hl] _ [IH1 IH2]].
  - split; [cbn; by rewrite Hlbl|].
    change (map upper ([] ++ lbl :: after))
      with (upper lbl :: map upper after).
    by rewrite filter_cons_True.
  - split; [cbn; by rewrite Hl, IH1|].
    change (map upper ((l :: before) ++ lbl :: after))
      with (upper l :: map upper (before ++ lbl :: after)).
    rewrite filter_cons_False; [done|]. by rewrite Hl.
Qed.

(** C6, as the code has it.  A label is looked up under its uppercased
    form: a label whose uppercased form is a key of [label2id] is replaced
    by the id that [label2id] gives to that key, and a batch of labels
    is translated exactly when all its labels are such.  Otherwise the call
    fails with [MissingLabel], which carries the uppercased form of the
    first label that has no key, and [label2id] itself. *)
Theorem create_numerical_labels_spec (label2id : gmap string Z)
    (labels : list string) :
  (∀ raw,
     _create_numerical_labels [raw] label2id
     = match label2id !! upper raw with
       | Some i => Ok [i]
       | None => Raise (MissingLabel (upper raw) label2id)
       end)
  ∧ (∀ ids,
       _create_numerical_labels labels label2id = Ok ids
       ↔ Forall2 (λ lbl i, label2id !! upper lbl = Some i) labels ids)
  ∧ (∀ before lbl after,
       labels = before ++ lbl :: after →
       Forall (λ l, is_Some (label2id !! upper l)) before →
       label2id !! upper lbl = None →
       _create_numerical_labels labels label2id
       = Raise (MissingLabel (upper lbl) label2id)).
Proof.
  split_and!.
  - intros raw. destruct (label2id !! upper raw) as [i|] eqn:Hraw.
    + unfold _create_numerical_labels. cbn. by rewrite Hraw.
    + destruct (lookup_labels_missing label2id [] [] raw) as [H1 H2];
        [constructor|done|].
      unfold _create_numerical_labels, getitem.
      change ([] ++ [raw]) with [raw] in H1, H2. by rewrite H1, H2.
  - intros ids. rewrite <-lookup_labels_Ok. unfold _create_numerical_labels.
    destruct (lookup_labels label2id labels) as [ids'|e] eqn:H; [done|].
    apply lookup_labels_Raise in H as ->.
    by destruct (getitem (missing_labels label2id labels) 0).
  - intros before lbl after -> Hbefore Hlbl.
    destruct (lookup_labels_missing label2id before after lbl Hbefore Hlbl)
      as [H1 H2].
    unfold _create_numerical_labels, getitem. by rewrite H1, H2.
Qed.

(** C6, as the claim has it, fails: the error for the raw label "neg"
    carries "NEG", not the raw value. *)
Lemma missing_label_is_not_the_raw_value :
  _create_numerical_labels ["neg"] ∅ = Raise (MissingLabel "NEG" ∅)
  ∧ _create_numerical_labels ["neg"] ∅ ≠ Raise (MissingLabel "neg" ∅).
Proof. split; [reflexivity|]. vm_compute. discriminate. Qed.

(** ** The spaCy framework and question answering *)

(** C7.  The spaCy strategy of the preprocessing of the question-answering
    task raises [FrameworkCannotHandleTask] with the framework "spaCy" and
    the pretty name of the task, for all examples.  In the pipeline, the
    first step from the initial state leads to the failed state with that
    exception, which has no successor, and the model is never called. *)
Theorem spacy_cannot_handle_question_answering {A Raw Out Res : Type}
    (task_config : TaskConfig) (_pytorch_preprocess_fn : A → result A)
    (predict : A → Raw) (postprocess : Raw → A → A → Out)
    (compute_metrics : Out → Res) (examples : A) :
  let e := FrameworkCannotHandleTask "spaCy" (pretty_name task_config) in
  let preprocess := qa_preprocess task_config _pytorch_preprocess_fn in
  let failed := {| pl_stage := Failed e; pl_inference_calls := 0 |} in
  _spacy_preprocess_fn task_config examples = Raise e
  ∧ step preprocess predict postprocess compute_metrics SpaCy examples
      initial = Some failed
  ∧ step preprocess predict postprocess compute_metrics SpaCy examples
      failed = None
  ∧ ∀ fuel,
      run preprocess predict postprocess compute_metrics (S fuel) SpaCy
        examples initial = failed.
Proof.
  intros e preprocess failed. split_and!; [done..|].
  intros [|fuel]; reflexivity.
Qed.

(** ** The check of the shape of the predictions *)

(** When the first element of the first prediction is a non-empty list or
    a non-empty string, the check returns, and it returns true exactly for
    a string and for a list of two elements whose first one is a float. *)
Lemma check_on_sequence (elt : pyval) (rest others : list pyval) :
  match elt with
  | PyStr (String _ _) =>
      _check_if_model_is_trained_for_task
        (PyList (PyList (elt :: rest) :: others)) = Ok true
  | PyList (x :: l) =>
      _check_if_model_is_trained_for_task
        (PyList (PyList (elt :: rest) :: others))
      = Ok (bool_decide (length l = 1%nat) && is_float x)
  | _ => True
  end.
Proof.
  destruct elt as [| |[|c s]|[|x l]]; try done.
  - unfold _check_if_model_is_trained_for_task. cbn. by rewrite orb_true_r.
  - unfold _check_if_model_is_trained_for_task. cbn. rewrite orb_false_r.
    f_equal. f_equal. apply bool_decide_ext. lia.
Qed.

(** C9 (the code departs from the claim).  On predictions that are
    class-probability vectors, whose elements are floats, the check does
    not return false: [len] of a float raises [TypeError].  When the first
    element is the empty string, the check does not return true: the
    index [sample_preds[0][0]] raises [IndexError] before the test for a
    string is made. *)
Theorem check_raises_on_other_shapes :
  _check_if_model_is_trained_for_task
    (PyList [PyList [PyFloat 0.1; PyFloat 0.9]]) = Raise TypeError
  ∧ _check_if_model_is_trained_for_task (PyList [PyList [PyStr ""]])
    = Raise IndexError
  ∧ _check_if_model_is_trained_for_task
      (PyList [PyList [PyList [PyFloat 0.3; PyFloat 0.7]]]) = Ok true
  ∧ _check_if_model_is_trained_for_task (PyList [PyList [PyStr "Paris"]])
    = Ok true.
Proof. repeat split. Qed.

(** * Further properties of the span resolver *)

Section Candidates.
Context {F : Type} (zero : F) (add : F → F → F) (ltb : F → F → bool).
Context (argsort : list F → list nat).

Lemma consider_span_skip context om sl el s e (va : list (@answer F)) :
  ¬ (s < length om ∧ e < length om ∧ s ≤ e
     ∧ e - s + 1 ≤ max_answer_length)%nat →
  consider_span add context om sl el s e va = Ok va.
Proof.
  intros Hn. unfold consider_span. rewrite out_of_scope_spec. cbn.
  destruct (bool_decide _ || bool_decide _) eqn:Hscope; [done|].
  destruct (bad_length s e) eqn:Hlen; [done|]. exfalso. apply Hn.
  unfold bad_length, max_answer_length in *.
  apply orb_false_iff in Hscope as [Hs He], Hlen as [H1 H2].
  repeat match goal with
    | H : bool_decide _ = false |- _ => apply bool_decide_eq_false in H
    end.
  lia.
Qed.

Lemma consider_span_keep context om sl el s e (va : list (@answer F)) :
  (s < length om ∧ e < length om ∧ s ≤ e
   ∧ e - s + 1 ≤ max_answer_length)%nat →
  consider_span add context om sl el s e va
  = (os ← getitem om s; oe ← getitem om e;
     x ← getitem sl s; y ← getitem el e;
     Ok (va ++ [{| score := add x y; text := py_slice context os.1 oe.2 |}])).
Proof.
  intros (Hs & He & Hse & Hlen). unfold consider_span.
  rewrite out_of_scope_spec. cbn.
  rewrite !bool_decide_eq_false_2 by lia. cbn.
  unfold bad_length, max_answer_length in *.
  by rewrite !bool_decide_eq_false_2 by lia.
Qed.

Lemma consider_span_Ok context om sl el s e (va va' : list (@answer F)) :
  consider_span add context om sl el s e va = Ok va' →
  va' = va
  ∨ ∃ a, va' = va ++ [a] ∧ answer_of_span add context om sl el s e a.
Proof.
  intros H.
  destruct (decide (s < length om ∧ e < length om ∧ s ≤ e
                    ∧ e - s + 1 ≤ max_answer_length)%nat) as [Hc|Hc].
  - rewrite consider_span_keep in H by done.
    apply bind_Ok in H as (os & Hos & H). apply bind_Ok in H as (oe & Hoe & H).
    apply bind_Ok in H as (x & Hx & H). apply bind_Ok in H as (y & Hy & H).
    injection H as <-. apply getitem_Ok in Hos, Hoe, Hx, Hy.
    right. eexists. split; [done|]. split; [lia|].
    by exists os, oe, x, y.
  - rewrite consider_span_skip in H by done. injection H as <-. by left.
Qed.

(** The loop over the end positions for one start position. *)
Lemma end_loop_Ok context om sl el s (es : list nat)
    (va va' : list (@answer F)) :
  for_each (consider_span add context om sl el s) es va = Ok va' →
  ∃ new, va' = va ++ new
    ∧ (length new ≤ length es)%nat
    ∧ Forall (λ a, ∃ e, e ∈ es ∧ answer_of_span add context om sl el s e a)
        new.
Proof.
  revert va. induction es as [|e es IH]; intros va H; cbn in H.
  - injection H as <-. exists []. by rewrite app_nil_r.
  - apply bind_Ok in H as (va1 & H1 & H).
    apply IH in H as (new & -> & Hlen & Hnew).
    assert (Forall (λ a, ∃ e', e' ∈ e :: es
                         ∧ answer_of_span add context om sl el s e' a) new)
      as Hnew'.
    { eapply Forall_impl; [exact Hnew|]. intros a (e' & He' & Ha).
      exists e'. split; [by right|done]. }
    apply consider_span_Ok in H1 as [->|(a & -> & Ha)].
    + exists new. split_and!; [done|cbn; lia|done].
    + exists (a :: new). rewrite <-app_assoc. split_and!; [done|cbn; lia|].
      constructor; [|done]. exists e. split; [by left|done].
Qed.

(** The two nested loops of a feature. *)
Lemma span_loops_Ok context om sl el (ss es : list nat)
    (va va' : list (@answer F)) :
  for_each (λ s, for_each (consider_span add context om sl el s) es) ss va
  = Ok va' →
  ∃ new, va' = va ++ new
    ∧ (length new ≤ length ss * length es)%nat
    ∧ Forall (λ a, ∃ s e, s ∈ ss ∧ e ∈ es
                     ∧ answer_of_span add context om sl el s e a) new.
Proof.
  revert va. induction ss as [|s ss IH]; intros va H; cbn in H.
  - injection H as <-. exists []. by rewrite app_nil_r.
  - apply bind_Ok in H as (va1 & H1 & H).
    apply end_loop_Ok in H1 as (new1 & -> & Hlen1 & Hnew1).
    apply IH in H as (new & -> & Hlen & Hnew).
    exists (new1 ++ new). rewrite <-app_assoc.
    split_and!; [done|rewrite length_app; simpl length; nia|].
    apply Forall_app. split.
    + eapply Forall_impl; [exact Hnew1|]. intros a (e & He & Ha).
      exists s, e. split_and!; [by left|done..].
    + eapply Forall_impl; [exact Hnew|]. intros a (s' & e & Hs' & He & Ha).
      exists s', e. split_and!; [by right|done..].
Qed.

Lemma n_best_length (logits : list F) :
  (length (n_best argsort logits) ≤ n_best_size)%nat.
Proof. unfold n_best. rewrite length_take. lia. Qed.

Context (prepared_dataset : list feature).
Context (all_start_logits all_end_logits : list (list F)).
Context (cls_token_index : Z) (context : string).

Lemma process_feature_answers (fi : nat) (st st' : F * list answer) :
  process_feature add ltb argsort prepared_dataset all_start_logits
    all_end_logits cls_token_index context fi st = Ok st' →
  ∃ new, st'.2 = st.2 ++ new
    ∧ (length new ≤ n_best_size * n_best_size)%nat
    ∧ Forall (answer_of_feature add argsort prepared_dataset
                all_start_logits all_end_logits context fi) new.
Proof.
  unfold process_feature. intros H.
  apply bind_Ok in H as (f & Hf & H). apply bind_Ok in H as (sl & Hsl & H).
  apply bind_Ok in H as (el & Hel & H). apply bind_Ok in H as (n & Hn & H).
  apply bind_Ok in H as (va & Hva & [= <-]).
  apply getitem_Ok in Hf, Hsl, Hel.
  apply span_loops_Ok in Hva as (new & -> & Hlen & Hnew).
  exists new. split_and!; [done| |].
  - pose proof (n_best_length sl). pose proof (n_best_length el). nia.
  - eapply Forall_impl; [exact Hnew|]. intros a (s & e & Hs & He & Ha).
    by exists f, sl, el, s, e.
Qed.

Lemma scan_from_answers (fis : list nat) (st st' : F * list answer) :
  for_each
    (process_feature add ltb argsort prepared_dataset all_start_logits
       all_end_logits cls_token_index context) fis st = Ok st' →
  ∃ new, st'.2 = st.2 ++ new
    ∧ (length new ≤ n_best_size * n_best_size * length fis)%nat
    ∧ Forall (λ a, ∃ fi, fi ∈ fis
                ∧ answer_of_feature add argsort prepared_dataset
                    all_start_logits all_end_logits context fi a) new.
Proof.
  revert st. induction fis as [|fi fis IH]; intros st H; cbn in H.
  - injection H as <-. exists []. by rewrite app_nil_r.
  - apply bind_Ok in H as (st1 & H1 & H).
    apply process_feature_answers in H1 as (new1 & Hst1 & Hlen1 & Hnew1).
    apply IH in H as (new & -> & Hlen & Hnew). rewrite Hst1.
    exists (new1 ++ new). rewrite <-app_assoc.
    split_and!; [done|rewrite length_app; simpl length; nia|].
    apply Forall_app. split.
    + eapply Forall_impl; [exact Hnew1|]. intros a Ha.
      exists fi. split; [by left|done].
    + eapply Forall_impl; [exact Hnew|]. intros a (fi' & Hfi' & Ha).
      exists fi'. split; [by right|done].
Qed.
End Candidates.

(** X1.  The span filter, as the code has it: a pair of positions is
    recorded exactly when both positions are within the offset mapping,
    the end is not before the start and the span has at most
    [max_answer_length] positions, whatever the offset entries are.  Then
    one answer is appended, with the sum of the two logits and the slice
    of the context; [IndexError] is raised if a logit is missing.
    Otherwise the valid answers are left as they were. *)
Theorem span_filter_characterisation {F : Type} (add : F → F → F)
    (context : string) (offset_mapping : list (Z * Z))
    (start_logits end_logits : list F) (start_index end_index : nat)
    (valid_answers : list answer) :
  let in_range :=
    (start_index < length offset_mapping
     ∧ end_index < length offset_mapping
     ∧ start_index ≤ end_index
     ∧ end_index - start_index + 1 ≤ max_answer_length)%nat in
  let considered :=
    consider_span add context offset_mapping start_logits end_logits
      start_index end_index valid_answers in
  (¬ in_range → considered = Ok valid_answers)
  ∧ (in_range → ∀ os oe x y,
       offset_mapping !! start_index = Some os →
       offset_mapping !! end_index = Some oe →
       start_logits !! start_index = Some x →
       end_logits !! end_index = Some y →
       considered
       = Ok (valid_answers
               ++ [{| score := add x y;
                      text := py_slice context os.1 oe.2 |}]))
  ∧ (in_range →
     start_logits !! start_index = None ∨ end_logits !! end_index = None →
     considered = Raise IndexError).
Proof.
  intros in_range considered. split_and!.
  - apply consider_span_skip.
  - intros Hr os oe x y Hos Hoe Hx Hy. unfold considered.
    rewrite consider_span_keep by done. unfold getitem.
    by rewrite Hos, Hoe, Hx, Hy.
  - intros Hr Hnone. unfold considered.
    rewrite consider_span_keep by done.
    destruct Hr as (Hs & He & _).
    destruct (getitem_lt offset_mapping start_index Hs) as (os & -> & _).
    destruct (getitem_lt offset_mapping end_index He) as (oe & -> & _).
    cbn. unfold getitem.
    destruct Hnone as [->| ->]; [done|].
    by destruct (start_logits !! start_index).
Qed.

(** X2.  The scan of the features of an example records at most
    [n_best_size * n_best_size] = 400 answers per feature. *)
Theorem valid_answers_bound {F : Type} (zero : F) (add : F → F → F)
    (ltb : F → F → bool) (argsort : list F → list nat)
    (prepared_dataset : list feature)
    (all_start_logits all_end_logits : list (list F)) (cls_token_index : Z)
    (context : string) (feature_indices : list nat)
    (min_null : F) (valid : list answer) :
  scan_features zero add ltb argsort prepared_dataset all_start_logits
    all_end_logits cls_token_index context feature_indices
  = Ok (min_null, valid) →
  (length valid ≤ 400 * length feature_indices)%nat.
Proof.
  intros H. unfold scan_features in H.
  apply scan_from_answers in H as (new & Hnew & Hlen & _).
  cbn in Hnew. subst valid. unfold n_best_size in Hlen. lia.
Qed.

Lemma valid_answers_bound_witness :
  (length Sample.answers_paris ≤ 400 * length [0%nat])%nat.
Proof.
  apply (valid_answers_bound 0 Z.add Z.ltb IntLogits.argsort
           [Sample.ft_paris] [[0; 1; 5]] [[0; 1; 5]] 101
           (ex_context Sample.ex_paris) [0%nat] 0).
  vm_compute. reflexivity.
Defined.

(** ** The text of a prediction *)

Lemma substring_prefix (m : nat) (s : string) :
  ∃ post, s = (String.substring 0 m s +:+ post)%string.
Proof.
  revert m. induction s as [|c s IH]; intros [|m]; cbn.
  - by exists EmptyString.
  - by exists EmptyString.
  - by exists (String c s).
  - destruct (IH m) as (post & H). exists post.
    change (String c s = String c (String.substring 0 m s +:+ post)%string).
    by f_equal.
Qed.

Lemma substring_part (n m : nat) (s : string) :
  ∃ pre post, s = (pre +:+ String.substring n m s +:+ post)%string.
Proof.
  revert n. induction s as [|c s IH]; intros [|n].
  - exists EmptyString, EmptyString. by destruct m.
  - by exists EmptyString, EmptyString.
  - destruct (substring_prefix m (String c s)) as (post & H).
    by exists EmptyString, post.
  - destruct (IH n) as (pre & post & H). exists (String c pre), post.
    change (String c s
            = String c (pre +:+ String.substring n m s +:+ post)%string).
    by f_equal.
Qed.

Lemma py_slice_part (s : string) (a b : Z) :
  ∃ pre post, s = (pre +:+ py_slice s a b +:+ post)%string.
Proof. apply substring_part. Qed.

(** X4.  The text of every prediction that [postprocess_predictions]
    returns is a part of the context of its example: the context is the
    text with something before and something after it. *)
Theorem prediction_text_is_part_of_context {F : Type} (zero : F)
    (add : F → F → F) (ltb : F → F → bool) (argsort : list F → list nat)
    (predictions : list (list (F * F))) (dataset : list example)
    (prepared_dataset : list feature) (cls_token_index : Z)
    (preds : list prediction) :
  postprocess_predictions zero add ltb argsort predictions dataset
    prepared_dataset cls_token_index = Ok preds →
  ∀ i p, preds !! i = Some p →
    ∃ ex pre post,
      dataset !! i = Some ex
      ∧ pr_id p = ex_id ex
      ∧ ex_context ex = (pre +:+ prediction_text p +:+ post)%string.
Proof.
  intros H i p Hp.
  apply postprocess_predictions_Ok in H as (_ & fpe & _ & H).
  apply examples_loop_Ok in H as [Hlen H].
  destruct (lookup_lt_is_Some_2 dataset i) as [ex Hex].
  { rewrite <-Hlen. by eapply lookup_lt_Some. }
  destruct (H i ex Hex) as (p' & Hp' & Hbody).
  assert (p' = p) as -> by congruence. clear Hp'.
  unfold postprocess_example in Hbody.
  apply bind_Ok in Hbody as ([m valid] & Hscan & [= <-]). cbn.
  exists ex. unfold final_text.
  destruct (ltb m (score (best_answer zero ltb valid)));
    [|by exists EmptyString, (ex_context ex)].
  destruct (decide (valid = [])) as [->|Hne];
    [by exists EmptyString, (ex_context ex)|].
  pose proof (best_answer_elem zero ltb valid Hne) as Hbest.
  unfold scan_features in Hscan.
  apply scan_from_answers in Hscan as (new & Hnew & _ & Hall).
  cbn in Hnew. subst valid. rewrite Forall_forall in Hall.
  destruct (Hall _ Hbest)
    as (fi & _ & f & sl & el & s & e & _ & _ & _ & _ & _ & _ & Ha).
  destruct Ha as (os & oe & x & y & _ & _ & _ & _ & ->). cbn.
  destruct (py_slice_part (ex_context ex) os.1 oe.2) as (pre & post & Hpart).
  by exists pre, post.
Qed.

Lemma prediction_text_is_part_of_context_witness :
  ∃ ex pre post,
    [Sample.ex_paris] !! 0%nat = Some ex
    ∧ pr_id {| pr_id := "q1"; prediction_text := "Paris";
               no_answer_probability := 0 |} = ex_id ex
    ∧ ex_context ex = (pre +:+ "Paris" +:+ post)%string.
Proof.
  apply (prediction_text_is_part_of_context 0 Z.add Z.ltb IntLogits.argsort
           [[(0, 0); (1, 1); (5, 5)]] [Sample.ex_paris] [Sample.ft_paris]
           101
           [{| pr_id := "q1"; prediction_text := "Paris";
               no_answer_probability := 0 |}] eq_refl 0%nat).
  reflexivity.
Defined.

(** ** The best answer is the first of the highest score *)

Section LeftmostMaximum.
Context {F : Type} (zero : F) (ltb : F → F → bool).
Hypothesis ltb_asym : ∀ x y, ltb x y = true → ltb y x = false.
Hypothesis ltb_cotrans :
  ∀ x y z, ltb x z = true → ltb x y = true ∨ ltb y z = true.

Lemma sort_by_score_snoc (l : list (@answer F)) (a : answer) :
  sort_by_score ltb (l ++ [a]) = insert_by_score ltb a (sort_by_score ltb l).
Proof. unfold sort_by_score. by rewrite fold_left_app. Qed.

Lemma insert_by_score_last (a z : answer) (l : list answer) :
  StronglySorted (score_le ltb) (l ++ [z]) →
  ∃ l', insert_by_score ltb a (l ++ [z])
        = l' ++ [if ltb (score a) (score z) then z else a].
Proof.
  induction l as [|b l IH]; intros Hs; cbn.
  - destruct (ltb (score a) (score z)); [by exists [a]|by exists [z]].
  - apply StronglySorted_inv in Hs as [Hs Hb].
    destruct (ltb (score a) (score b)) eqn:Hab.
    + assert (ltb (score a) (score z) = true) as ->.
      { rewrite Forall_app, Forall_singleton in Hb. destruct Hb as [_ Hbz].
        destruct (ltb_cotrans _ (score z) _ Hab) as [H|H]; [done|].
        unfold score_le in Hbz. congruence. }
      by exists (a :: b :: l).
    + destruct (IH Hs) as (l' & ->). by exists (b :: l').
Qed.

(** The best answer of a list with one more answer in front. *)
Lemma best_answer_cons (a b : answer) (l : list answer) :
  best_answer zero ltb (a :: b :: l)
  = if ltb (score a) (score (best_answer zero ltb (b :: l)))
    then best_answer zero ltb (b :: l) else a.
Proof.
  unfold best_answer, sorted_reverse.
  change (rev (a :: b :: l)) with (rev (b :: l) ++ [a]).
  rewrite sort_by_score_snoc.
  pose proof (sort_by_score_sorted ltb ltb_asym ltb_cotrans (rev (b :: l)))
    as Hs.
  pose proof (sort_by_score_perm ltb (rev (b :: l))) as Hp.
  destruct (sort_by_score ltb (rev (b :: l))) as [|z l' _] using rev_ind.
  - rewrite <-Permutation_rev in Hp. by apply Permutation_nil_cons in Hp.
  - destruct (insert_by_score_last a z l' Hs) as (l'' & ->).
    rewrite !rev_app_distr. cbn.
    by destruct (ltb (score a) (score z)).
Qed.
End LeftmostMaximum.

(** X5.  On scores whose [<] is a strict weak order, the best answer of a
    non-empty list of valid answers is the first answer of the highest
    score: the answers before it have a smaller score, and no answer
    after it has a greater one. *)
Theorem best_answer_is_first_maximum {F : Type} (zero : F)
    (ltb : F → F → bool) (valid : list answer) :
  (∀ x y, ltb x y = true → ltb y x = false) →
  (∀ x y z, ltb x z = true → ltb x y = true ∨ ltb y z = true) →
  valid ≠ [] →
  let best := best_answer zero ltb valid in
  ∃ before after,
    valid = before ++ best :: after
    ∧ (∀ a, a ∈ before → ltb (score a) (score best) = true)
    ∧ (∀ a, a ∈ after → ltb (score best) (score a) = false).
Proof.
  intros Hasym Hcotrans Hne.
  destruct valid as [|a valid]; [done|clear Hne].
  revert a. induction valid as [|b valid IH]; intros a.
  - exists [], []. split_and!; [done|..]; intros c Hc; by apply elem_of_nil in Hc.
  - cbv zeta. rewrite (best_answer_cons zero ltb Hasym Hcotrans).
    destruct (IH b) as (before & after & Heq & Hbefore & Hafter).
    set (best := best_answer zero ltb (b :: valid)) in *.
    destruct (ltb (score a) (score best)) eqn:Hab.
    + exists (a :: before), after. split_and!; [by rewrite Heq|..|done].
      intros c Hc. apply elem_of_cons in Hc as [->|Hc]; [done|by apply Hbefore].
    + exists [], (b :: valid). split_and!; [done|..].
      * intros c Hc. by apply elem_of_nil in Hc.
      * intros c Hc. rewrite Heq in Hc.
        destruct (ltb (score a) (score c)) eqn:Hac; [exfalso|done].
        destruct (Hcotrans _ (score best) _ Hac) as [H|H]; [congruence|].
        apply elem_of_app in Hc as [Hc|Hc].
        -- apply Hbefore in Hc. by rewrite (Hasym _ _ Hc) in H.
        -- apply elem_of_cons in Hc as [->|Hc].
           ++ destruct (ltb (score best) (score best)) eqn:Hbb; [|done].
              by rewrite (Hasym _ _ Hbb) in Hbb.
           ++ apply Hafter in Hc. congruence.
Qed.

Lemma best_answer_is_first_maximum_witness :
  ∃ before after,
    Sample.answers_tied
    = before ++ best_answer 0 Z.ltb Sample.answers_tied :: after
    ∧ (∀ a, a ∈ before →
         (score a <? score (best_answer 0 Z.ltb Sample.answers_tied)) = true)
    ∧ (∀ a, a ∈ after →
         (score (best_answer 0 Z.ltb Sample.answers_tied) <? score a)
         = false).
Proof.
  apply (best_answer_is_first_maximum 0 Z.ltb Sample.answers_tied).
  - intros x y. rewrite Z.ltb_lt, Z.ltb_ge. lia.
  - intros x y z. rewrite !Z.ltb_lt. lia.
  - discriminate.
Defined.

(** * Further properties of the grouping of the features *)

Lemma id_to_index_from_keeps (ids : list string) (i : nat)
    (m : gmap string nat) (k : string) :
  is_Some (m !! k) → is_Some (id_to_index_from i ids m !! k).
Proof.
  revert i m. induction ids as [|k' ids IH]; intros i m Hk; cbn; [done|].
  apply IH. destruct (decide (k' = k)) as [->|Hne].
  - by rewrite lookup_insert_eq.
  - by rewrite lookup_insert_ne.
Qed.

Lemma id_to_index_from_elem (ids : list string) (i : nat)
    (m : gmap string nat) (k : string) :
  k ∈ ids → is_Some (id_to_index_from i ids m !! k).
Proof.
  revert i m. induction ids as [|k' ids IH]; intros i m Hk; cbn.
  - by apply elem_of_nil in Hk.
  - destruct (decide (k ∈ ids)) as [Hin|Hnin]; [by apply IH|].
    apply elem_of_cons in Hk as [->|Hk]; [|done].
    apply id_to_index_from_keeps. by rewrite lookup_insert_eq.
Qed.

Lemma id_to_index_from_None (ids : list string) (i : nat)
    (m : gmap string nat) (k : string) :
  k ∉ ids → m !! k = None → id_to_index_from i ids m !! k = None.
Proof.
  revert i m. induction ids as [|k' ids IH]; intros i m Hk Hm; cbn; [done|].
  apply not_elem_of_cons in Hk as [Hne Hk].
  apply IH; [done|]. by rewrite lookup_insert_ne.
Qed.

(** The index of an id is the position of its last occurrence. *)
Lemma id_to_index_from_last (ids : list string) (i : nat)
    (m : gmap string nat) (k : string) (j j' : nat) :
  id_to_index_from i ids m !! k = Some j →
  ids !! j' = Some k → (i + j' ≤ j)%nat.
Proof.
  revert i m j'. induction ids as [|k' ids IH]; intros i m j' H Hj'.
  - by rewrite lookup_nil in Hj'.
  - cbn in H. destruct j' as [|j']; cbn in Hj'.
    + injection Hj' as ->.
      apply id_to_index_from_Some in H as [H|[H _]]; [|lia].
      rewrite lookup_insert_eq in H. injection H as <-. lia.
    + pose proof (IH _ _ _ H Hj'). lia.
Qed.

Lemma id_to_index_NoDup (ids : list string) (k : string) (j : nat) :
  NoDup ids →
  id_to_index_from 0 ids ∅ !! k = Some j ↔ ids !! j = Some k.
Proof.
  intros Hnd. split.
  - intros H. apply id_to_index_from_Some in H as [H|[_ H]]; [done|].
    by rewrite Nat.sub_0_r in H.
  - intros Hj.
    destruct (id_to_index_from_elem ids 0 ∅ k) as [j' Hj'].
    { by eapply list_elem_of_lookup_2. }
    rewrite Hj'. f_equal.
    apply id_to_index_from_Some in Hj' as [H|[_ H]]; [done|].
    rewrite Nat.sub_0_r in H. by eapply NoDup_lookup.
Qed.

Section GroupOrder.
Context (id_to_index : gmap string nat).

Lemma group_features_Raise (prepared : list feature) (i : nat)
    (fpe : gmap nat (list nat)) (e : exn) :
  group_features id_to_index i prepared fpe = Raise e → e = KeyError.
Proof.
  revert i fpe. induction prepared as [|f prepared IH]; intros i fpe H.
  - done.
  - cbn in H. destruct (id_to_index !! ft_id f); [by eapply IH|].
    by injection H as <-.
Qed.

(** The lists of feature indices are in increasing order. *)
Lemma group_features_sorted (prepared : list feature) (i : nat)
    (fpe fpe' : gmap nat (list nat)) :
  (∀ e, StronglySorted lt (default [] (fpe !! e))
        ∧ Forall (λ fi, fi < i)%nat (default [] (fpe !! e))) →
  group_features id_to_index i prepared fpe = Ok fpe' →
  ∀ e, StronglySorted lt (default [] (fpe' !! e)).
Proof.
  revert i fpe. induction prepared as [|f prepared IH]; intros i fpe Hinv H.
  - cbn in H. injection H as <-. intros e. apply Hinv.
  - cbn in H. destruct (id_to_index !! ft_id f) as [exi|]; [|done].
    eapply IH; [|exact H]. intros e. destruct (Hinv e) as [Hs Hlt].
    destruct (decide (exi = e)) as [->|Hne].
    + rewrite lookup_insert_eq. cbn. split.
      * apply StronglySorted_app_2; [|done|repeat constructor].
        intros x1 x2 Hx1 Hx2. apply list_elem_of_singleton in Hx2 as ->.
        rewrite Forall_forall in Hlt. by apply Hlt.
      * apply Forall_app. split; [|by repeat constructor].
        eapply Forall_impl; [exact Hlt|]. cbn. lia.
    + rewrite lookup_insert_ne by done. split; [done|].
      eapply Forall_impl; [exact Hlt|]. cbn. lia.
Qed.
End GroupOrder.

(** X6.  When the predictions make an array of three dimensions, a feature
    of the prepared dataset whose id is the id of no example of the dataset
    makes [postprocess_predictions] raise [KeyError]. *)
Theorem unknown_feature_id_raises_KeyError {F : Type} (zero : F)
    (add : F → F → F) (ltb : F → F → bool) (argsort : list F → list nat)
    (predictions : list (list (F * F))) (dataset : list example)
    (prepared_dataset : list feature) (cls_token_index : Z) (f : feature) :
  logits_array predictions = Ok predictions →
  f ∈ prepared_dataset →
  ft_id f ∉ map ex_id dataset →
  postprocess_predictions zero add ltb argsort predictions dataset
    prepared_dataset cls_token_index = Raise KeyError.
Proof.
  intros Harray Hf Hid.
  rewrite (postprocess_predictions_array _ _ _ _ _ _ _ _ Harray).
  destruct (group_features _ 0 prepared_dataset ∅) as [fpe|e] eqn:H.
  - destruct (group_features_Ok _ _ _ _ _ f H Hf) as [j Hj].
    rewrite id_to_index_from_None in Hj; [done..|]. apply lookup_empty.
  - by apply group_features_Raise in H as ->.
Qed.

Lemma unknown_feature_id_raises_KeyError_witness :
  IntLogits.postprocess_predictions [[(0, 0); (1, 1); (5, 5)]]
    [Sample.ex_nobody] [Sample.ft_paris] 101 = Raise KeyError.
Proof.
  apply (unknown_feature_id_raises_KeyError 0 Z.add Z.ltb IntLogits.argsort
           [[(0, 0); (1, 1); (5, 5)]] [Sample.ex_nobody] [Sample.ft_paris]
           101 Sample.ft_paris).
  - reflexivity.
  - by left.
  - apply (bool_decide_unpack (_ ∉ _)). vm_compute. exact I.
Defined.

(** X7.  When the ids of the dataset are distinct and the features are
    grouped, the list of an example holds, in increasing order and once
    each, the indices of the features that carry the id of the example. *)
Theorem features_per_example_spec (dataset : list example)
    (prepared_dataset : list feature) (fpe : gmap nat (list nat)) :
  NoDup (map ex_id dataset) →
  group_features (id_to_index_from 0 (map ex_id dataset) ∅) 0
    prepared_dataset ∅ = Ok fpe →
  ∀ i ex, dataset !! i = Some ex →
    StronglySorted lt (default [] (fpe !! i))
    ∧ ∀ fi, fi ∈ default [] (fpe !! i)
        ↔ ∃ f, prepared_dataset !! fi = Some f ∧ ft_id f = ex_id ex.
Proof.
  intros Hnd H i ex Hex. split.
  - eapply group_features_sorted; [|exact H]. intros e.
    rewrite lookup_empty. cbn. split; constructor.
  - intros fi. rewrite (group_features_elem _ _ _ _ _ i fi H).
    rewrite lookup_empty, Nat.sub_0_r. cbn. rewrite elem_of_nil.
    assert (∀ f, id_to_index_from 0 (map ex_id dataset) ∅ !! ft_id f = Some i
                 ↔ ft_id f = ex_id ex) as Hidx.
    { intros f. rewrite id_to_index_NoDup by done.
      rewrite list_lookup_fmap, Hex. cbn. split; congruence. }
    split.
    + intros [[]|(f & _ & Hf & Hid)]. exists f. by rewrite <-Hidx.
    + intros (f & Hf & Hid). right. exists f. split_and!; [lia|done|].
      by apply Hidx.
Qed.

Lemma features_per_example_spec_witness :
  ∃ fpe : gmap nat (list nat),
    group_features
      (id_to_index_from 0 (map ex_id [Sample.ex_nobody; Sample.ex_paris]) ∅)
      0 [Sample.ft_first; Sample.ft_second] ∅ = Ok fpe
    ∧ StronglySorted lt (default [] (fpe !! 1%nat)).
Proof.
  eexists. split; [reflexivity|].
  apply (features_per_example_spec [Sample.ex_nobody; Sample.ex_paris]
           [Sample.ft_first; Sample.ft_second] _
           ltac:(apply (bool_decide_unpack (NoDup _)); vm_compute; exact I)
           eq_refl 1%nat Sample.ex_paris eq_refl).
Defined.

(** X8.  When two examples of the dataset have the same id, the features
    with that id go to the later one: the earlier example gets the
    prediction with the empty text. *)
Theorem duplicated_id_gets_empty_prediction {F : Type} (zero : F)
    (add : F → F → F) (ltb : F → F → bool) (argsort : list F → list nat)
    (predictions : list (list (F * F))) (dataset : list example)
    (prepared_dataset : list feature) (cls_token_index : Z)
    (preds : list prediction) (i j : nat) (ex ex' : example) :
  dataset !! i = Some ex → dataset !! j = Some ex' →
  (i < j)%nat → ex_id ex = ex_id ex' →
  postprocess_predictions zero add ltb argsort predictions dataset
    prepared_dataset cls_token_index = Ok preds →
  preds !! i = Some {| pr_id := ex_id ex; prediction_text := "";
                       no_answer_probability := zero |}.
Proof.
  intros Hex Hex' Hij Hid H.
  apply postprocess_predictions_Ok in H as (_ & fpe & Hfpe & H).
  apply examples_loop_Ok in H as [_ H].
  destruct (H i ex Hex) as (p & Hp & Hbody). cbn in Hbody.
  assert (default [] (fpe !! i) = []) as Hnil.
  { apply elem_of_nil_inv. intros fi Hfi.
    apply (group_features_elem _ _ _ _ _ _ _ Hfpe) in Hfi
      as [Hfi|(f & _ & Hf & Hidx)].
    - rewrite lookup_empty in Hfi. by apply elem_of_nil in Hfi.
    - pose proof Hidx as Hidx'.
      apply id_to_index_example in Hidx' as (ex0 & Hex0 & Hid0).
      assert (ex0 = ex) as -> by congruence.
      assert (map ex_id dataset !! j = Some (ft_id f)) as Hj.
      { rewrite list_lookup_fmap, Hex'. cbn. congruence. }
      pose proof (id_to_index_from_last _ _ _ _ _ _ Hidx Hj). lia. }
  rewrite Hnil in Hbody. rewrite Hp. f_equal.
  unfold postprocess_example, final_text in Hbody. cbn in Hbody.
  injection Hbody as <-. by destruct (ltb zero zero).
Qed.

Lemma duplicated_id_gets_empty_prediction_witness :
  ∃ preds,
    IntLogits.postprocess_predictions [[(0, 0); (1, 1); (5, 5)]]
      [Sample.ex_paris; Sample.ex_paris] [Sample.ft_paris] 101 = Ok preds
    ∧ preds !! 0%nat = Some {| pr_id := "q1"; prediction_text := "";
                               no_answer_probability := 0 |}.
Proof.
  eexists. split; [vm_compute; reflexivity|].
  apply (duplicated_id_gets_empty_prediction 0 Z.add Z.ltb
           IntLogits.argsort [[(0, 0); (1, 1); (5, 5)]]
           [Sample.ex_paris; Sample.ex_paris] [Sample.ft_paris] 101 _
           0 1 Sample.ex_paris Sample.ex_paris);
    [reflexivity|reflexivity|lia|reflexivity|vm_compute; reflexivity].
Defined.

(** * When [postprocess_predictions] returns *)

Lemma for_each_is_Ok {A B} (body : A → B → result B) (l : list A) (st : B) :
  (∀ a st', a ∈ l → is_Ok (body a st')) → is_Ok (for_each body l st).
Proof.
  revert st. induction l as [|a l IH]; intros st H; cbn.
  - by eexists.
  - destruct (H a st) as [st' ->]; [by left|]. cbn.
    apply IH. intros a' st'' Ha'. apply H. by right.
Qed.

Section Returns.
Context {F : Type} (zero : F) (add : F → F → F) (ltb : F → F → bool).
Context (argsort : list F → list nat).
Context (predictions : list (list (F * F))).
Context (dataset : list example) (prepared_dataset : list feature).
Context (cls_token_index : Z).

Lemma null_score_of_is_Ok (fi : nat) (f : feature) :
  prepared_dataset !! fi = Some f →
  is_Ok (null_score_of add prepared_dataset (map (map fst) predictions)
           (map (map snd) predictions) cls_token_index fi)
  ↔ has_null_score predictions cls_token_index fi f.
Proof.
  intros Hf. unfold null_score_of. split.
  - intros [n H]. apply bind_Ok in H as (f' & Hf' & H).
    apply getitem_Ok in Hf'. assert (f' = f) as -> by congruence.
    apply bind_Ok in H as (sl & Hsl & H). apply bind_Ok in H as (el & _ & H).
    unfold feature_null_score in H. apply bind_Ok in H as (ci & Hci & H).
    apply bind_Ok in H as (x & Hx & _). apply getitem_Ok in Hsl, Hx.
    rewrite list_lookup_fmap in Hsl.
    destruct (predictions !! fi) as [row|] eqn:Hrow; [|done].
    injection Hsl as <-. exists row, ci. split_and!; [done..|].
    apply lookup_lt_Some in Hx. by rewrite length_map in Hx.
  - intros (row & ci & Hrow & Hci & Hlt). unfold getitem.
    rewrite Hf, !list_lookup_fmap, Hrow. cbn. unfold feature_null_score.
    rewrite Hci. cbn. unfold getitem. rewrite !list_lookup_fmap.
    destruct (lookup_lt_is_Some_2 row ci Hlt) as [[x y] ->]. cbn.
    by eexists.
Qed.

Hypothesis argsort_range :
  ∀ l, Forall (λ i, i < length l)%nat (argsort l).

Lemma n_best_range (l : list F) (i : nat) :
  i ∈ n_best argsort l → (i < length l)%nat.
Proof.
  unfold n_best. intros Hi. apply elem_of_take in Hi as (j & Hi & _).
  apply list_elem_of_lookup_2, list_elem_of_In, in_rev in Hi.
  pose proof (argsort_range l) as H. rewrite Forall_forall in H.
  by apply H, list_elem_of_In.
Qed.

Lemma consider_span_is_Ok context om (sl el : list F) s e va :
  (s < length sl)%nat → (e < length el)%nat →
  is_Ok (consider_span add context om sl el s e va).
Proof.
  intros Hs He.
  destruct (decide (s < length om ∧ e < length om ∧ s ≤ e
                    ∧ e - s + 1 ≤ max_answer_length)%nat) as [Hc|Hc].
  - rewrite consider_span_keep by done. destruct Hc as (Hos & Hoe & _).
    destruct (getitem_lt om s Hos) as (os & -> & _).
    destruct (getitem_lt om e Hoe) as (oe & -> & _).
    destruct (getitem_lt sl s Hs) as (x & -> & _).
    destruct (getitem_lt el e He) as (y & -> & _). cbn. by eexists.
  - rewrite consider_span_skip by done. by eexists.
Qed.

Lemma process_feature_is_Ok context (fi : nat) (f : feature)
    (st : F * list answer) :
  prepared_dataset !! fi = Some f →
  has_null_score predictions cls_token_index fi f →
  is_Ok (process_feature add ltb argsort prepared_dataset
           (map (map fst) predictions) (map (map snd) predictions)
           cls_token_index context fi st).
Proof.
  intros Hf Hnull.
  pose proof (proj2 (null_score_of_is_Ok fi f Hf) Hnull) as [n Hn].
  unfold null_score_of in Hn. unfold process_feature.
  destruct (getitem prepared_dataset fi) as [f'|]; [cbn in Hn|done].
  destruct (getitem (map (map fst) predictions) fi) as [sl|]; [cbn in Hn|done].
  destruct (getitem (map (map snd) predictions) fi) as [el|]; [cbn in Hn|done].
  cbn -[for_each n_best consider_span]. rewrite Hn.
  cbn -[for_each n_best consider_span].
  destruct (for_each_is_Ok
              (λ s, for_each
                      (consider_span add context (ft_offset_mapping f') sl el
                         s) (n_best argsort el))
              (n_best argsort sl) st.2) as [va ->]; [|by eexists].
  intros s va Hs. apply for_each_is_Ok. intros e va' He.
  apply consider_span_is_Ok; by apply n_best_range.
Qed.
End Returns.

(** X9.  [postprocess_predictions] returns only if every feature of the
    prepared dataset carries the id of an example of the dataset, has a
    row of logits in the predictions, and holds the classifier token at a
    position within that row. *)
Theorem returns_only_if_well_formed {F : Type} (zero : F) (add : F → F → F)
    (ltb : F → F → bool) (argsort : list F → list nat)
    (predictions : list (list (F * F))) (dataset : list example)
    (prepared_dataset : list feature) (cls_token_index : Z)
    (preds : list prediction) :
  postprocess_predictions zero add ltb argsort predictions dataset
    prepared_dataset cls_token_index = Ok preds →
  ∀ fi f, prepared_dataset !! fi = Some f →
    ft_id f ∈ map ex_id dataset
    ∧ ∃ row cls_index,
        predictions !! fi = Some row
        ∧ list_index cls_token_index (ft_input_ids f) = Ok cls_index
        ∧ ft_input_ids f !! cls_index = Some cls_token_index
        ∧ (cls_index < length row)%nat.
Proof.
  intros H fi f Hf.
  apply postprocess_predictions_Ok in H as (_ & fpe & Hfpe & H).
  destruct (group_features_Ok _ _ _ _ _ f Hfpe) as [exi Hexi].
  { by eapply list_elem_of_lookup_2. }
  destruct (id_to_index_example _ _ _ Hexi) as (ex & Hex & Hid).
  split.
  { rewrite <-Hid. apply (list_elem_of_fmap_2 ex_id).
    by eapply list_elem_of_lookup_2. }
  apply examples_loop_Ok in H as [_ H].
  destruct (H _ _ Hex) as (p & _ & Hp). cbn in Hp.
  unfold postprocess_example in Hp. apply bind_Ok in Hp as (st & Hst & _).
  assert (is_Ok (null_score_of add prepared_dataset
                   (map (map fst) predictions) (map (map snd) predictions)
                   cls_token_index fi)) as Hnull.
  { eapply for_each_process_feature_Ok; [exact Hst|].
    apply (group_features_elem _ _ _ _ _ exi fi Hfpe).
    right. exists f. split; [lia|]. by rewrite Nat.sub_0_r. }
  apply (null_score_of_is_Ok add predictions prepared_dataset
           cls_token_index fi f Hf) in Hnull
    as (row & ci & Hrow & Hci & Hlt).
  exists row, ci. split_and!; [done..| |done]. by apply list_index_Ok.
Qed.

Lemma returns_only_if_well_formed_witness :
  ft_id Sample.ft_paris ∈ map ex_id [Sample.ex_paris]
  ∧ ∃ row cls_index,
      [[(0, 0); (1, 1); (5, 5)]] !! 0%nat = Some row
      ∧ list_index 101 (ft_input_ids Sample.ft_paris) = Ok cls_index
      ∧ ft_input_ids Sample.ft_paris !! cls_index = Some 101
      ∧ (cls_index < length row)%nat.
Proof.
  apply (returns_only_if_well_formed 0 Z.add Z.ltb IntLogits.argsort
           [[(0, 0); (1, 1); (5, 5)]] [Sample.ex_paris] [Sample.ft_paris]
           101
           [{| pr_id := "q1"; prediction_text := "Paris";
               no_answer_probability := 0 |}] eq_refl 0%nat Sample.ft_paris
           eq_refl).
Defined.

(** X10.  With an [argsort] that returns positions of its argument,
    [postprocess_predictions] returns, with one prediction per example,
    whenever the predictions make an array of three dimensions and every
    feature of the prepared dataset carries the id of an example of the
    dataset, has a row of logits in the predictions, and holds the
    classifier token at a position within that row. *)
Theorem well_formed_run_returns {F : Type} (zero : F) (add : F → F → F)
    (ltb : F → F → bool) (argsort : list F → list nat)
    (predictions : list (list (F * F))) (dataset : list example)
    (prepared_dataset : list feature) (cls_token_index : Z) :
  (∀ l, Forall (λ i, i < length l)%nat (argsort l)) →
  logits_array predictions = Ok predictions →
  (∀ fi f, prepared_dataset !! fi = Some f →
     ft_id f ∈ map ex_id dataset
     ∧ ∃ row cls_index,
         predictions !! fi = Some row
         ∧ list_index cls_token_index (ft_input_ids f) = Ok cls_index
         ∧ (cls_index < length row)%nat) →
  ∃ preds,
    postprocess_predictions zero add ltb argsort predictions dataset
      prepared_dataset cls_token_index = Ok preds
    ∧ length preds = length dataset.
Proof.
  intros Hargsort Harray Hwf.
  assert (is_Ok (postprocess_predictions zero add ltb argsort predictions
                   dataset prepared_dataset cls_token_index)) as [preds H].
  { rewrite (postprocess_predictions_array _ _ _ _ _ _ _ _ Harray).
    destruct (group_features_is_Ok
                (id_to_index_from 0 (map ex_id dataset) ∅) prepared_dataset
                0 ∅) as [fpe Hfpe].
    { intros f Hf. apply list_elem_of_lookup_1 in Hf as [fi Hfi].
      apply id_to_index_from_elem. by apply (Hwf fi). }
    rewrite Hfpe. cbn. apply examples_loop_is_Ok. intros i ex Hex. cbn.
    unfold postprocess_example, scan_features.
    destruct (for_each_is_Ok
                (process_feature add ltb argsort prepared_dataset
                   (map (map fst) predictions) (map (map snd) predictions)
                   cls_token_index (ex_context ex))
                (default [] (fpe !! i)) (zero, [])) as [st ->];
      [|by eexists].
    intros fi st Hfi.
    apply (group_features_elem _ _ _ _ _ _ _ Hfpe) in Hfi
      as [Hfi|(f & _ & Hf & _)].
    { rewrite lookup_empty in Hfi. by apply elem_of_nil in Hfi. }
    rewrite Nat.sub_0_r in Hf.
    apply (process_feature_is_Ok add ltb argsort predictions prepared_dataset
             cls_token_index Hargsort _ fi f st Hf).
    by apply (Hwf fi f Hf). }
  exists preds. split; [done|].
  apply postprocess_predictions_Ok in H as (_ & fpe & _ & H).
  by apply examples_loop_Ok in H as [Hlen _].
Qed.

Lemma insert_index_perm (l : list Z) (i : nat) (sorted : list nat) :
  IntLogits.insert_index l i sorted ≡ₚ i :: sorted.
Proof.
  induction sorted as [|j sorted IH]; cbn; [done|].
  destruct (nth i l 0 <? nth j l 0); [done|].
  rewrite IH. apply Permutation_swap.
Qed.

(** The stable [argsort] returns a permutation of the positions. *)
Lemma argsort_perm (l : list Z) :
  IntLogits.argsort l ≡ₚ seq 0 (length l).
Proof.
  unfold IntLogits.argsort. generalize (seq 0 (length l)) as idx.
  intros idx.
  assert (∀ acc, fold_left (λ acc i, IntLogits.insert_index l i acc) idx acc
                 ≡ₚ acc ++ idx) as H; [|apply (H [])].
  induction idx as [|i idx IH]; intros acc; cbn.
  - by rewrite app_nil_r.
  - rewrite IH, insert_index_perm. cbn. apply Permutation_middle.
Qed.

Lemma argsort_range (l : list Z) :
  Forall (λ i, i < length l)%nat (IntLogits.argsort l).
Proof.
  rewrite argsort_perm. apply Forall_forall. intros i Hi.
  apply list_elem_of_In, in_seq in Hi. lia.
Qed.

Lemma well_formed_run_returns_witness :
  ∃ preds,
    IntLogits.postprocess_predictions [[(0, 0); (1, 1); (5, 5)]]
      [Sample.ex_paris] [Sample.ft_paris] 101 = Ok preds
    ∧ length preds = length [Sample.ex_paris].
Proof.
  apply (well_formed_run_returns 0 Z.add Z.ltb IntLogits.argsort
           [[(0, 0); (1, 1); (5, 5)]] [Sample.ex_paris] [Sample.ft_paris]
           101 argsort_range eq_refl).
  intros [|fi] f Hf; [|done]. injection Hf as <-. split; [by left|].
  exists [(0, 0); (1, 1); (5, 5)], 0%nat. split_and!; [done..|cbn; lia].
Defined.

(** * The best positions *)

Lemma n_best_among_best {F : Type} (ltb : F → F → bool)
    (argsort : list F → list nat) (logits : list F) (i : nat) :
  (∀ x, ltb x x = false) →
  sorts ltb argsort →
  i ∈ n_best argsort logits →
  among_best ltb n_best_size logits i.
Proof.
  intros Hirr Hsorts Hi. destruct (Hsorts logits) as [Hperm Hsorted].
  unfold n_best in Hi. apply list_elem_of_lookup_1 in Hi as [k Hk].
  apply lookup_take_Some in Hk as [Hk Hlt].
  pose proof (take_drop_middle _ _ _ Hk) as Hsplit.
  assert (argsort logits
          = rev (drop (S k) (rev (argsort logits))) ++
            i :: rev (take k (rev (argsort logits)))) as Heq.
  { rewrite <-(rev_involutive (argsort logits)) at 1. rewrite <-Hsplit at 1.
    rewrite rev_app_distr. cbn. by rewrite <-app_assoc. }
  split.
  - assert (i ∈ seq 0 (length logits)) as Hin.
    { rewrite <-Hperm, Heq. apply elem_of_app. right. by left. }
    apply list_elem_of_In, in_seq in Hin. lia.
  - intros above Hnodup Habove.
    assert (above ⊆+ take k (rev (argsort logits))) as Hsub.
    { apply NoDup_submseteq; [done|]. intros j Hj.
      destruct (Habove j Hj) as (x & y & Hx & Hy & Hxy).
      assert (j ∈ argsort logits) as Hjin.
      { rewrite Hperm. apply list_elem_of_In, in_seq.
        apply lookup_lt_Some in Hy. lia. }
      rewrite Heq in Hjin. apply elem_of_app in Hjin as [Hjin|Hjin].
      - rewrite Heq in Hsorted.
        pose proof (StronglySorted_app_1_elem_of _ _ _ j i Hsorted Hjin)
          as HR.
        rewrite (HR ltac:(by left) y x Hy Hx) in Hxy. done.
      - apply elem_of_cons in Hjin as [->|Hjin].
        + assert (x = y) as -> by congruence. by rewrite Hirr in Hxy.
        + apply list_elem_of_In. apply list_elem_of_In in Hjin.
          by apply in_rev. }
    apply submseteq_length in Hsub. rewrite length_take in Hsub.
    unfold n_best_size in *. lia.
Qed.

Lemma insert_index_sorted (l : list Z) (i : nat) (sorted : list nat) :
  StronglySorted (λ i j, nth i l 0 ≤ nth j l 0) sorted →
  StronglySorted (λ i j, nth i l 0 ≤ nth j l 0)
    (IntLogits.insert_index l i sorted).
Proof.
  induction sorted as [|j sorted IH]; intros Hs; cbn.
  - by repeat constructor.
  - apply StronglySorted_inv in Hs as [Hs Hj].
    destruct (nth i l 0 <? nth j l 0) eqn:Hlt.
    + apply Z.ltb_lt in Hlt. constructor; [by constructor|].
      constructor; [lia|]. eapply Forall_impl; [exact Hj|]. cbn. lia.
    + apply Z.ltb_ge in Hlt. constructor; [by apply IH|].
      rewrite insert_index_perm. by constructor.
Qed.

Lemma StronglySorted_weaken {A : Type} (R R' : A → A → Prop) (l : list A) :
  (∀ x y, R x y → R' x y) → StronglySorted R l → StronglySorted R' l.
Proof.
  intros HR Hs. induction Hs as [|x l Hs IH Hx]; constructor; [done|].
  eapply Forall_impl; [exact Hx|]. intros y. apply HR.
Qed.

(** The stable [argsort] sorts. *)
Lemma argsort_sorts : sorts Z.ltb IntLogits.argsort.
Proof.
  intros l. split; [apply argsort_perm|].
  assert (StronglySorted (λ i j, nth i l 0 ≤ nth j l 0)
            (IntLogits.argsort l)) as Hs.
  { unfold IntLogits.argsort. generalize (seq 0 (length l)) as idx.
    intros idx.
    assert (∀ acc, StronglySorted (λ i j, nth i l 0 ≤ nth j l 0) acc →
              StronglySorted (λ i j, nth i l 0 ≤ nth j l 0)
                (fold_left (λ acc i, IntLogits.insert_index l i acc) idx
                   acc)) as H; [|apply H; constructor].
    induction idx as [|i idx IH]; intros acc Hacc; cbn; [done|].
    apply IH. by apply insert_index_sorted. }
  eapply StronglySorted_weaken; [|exact Hs].
  intros i j Hij x y Hx Hy. cbn in Hij.
  rewrite (nth_lookup_Some _ _ 0 _ Hx), (nth_lookup_Some _ _ 0 _ Hy) in Hij.
  apply Z.ltb_ge. lia.
Qed.

(** X3.  With an [argsort] that sorts, on scores whose [<] is irreflexive,
    every answer that the scan of the features of an example records comes
    from one of these features: its score is the sum of a start logit and
    an end logit of the feature, at two positions no more than
    [max_answer_length] apart, each among the [n_best_size] best (fewer
    than [n_best_size] positions hold a greater logit), and its text is
    the slice of the context between the character bounds of the two
    positions. *)
Theorem answers_come_from_features {F : Type} (zero : F) (add : F → F → F)
    (ltb : F → F → bool) (argsort : list F → list nat)
    (prepared_dataset : list feature)
    (all_start_logits all_end_logits : list (list F)) (cls_token_index : Z)
    (context : string) (feature_indices : list nat)
    (min_null : F) (valid : list answer) :
  (∀ x, ltb x x = false) →
  sorts ltb argsort →
  scan_features zero add ltb argsort prepared_dataset all_start_logits
    all_end_logits cls_token_index context feature_indices
  = Ok (min_null, valid) →
  ∀ a, a ∈ valid →
    ∃ feature_index features start_logits end_logits start_index end_index,
      feature_index ∈ feature_indices
      ∧ prepared_dataset !! feature_index = Some features
      ∧ all_start_logits !! feature_index = Some start_logits
      ∧ all_end_logits !! feature_index = Some end_logits
      ∧ start_index ∈ n_best argsort start_logits
      ∧ end_index ∈ n_best argsort end_logits
      ∧ among_best ltb n_best_size start_logits start_index
      ∧ among_best ltb n_best_size end_logits end_index
      ∧ answer_of_span add context (ft_offset_mapping features) start_logits
          end_logits start_index end_index a.
Proof.
  intros Hirr Hsorts H a Ha. unfold scan_features in H.
  apply scan_from_answers in H as (new & Hnew & _ & Hall).
  cbn in Hnew. subst valid. rewrite Forall_forall in Hall.
  destruct (Hall a Ha) as (fi & Hfi & f & sl & el & s & e & Hf & Hsl & Hel
                           & Hs & He & Hspan).
  exists fi, f, sl, el, s, e.
  split_and!; [done..| | |done]; by eapply n_best_among_best.
Qed.

Lemma answers_come_from_features_witness :
  ∃ feature_index features start_logits end_logits start_index end_index,
    feature_index ∈ [0%nat]
    ∧ [Sample.ft_paris] !! feature_index = Some features
    ∧ [[0; 1; 5]] !! feature_index = Some start_logits
    ∧ [[0; 1; 5]] !! feature_index = Some end_logits
    ∧ start_index ∈ n_best IntLogits.argsort start_logits
    ∧ end_index ∈ n_best IntLogits.argsort end_logits
    ∧ among_best Z.ltb n_best_size start_logits start_index
    ∧ among_best Z.ltb n_best_size end_logits end_index
    ∧ answer_of_span Z.add (ex_context Sample.ex_paris)
        (ft_offset_mapping features) start_logits end_logits start_index
        end_index {| score := 10; text := "Paris" |}.
Proof.
  apply (answers_come_from_features 0 Z.add Z.ltb IntLogits.argsort
           [Sample.ft_paris] [[0; 1; 5]] [[0; 1; 5]] 101
           (ex_context Sample.ex_paris) [0%nat] 0 Sample.answers_paris).
  - intros x. apply Z.ltb_irrefl.
  - exact argsort_sorts.
  - vm_compute. reflexivity.
  - by left.
Defined.

(** * Further properties of the feature builder *)

Lemma mask_offsets_is_Ok (sequence_ids : list (option Z)) (k : nat)
    (offsets : list (Z * Z)) :
  (k + length offsets ≤ length sequence_ids)%nat →
  is_Ok (mask_offsets sequence_ids k offsets).
Proof.
  revert k. induction offsets as [|o offsets IH]; intros k Hk; cbn.
  - by eexists.
  - destruct (getitem_lt sequence_ids k) as (sid & -> & _);
      [cbn in Hk; lia|]. cbn.
    destruct (IH (S k)) as [rest ->]; [cbn in Hk; lia|]. by eexists.
Qed.

Lemma mask_offsets_Ok_length (sequence_ids : list (option Z)) (k : nat)
    (offsets masked : list (Z * Z)) :
  mask_offsets sequence_ids k offsets = Ok masked →
  offsets = [] ∨ (k + length offsets ≤ length sequence_ids)%nat.
Proof.
  revert k masked. induction offsets as [|o offsets IH]; intros k masked H.
  - by left.
  - right. cbn in H. apply bind_Ok in H as (sid & Hsid & H).
    apply bind_Ok in H as (rest & Hrest & _). apply getitem_Ok in Hsid.
    apply lookup_lt_Some in Hsid.
    apply IH in Hrest as [->|Hrest]; cbn; lia.
Qed.

Lemma mask_offsets_Raise (sequence_ids : list (option Z)) (k : nat)
    (offsets : list (Z * Z)) (e : exn) :
  mask_offsets sequence_ids k offsets = Raise e → e = IndexError.
Proof.
  revert k. induction offsets as [|o offsets IH]; intros k H; [done|].
  cbn in H. unfold getitem in H.
  destruct (sequence_ids !! k); [cbn in H|by injection H as <-].
  destruct (mask_offsets sequence_ids (S k) offsets) eqn:Hrest; [done|].
  cbn in H. injection H as <-. by eapply IH.
Qed.

Section WindowIds.
Context (ids : list string) (tk : tokenized).

Lemma prepare_window_Raise (i : nat)
    (st : list string * list (list (Z * Z))) (e : exn) :
  prepare_window ids tk i st = Raise e → e = IndexError.
Proof.
  unfold prepare_window, getitem. intros H.
  destruct (tk_sequence_ids tk !! i); [cbn in H|by injection H as <-].
  destruct (tk_overflow_to_sample_mapping tk !! i) as [si|];
    [cbn in H|by injection H as <-].
  destruct (ids !! si); [cbn in H|by injection H as <-].
  destruct (st.2 !! i); [cbn in H|by injection H as <-].
  destruct (mask_offsets _ 0 _) eqn:Hm; [done|].
  cbn in H. injection H as <-. by eapply mask_offsets_Raise.
Qed.

Lemma prepare_windows_Raise (l : list nat)
    (st : list string * list (list (Z * Z))) (e : exn) :
  for_each (prepare_window ids tk) l st = Raise e → e = IndexError.
Proof.
  revert st. induction l as [|i l IH]; intros st H; [done|]. cbn in H.
  destruct (prepare_window ids tk i st) as [st1|e1] eqn:H1.
  - by eapply IH.
  - cbn in H. injection H as <-. by eapply prepare_window_Raise.
Qed.

(** The loop appends the id of the example of each window. *)
Lemma prepare_windows_ids (n a : nat)
    (st st' : list string * list (list (Z * Z))) :
  for_each (prepare_window ids tk) (seq a n) st = Ok st' →
  ∃ new, st'.1 = st.1 ++ new
    ∧ Forall2 (λ i id, ∃ sample_index,
                 tk_overflow_to_sample_mapping tk !! i = Some sample_index
                 ∧ ids !! sample_index = Some id) (seq a n) new.
Proof.
  revert a st. induction n as [|n IH]; intros a st H; cbn in H.
  - injection H as <-. exists []. by rewrite app_nil_r.
  - apply bind_Ok in H as (st1 & H1 & H).
    apply IH in H as (new & Hnew & Hall).
    unfold prepare_window in H1.
    apply bind_Ok in H1 as (sids & _ & H1).
    apply bind_Ok in H1 as (si & Hsi & H1).
    apply bind_Ok in H1 as (id & Hid & H1).
    apply bind_Ok in H1 as (offsets & _ & H1).
    apply bind_Ok in H1 as (masked & _ & [= <-]).
    apply getitem_Ok in Hsi, Hid. cbn in Hnew.
    exists (id :: new). rewrite Hnew, <-app_assoc. split; [done|].
    constructor; [by exists si|done].
Qed.

(** The loop over the windows [a], ..., [a + n - 1] returns when these
    windows are well formed. *)
Lemma prepare_windows_is_Ok (n a : nat)
    (st : list string * list (list (Z * Z))) :
  (∀ i, (a ≤ i < a + n)%nat →
     ∃ sequence_ids sample_index offsets,
       tk_sequence_ids tk !! i = Some sequence_ids
       ∧ tk_overflow_to_sample_mapping tk !! i = Some sample_index
       ∧ (sample_index < length ids)%nat
       ∧ st.2 !! i = Some offsets
       ∧ (length offsets ≤ length sequence_ids)%nat) →
  is_Ok (for_each (prepare_window ids tk) (seq a n) st).
Proof.
  revert a st. induction n as [|n IH]; intros a st H.
  - by eexists.
  - destruct (H a) as (sids & si & offsets & Hsids & Hsi & Hlt & Hoffs & Hlen);
      [lia|].
    destruct (lookup_lt_is_Some_2 ids si Hlt) as [id Hid].
    destruct (mask_offsets_is_Ok sids 0 offsets) as [masked Hm]; [lia|].
    assert (prepare_window ids tk a st
            = Ok (st.1 ++ [id], <[a := masked]> st.2)) as H1.
    { unfold prepare_window, getitem. rewrite Hsids, Hsi. cbn.
      rewrite Hid. cbn. rewrite Hoffs. cbn. by rewrite Hm. }
    change (seq a (S n)) with (a :: seq (S a) n). cbn [for_each].
    rewrite H1. cbn [mbind result_bind].
    apply IH. intros i Hi. cbn.
    destruct (H i) as (sids' & si' & offsets' & ? & ? & ? & Hoffs' & ?);
      [lia|].
    exists sids', si', offsets'. split_and!; [done..| |done].
    rewrite list_lookup_insert_ne by lia. done.
Qed.
End WindowIds.

(** X11.  When [prepare_test_examples] returns, it has attached one id to
    every window: the id of the example that the tokenizer reports for the
    window in [overflow_to_sample_mapping]. *)
Theorem windows_carry_the_id_of_their_example (model_max_length : Z)
    (tokenizer : list string → list string → Z → Z → tokenized)
    (examples : list example) (out : prepared) :
  prepare_test_examples model_max_length tokenizer examples = Ok out →
  let stride := model_max_length `div` 4 in
  let tk := tokenizer (map (λ ex, lstrip (ex_question ex)) examples)
              (map ex_context examples) (model_max_length - stride) stride in
  length (pp_id out) = length (pp_input_ids out)
  ∧ ∀ i window, pp_input_ids out !! i = Some window →
      ∃ sample_index ex,
        tk_overflow_to_sample_mapping tk !! i = Some sample_index
        ∧ examples !! sample_index = Some ex
        ∧ pp_id out !! i = Some (ex_id ex).
Proof.
  intros H stride tk. unfold prepare_test_examples in H.
  fold stride tk in H. apply bind_Ok in H as (st & Hst & [= <-]). cbn.
  apply prepare_windows_ids in Hst as (new & Hnew & Hall). cbn in Hnew.
  rewrite Hnew. pose proof (Forall2_length _ _ _ Hall) as Hlen.
  rewrite length_seq in Hlen. split; [done|]. intros i window Hi.
  apply lookup_lt_Some in Hi.
  destruct (lookup_lt_is_Some_2 new i) as [id Hid]; [lia|].
  assert (seq 0 (length (tk_input_ids tk)) !! i = Some i) as Hseq.
  { by rewrite lookup_seq. }
  destruct (Forall2_lookup_lr _ _ _ _ _ _ Hall Hseq Hid) as (si & Hsi & Hex).
  rewrite list_lookup_fmap in Hex.
  destruct (examples !! si) as [ex|] eqn:Hexs; [|done]. injection Hex as <-.
  by exists si, ex.
Qed.

Lemma windows_carry_the_id_of_their_example_witness :
  length ["q1"] = length [[101; 7; 102; 8; 102; 0]]
  ∧ ∀ i window, [[101; 7; 102; 8; 102; 0]] !! i = Some window →
      ∃ sample_index ex,
        [0%nat] !! i = Some sample_index
        ∧ [Sample.ex_paris] !! sample_index = Some ex
        ∧ ["q1"] !! i = Some (ex_id ex).
Proof.
  apply (windows_carry_the_id_of_their_example 8 Sample.tokenizer
           [Sample.ex_paris]
           {| pp_input_ids := [[101; 7; 102; 8; 102; 0]];
              pp_offset_mapping :=
                [[SENTINEL; SENTINEL; SENTINEL; (0, 5); SENTINEL; SENTINEL]];
              pp_id := ["q1"] |}).
  reflexivity.
Defined.

(** X12.  When the call of the tokenizer returns [tk] (the call itself may
    raise, on which this says nothing), [prepare_test_examples] returns
    exactly when [tk] is well formed: every window has its sequence ids,
    the index of an example of the batch, and offsets with a sequence id
    for every position.  The loop over the windows completes exactly then,
    and the only exception that the loop raises otherwise is
    [IndexError]. *)
Theorem prepare_test_examples_returns_iff (model_max_length : Z)
    (tokenizer : list string → list string → Z → Z → tokenized)
    (examples : list example) (tk : tokenized) :
  let stride := model_max_length `div` 4 in
  tokenizer (map (λ ex, lstrip (ex_question ex)) examples)
    (map ex_context examples) (model_max_length - stride) stride = tk →
  let windows :=
    for_each (prepare_window (map ex_id examples) tk)
      (seq 0 (length (tk_input_ids tk))) ([], tk_offset_mapping tk) in
  let well_formed :=
    windows_well_formed (map ex_id examples) tk (length (tk_input_ids tk)) in
  (is_Ok (prepare_test_examples model_max_length tokenizer examples)
   ↔ well_formed)
  ∧ (is_Ok windows ↔ well_formed)
  ∧ ∀ e, windows = Raise e → e = IndexError.
Proof.
  intros stride Htk windows well_formed.
  assert (is_Ok windows ↔ well_formed) as Hiff.
  { split.
    - intros [st Hst] i Hi.
      pose proof (prepare_windows_ids _ _ _ _ _ _ Hst) as (new & _ & Hall).
      apply prepare_windows_Ok in Hst as (_ & _ & Hin).
      destruct (Hin i) as (sids & offsets & masked & Hsids & Hoffs & Hm & _);
        [lia|].
      assert (seq 0 (length (tk_input_ids tk)) !! i = Some i) as Hseq.
      { by rewrite lookup_seq. }
      destruct (Forall2_lookup_l _ _ _ _ _ Hall Hseq)
        as (id & _ & si & Hsi & Hid).
      exists sids, si, offsets. split_and!; [done..| |done|].
      + by eapply lookup_lt_Some.
      + apply mask_offsets_Ok_length in Hm as [->|Hm]; cbn; lia.
    - intros Hwf. apply prepare_windows_is_Ok.
      intros i Hi. destruct (Hwf i) as (sids & si & offs & ?); [lia|].
      by exists sids, si, offs. }
  split_and!; [|done|].
  - rewrite <-Hiff. unfold prepare_test_examples. fold stride.
    rewrite Htk. fold windows.
    split; intros [out H].
    + apply bind_Ok in H as (st & Hst & _). by exists st.
    + rewrite H. by eexists.
  - intros e H. by eapply prepare_windows_Raise.
Qed.

Lemma prepare_test_examples_returns_iff_witness :
  is_Ok (prepare_test_examples 8 Sample.tokenizer [Sample.ex_paris])
  ↔ windows_well_formed ["q1"]
      (Sample.tokenizer ["Which city?"] ["Paris is nice"] 6 2) 1.
Proof.
  apply (prepare_test_examples_returns_iff 8 Sample.tokenizer
           [Sample.ex_paris]
           (Sample.tokenizer ["Which city?"] ["Paris is nice"] 6 2)).
  reflexivity.
Defined.

Lemma lstrip_app (w q : string) :
  lstrip w = EmptyString → lstrip (w +:+ q)%string = lstrip q.
Proof.
  induction w as [|c w IH]; intros H; [done|].
  change (String c w +:+ q)%string with (String c (w +:+ q)%string).
  cbn [lstrip] in *. destruct (is_space c); [by apply IH|done].
Qed.

(** X13.  Whitespace in front of the questions is ignored: a batch whose
    questions are preceded by a string of whitespace gives the windows,
    the offsets and the ids of the batch without it. *)
Theorem leading_whitespace_of_questions_is_ignored (model_max_length : Z)
    (tokenizer : list string → list string → Z → Z → tokenized)
    (examples : list example) (w : string) :
  lstrip w = EmptyString →
  prepare_test_examples model_max_length tokenizer
    (map (prefix_question w) examples)
  = prepare_test_examples model_max_length tokenizer examples.
Proof.
  intros Hw. unfold prepare_test_examples. rewrite !map_map. cbn.
  replace (map (λ ex, lstrip (w +:+ ex_question ex)%string) examples)
    with (map (λ ex, lstrip (ex_question ex)) examples); [done|].
  apply map_ext. intros ex. by rewrite lstrip_app.
Qed.

Lemma leading_whitespace_of_questions_is_ignored_witness :
  prepare_test_examples 8 Sample.tokenizer
    (map (prefix_question "  ") [Sample.ex_paris])
  = prepare_test_examples 8 Sample.tokenizer [Sample.ex_paris].
Proof.
  apply (leading_whitespace_of_questions_is_ignored 8 Sample.tokenizer
           [Sample.ex_paris] "  ").
  reflexivity.
Defined.

(** * Further properties of the label canonicalisation *)

Lemma upper_ascii_idemp (c : ascii) :
  upper_ascii (upper_ascii c) = upper_ascii c.
Proof. by destruct c as [[] [] [] [] [] [] [] []]. Qed.

Lemma upper_idemp (s : string) : upper (upper s) = upper s.
Proof.
  induction s as [|c s IH]; [done|]. cbn. by rewrite upper_ascii_idemp, IH.
Qed.

Lemma lookup_labels_upper (label2id : gmap string Z)
    (labels labels' : list string) :
  map upper labels' = map upper labels →
  lookup_labels label2id labels' = lookup_labels label2id labels.
Proof.
  revert labels'. induction labels as [|l labels IH]; intros [|l' labels'] H;
    try done.
  cbn in H. injection H as Hl H. cbn. rewrite Hl.
  destruct (label2id !! upper l); [|done]. by rewrite (IH labels').
Qed.

Lemma lookup_labels_length (label2id : gmap string Z) (labels : list string)
    (ids : list Z) :
  lookup_labels label2id labels = Ok ids → length ids = length labels.
Proof.
  intros H. apply lookup_labels_Ok in H. symmetry.
  by eapply Forall2_length.
Qed.

(** X14.  The translation of the labels looks only at their uppercased
    forms: two batches of labels that agree up to the case of the ASCII
    letters are translated alike, to the same ids or to the same error; in
    particular a batch is translated like the batch of its uppercased
    labels.  A translation that returns gives one id per label. *)
Theorem create_numerical_labels_ignores_case (label2id : gmap string Z)
    (labels : list string) :
  (∀ labels', map upper labels' = map upper labels →
     _create_numerical_labels labels' label2id
     = _create_numerical_labels labels label2id)
  ∧ _create_numerical_labels (map upper labels) label2id
    = _create_numerical_labels labels label2id
  ∧ ∀ ids, _create_numerical_labels labels label2id = Ok ids →
      length ids = length labels.
Proof.
  assert (∀ labels', map upper labels' = map upper labels →
            _create_numerical_labels labels' label2id
            = _create_numerical_labels labels label2id) as H.
  { intros labels' Heq. unfold _create_numerical_labels, missing_labels.
    by rewrite (lookup_labels_upper _ _ _ Heq), Heq. }
  split_and!; [done| |].
  - apply H. rewrite map_map. apply map_ext. intros l. apply upper_idemp.
  - intros ids Hids. unfold _create_numerical_labels in Hids.
    destruct (lookup_labels label2id labels) as [ids'|e] eqn:Hl.
    + injection Hids as <-. by eapply lookup_labels_length.
    + apply lookup_labels_Raise in Hl as ->.
      by destruct (getitem (missing_labels label2id labels) 0).
Qed.

(** * The callers of the two tasks *)

(** X15.  [_prepare_predictions_and_labels] raises [KeyError] when
    [cls_token_index] is not among the keyword arguments, whatever the
    data.  When it returns, it returns one pair of predictions and labels,
    which are lists of the length of the dataset that carry the same ids
    at the same positions. *)
Theorem prepare_predictions_and_labels_spec {F : Type} (zero : F)
    (add : F → F → F) (ltb : F → F → bool) (argsort : list F → list nat)
    (predictions : list (list (F * F))) (dataset : list example)
    (prepared_dataset : list feature) (kwargs : gmap string Z) :
  let prepared := _prepare_predictions_and_labels zero add ltb argsort
                    predictions dataset prepared_dataset kwargs in
  (kwargs !! "cls_token_index" = None → prepared = Raise KeyError)
  ∧ ∀ pairs, prepared = Ok pairs →
      ∃ preds labels,
        pairs = [(preds, labels)]
        ∧ labels = postprocess_labels dataset
        ∧ length preds = length dataset
        ∧ length labels = length dataset
        ∧ map pr_id preds = map lb_id labels.
Proof.
  intros prepared. unfold prepared, _prepare_predictions_and_labels. split.
  - by intros ->.
  - intros pairs H. destruct (kwargs !! "cls_token_index") as [cls|]; [|done].
    apply bind_Ok in H as (preds & Hpreds & [= <-]).
    apply postprocess_predictions_Ok in Hpreds as (_ & fpe & _ & Hloop).
    pose proof (examples_loop_ids _ _ _ _ _ _ _ _ _ _ _ _ Hloop) as Hids.
    apply examples_loop_Ok in Hloop as [Hlen _].
    exists preds, (postprocess_labels dataset).
    unfold postprocess_labels. rewrite length_map, map_map.
    by split_and!.
Qed.

Lemma prepare_predictions_and_labels_spec_witness :
  ∃ preds labels,
    [([{| pr_id := "q1"; prediction_text := "Paris";
          no_answer_probability := 0 |}],
      postprocess_labels [Sample.ex_paris])] = [(preds, labels)]
    ∧ labels = postprocess_labels [Sample.ex_paris]
    ∧ length preds = length [Sample.ex_paris]
    ∧ length labels = length [Sample.ex_paris]
    ∧ map pr_id preds = map lb_id labels.
Proof.
  apply (prepare_predictions_and_labels_spec 0 Z.add Z.ltb IntLogits.argsort
           [[(0, 0); (1, 1); (5, 5)]] [Sample.ex_paris] [Sample.ft_paris]
           {["cls_token_index" := 101]}).
  vm_compute. reflexivity.
Defined.

Lemma feature_columns_is_Some (examples : gmap string (list string))
    (names : list string) :
  is_Some (feature_columns examples names)
  ↔ Forall (λ n, is_Some (examples !! n)) names.
Proof.
  unfold feature_columns. induction names as [|n names IH]; cbn.
  - split; [constructor|by eexists].
  - rewrite Forall_cons, <-IH.
    destruct (examples !! n) as [c|]; cbn.
    + destruct (mapM _ names); cbn; split.
      * intros _. split; by eexists.
      * by eexists.
      * by intros [].
      * by intros [_ []].
    + split; [by intros []|by intros [[] _]].
Qed.

(** X16.  [tokenise] returns exactly when the batch has all the feature
    columns and the label column.  It then returns the columns of the
    tokenizer, called on the feature columns in the order of their names,
    with the labels of the batch under "labels", in place of a column of
    that name from the tokenizer.  Otherwise it raises
    [WrongFeatureColumnName] with the names of the feature columns, also
    when the label column is the one that is missing. *)
Theorem tokenise_spec
    (tokenizer : list (list string) → gmap string (list (list Z)))
    (feature_column_names : list string) (label_column_name : string)
    (examples : gmap string (list string)) :
  let tokenised :=
    tokenise tokenizer feature_column_names label_column_name examples in
  (∀ out, tokenised = inr out →
     ∃ columns labels,
       Forall2 (λ n c, examples !! n = Some c) feature_column_names columns
       ∧ examples !! label_column_name = Some labels
       ∧ out !! "labels" = Some (Labels labels)
       ∧ ∀ n, n ≠ "labels" → out !! n = Tokens <$> tokenizer columns !! n)
  ∧ (Forall (λ n, is_Some (examples !! n)) feature_column_names
     ∧ is_Some (examples !! label_column_name)
     ↔ ∃ out, tokenised = inr out)
  ∧ ∀ e, tokenised = inl e → e = WrongFeatureColumnName feature_column_names.
Proof.
  intros tokenised. unfold tokenised, tokenise. split_and!.
  - intros out H.
    destruct (feature_columns examples feature_column_names) as [cols|] eqn:Hc;
      [|done].
    destruct (examples !! label_column_name) as [labels|]; [|done].
    injection H as <-. exists cols, labels. split_and!; [|done| |].
    + unfold feature_columns in Hc. by apply mapM_Some in Hc.
    + apply lookup_insert_eq.
    + intros n Hn. by rewrite lookup_insert_ne, lookup_fmap.
  - rewrite <-feature_columns_is_Some. split.
    + intros [[cols ->] [labels ->]]. by eexists.
    + intros [out H].
      destruct (feature_columns examples feature_column_names); [|done].
      destruct (examples !! label_column_name); [|done]. by split.
  - intros e H.
    destruct (feature_columns examples feature_column_names);
      [|by injection H as <-].
    destruct (examples !! label_column_name); [done|by injection H as <-].
Qed.

(** X17.  What [_check_if_model_is_trained_for_task] does on every shape
    of the first element of the first prediction: true for a non-empty
    string, the test "two elements, the first a float" for a non-empty
    list, [TypeError] for a number and [IndexError] for an empty string or
    list.  So the check returns false only for a non-empty list that is
    not a pair with a float in front. *)
Theorem check_if_model_is_trained_for_task_cases :
  (∀ x l rest others,
     _check_if_model_is_trained_for_task
       (PyList (PyList (PyList (x :: l) :: rest) :: others))
     = Ok (bool_decide (length l = 1%nat) && is_float x))
  ∧ (∀ c s rest others,
       _check_if_model_is_trained_for_task
         (PyList (PyList (PyStr (String c s) :: rest) :: others)) = Ok true)
  ∧ (∀ elt rest others,
       elt = PyStr EmptyString ∨ elt = PyList [] →
       _check_if_model_is_trained_for_task
         (PyList (PyList (elt :: rest) :: others)) = Raise IndexError)
  ∧ (∀ elt rest others,
       (∃ z, elt = PyInt z) ∨ (∃ x, elt = PyFloat x) →
       _check_if_model_is_trained_for_task
         (PyList (PyList (elt :: rest) :: others)) = Raise TypeError)
  ∧ (∀ model_predictions,
       _check_if_model_is_trained_for_task model_predictions = Ok false →
       ∃ x l rest others,
         model_predictions
         = PyList (PyList (PyList (x :: l) :: rest) :: others)
         ∧ (length l ≠ 1%nat ∨ is_float x = false)).
Proof.
  split_and!.
  - intros x l rest others.
    apply (check_on_sequence (PyList (x :: l)) rest others).
  - intros c s rest others.
    apply (check_on_sequence (PyStr (String c s)) rest others).
  - by intros elt rest others [-> | ->].
  - by intros elt rest others [[z ->]|[x ->]].
  - intros mp H. unfold _check_if_model_is_trained_for_task in H.
    destruct mp as [| |[|c s]|[|sample others]];
      try (cbn in H; rewrite ?orb_true_r in H; done).
    destruct sample as [| |[|c s]|[|elt rest]];
      try (cbn in H; rewrite ?orb_true_r in H; done).
    destruct elt as [| |[|c s]|[|x l]];
      try (cbn in H; rewrite ?orb_true_r in H; done).
    exists x, l, rest, others. split; [done|].
    cbn in H. rewrite orb_false_r in H. injection H as H.
    apply andb_false_iff in H as [H|H]; [left|by right].
    apply bool_decide_eq_false in H. lia.
Qed.

(** * The task configurations *)

Lemma by_name_snoc (cfgs : list TaskConfigs.TaskConfig)
    (c : TaskConfigs.TaskConfig) :
  TaskConfigs.by_name (cfgs ++ [c])
  = <[TaskConfigs.task_name c := c]> (TaskConfigs.by_name cfgs).
Proof. unfold TaskConfigs.by_name. by rewrite fold_left_app. Qed.

Lemma by_name_Some (cfgs : list TaskConfigs.TaskConfig) (n : string)
    (cfg : TaskConfigs.TaskConfig) :
  TaskConfigs.by_name cfgs !! n = Some cfg →
  cfg ∈ cfgs ∧ TaskConfigs.task_name cfg = n.
Proof.
  induction cfgs as [|c cfgs IH] using rev_ind; intros H; [done|].
  rewrite by_name_snoc in H. rewrite elem_of_app, list_elem_of_singleton.
  destruct (decide (TaskConfigs.task_name c = n)) as [Hc|Hc].
  - rewrite <-Hc, lookup_insert_eq in H. injection H as <-. by split; [right|].
  - rewrite lookup_insert_ne in H by done. apply IH in H as [H1 H2].
    by split; [left|].
Qed.

Lemma by_name_NoDup (cfgs : list TaskConfigs.TaskConfig)
    (cfg : TaskConfigs.TaskConfig) :
  NoDup (map TaskConfigs.task_name cfgs) →
  cfg ∈ cfgs →
  TaskConfigs.by_name cfgs !! TaskConfigs.task_name cfg = Some cfg.
Proof.
  induction cfgs as [|c cfgs IH] using rev_ind; intros Hnd Hin.
  - by apply elem_of_nil in Hin.
  - rewrite map_app in Hnd. apply NoDup_app in Hnd as (Hnd & Hc & _).
    rewrite by_name_snoc.
    apply elem_of_app in Hin as [Hin|Hin].
    + rewrite lookup_insert_ne; [by apply IH|]. intros Heq.
      apply (Hc (TaskConfigs.task_name cfg)).
      * by apply (list_elem_of_fmap_2 TaskConfigs.task_name).
      * rewrite <-Heq. by left.
    + apply list_elem_of_singleton in Hin as ->. apply lookup_insert_eq.
Qed.

(** X18.  A dictionary of configurations by name holds, under a name, a
    configuration of that name from the list, and holds every
    configuration of the list when the names are distinct.  The two
    configurations of the module have distinct names, so
    [get_all_task_configs] maps "ner" to [NER], "sent" to [SENT] and no
    other name. *)
Theorem get_all_task_configs_spec :
  (∀ cfgs n cfg,
     TaskConfigs.by_name cfgs !! n = Some cfg →
     cfg ∈ cfgs ∧ TaskConfigs.task_name cfg = n)
  ∧ (∀ cfgs cfg,
       NoDup (map TaskConfigs.task_name cfgs) → cfg ∈ cfgs →
       TaskConfigs.by_name cfgs !! TaskConfigs.task_name cfg = Some cfg)
  ∧ NoDup (map TaskConfigs.task_name TaskConfigs.task_config_globals)
  ∧ ∀ n, TaskConfigs.get_all_task_configs !! n
         = if decide (n = "ner") then Some TaskConfigs.NER
           else if decide (n = "sent") then Some TaskConfigs.SENT
           else None.
Proof.
  assert (NoDup (map TaskConfigs.task_name TaskConfigs.task_config_globals))
    as Hnd.
  { apply (bool_decide_unpack _). by vm_compute. }
  split_and!; [apply by_name_Some|apply by_name_NoDup|done|].
  intros n. unfold TaskConfigs.get_all_task_configs.
  destruct (decide (n = "ner")) as [->|Hner].
  { apply (by_name_NoDup _ TaskConfigs.NER Hnd). by left. }
  destruct (decide (n = "sent")) as [->|Hsent].
  { apply (by_name_NoDup _ TaskConfigs.SENT Hnd). right. by left. }
  destruct (TaskConfigs.by_name _ !! n) as [cfg|] eqn:H; [|done].
  apply by_name_Some in H as [Hin Hn].
  apply elem_of_cons in Hin as [->|Hin]; [done|].
  apply list_elem_of_singleton in Hin as ->. done.
Qed.

(** X19.  In each task configuration of the module, the names and the
    synonyms of the labels are pairwise distinct, so no string stands for
    two labels, and each of them is its own uppercased form, the form
    under which a raw label is looked up. *)
Theorem label_strings_are_unambiguous (cfg : TaskConfigs.TaskConfig) :
  cfg ∈ TaskConfigs.task_config_globals →
  NoDup (TaskConfigs.label_strings cfg)
  ∧ Forall (λ s, upper s = s) (TaskConfigs.label_strings cfg).
Proof.
  intros Hin. apply elem_of_cons in Hin as [->|Hin].
  - split; apply (bool_decide_unpack _); by vm_compute.
  - apply list_elem_of_singleton in Hin as ->.
    split; apply (bool_decide_unpack _); by vm_compute.
Qed.

Lemma label_strings_are_unambiguous_witness :
  NoDup (TaskConfigs.label_strings TaskConfigs.SENT)
  ∧ Forall (λ s, upper s = s) (TaskConfigs.label_strings TaskConfigs.SENT).
Proof.
  apply (label_strings_are_unambiguous TaskConfigs.SENT).
  right. by left.
Defined.

(** * Local models *)

(** X20.  When the paths that [glob] yields exist, a model exists locally
    exactly when its architecture file and its weight file are there: for
    a file whose name is given, the path of that name in the folder
    exists; for a file without a given name, the folder has a file that
    matches "*.py", respectively "*.bin". *)
Theorem model_exists_locally_iff (glob : string → string → list string)
    (join : string → string → string) (path_exists : string → bool)
    (model_id : string) (architecture_fname weight_fname : option string) :
  (∀ pattern p, p ∈ glob model_id pattern → path_exists p = true) →
  let there (pattern : string) (fname : option string) : Prop :=
    match fname with
    | None => glob model_id pattern ≠ []
    | Some name => path_exists (join model_id name) = true
    end in
  LocalModels.model_exists_locally glob join path_exists model_id
    architecture_fname weight_fname = true
  ↔ there "*.py" architecture_fname ∧ there "*.bin" weight_fname.
Proof.
  intros Hglob there. unfold LocalModels.model_exists_locally.
  assert (∀ pattern fname,
            match LocalModels.find_file glob join model_id pattern fname with
            | None => ¬ there pattern fname
            | Some p => path_exists p = true ↔ there pattern fname
            end) as Hfind.
  { intros pattern [name|]; cbn; [done|].
    destruct (glob model_id pattern) as [|p l] eqn:Hg; cbn; [by intros []|].
    split; [done|]. intros _. apply (Hglob pattern). rewrite Hg. by left. }
  pose proof (Hfind "*.py" architecture_fname) as Ha.
  pose proof (Hfind "*.bin" weight_fname) as Hw.
  destruct (LocalModels.find_file _ _ _ "*.py" _) as [pa|]; [|by split; [|tauto]].
  destruct (LocalModels.find_file _ _ _ "*.bin" _) as [pw|]; [|by split; [|tauto]].
  rewrite andb_true_iff. tauto.
Qed.

Lemma model_exists_locally_iff_witness :
  LocalModels.model_exists_locally
    (λ _ pattern, if decide (pattern = "*.py") then ["m/model.py"]
                  else ["m/weights.bin"])
    (λ folder name, folder +:+ "/" +:+ name)%string (λ _, true) "m" None None
  = true
  ↔ (if decide ("*.py" = "*.py") then ["m/model.py"] else ["m/weights.bin"])
    ≠ []
    ∧ (if decide ("*.bin" = "*.py") then ["m/model.py"]
       else ["m/weights.bin"]) ≠ [].
Proof.
  apply (model_exists_locally_iff
           (λ _ pattern, if decide (pattern = "*.py") then ["m/model.py"]
                         else ["m/weights.bin"])
           (λ folder name, folder +:+ "/" +:+ name)%string (λ _, true) "m"
           None None).
  reflexivity.
Defined.

Section ConfigProperties.
Context (int_of_string : string → option Z).
Context (float_of_string : string → option Q).

Abbreviation gfc :=
  (LocalModels.get_from_config int_of_string float_of_string).

Lemma get_from_config_present (file : option (gmap string LocalModels.value))
    key t d p u line v :
  default ∅ file !! key = Some v →
  gfc file key t d p u line
  = {| LocalModels.returned := Ok v; LocalModels.prompted := None;
       LocalModels.saved := file |}.
Proof. intros H. unfold LocalModels.get_from_config. by rewrite H. Qed.

(** The outcomes of a call for a key that the file does not have. *)
Lemma get_from_config_absent (file : option (gmap string LocalModels.value))
    key t d p u line :
  default ∅ file !! key = None →
  (∃ v prompt,
     gfc file key t d p u line
     = LocalModels.store (default ∅ file) key v prompt)
  ∨ (∃ e prompt,
       gfc file key t d p u line
       = {| LocalModels.returned := Raise e;
            LocalModels.prompted := Some prompt;
            LocalModels.saved := file |}
       ∧ LocalModels.parse_input int_of_string float_of_string t line
         = Raise e).
Proof.
  intros H. unfold LocalModels.get_from_config. rewrite H.
  destruct (_ && _); [left; by eexists _, _|].
  destruct (_ && _); [left; by eexists _, _|].
  destruct (LocalModels.parse_input _ _ t line) as [v|e];
    [left; by eexists _, _|right; by eexists _, _].
Qed.

(** A call that returns a value leaves it in the file, under the key. *)
Lemma get_from_config_saved (file : option (gmap string LocalModels.value))
    key t d p u line v :
  LocalModels.returned (gfc file key t d p u line) = Ok v →
  default ∅ (LocalModels.saved (gfc file key t d p u line)) !! key = Some v
  ∧ ∀ k, k ≠ key →
      default ∅ (LocalModels.saved (gfc file key t d p u line)) !! k
      = default ∅ file !! k.
Proof.
  intros Hv. destruct (default ∅ file !! key) as [v'|] eqn:Hfile.
  - rewrite (get_from_config_present _ _ _ _ _ _ _ v' Hfile) in Hv |- *.
    cbn in *. by injection Hv as <-.
  - destruct (get_from_config_absent file key t d p u line Hfile)
      as [(v' & prompt & H)|(e & prompt & H & _)]; rewrite H in Hv |- *;
      [|done].
    cbn in *. injection Hv as <-. split; [apply lookup_insert_eq|].
    intros k Hk. by rewrite lookup_insert_ne.
Qed.

Lemma dict_of_items_Raise (items : list string)
    (d : list (string * LocalModels.value)) (e : exn) :
  LocalModels.dict_of_items items d = Raise e → e = ValueError.
Proof.
  revert d. induction items as [|item items IH]; intros d H; [done|].
  cbn in H. destruct (split_on "=" item) as [|k [|v [|? ?]]];
    try (by injection H as <-).
  by eapply IH.
Qed.

Lemma parse_input_Raise t line (e : exn) :
  LocalModels.parse_input int_of_string float_of_string t line = Raise e →
  e = ValueError
  ∧ (t = LocalModels.TInt ∨ t = LocalModels.TFloat ∨ t = LocalModels.TDict).
Proof.
  destruct t; cbn; try done.
  - destruct (int_of_string line); [done|]. intros [= <-]. auto.
  - destruct (float_of_string line); [done|]. intros [= <-]. auto.
  - destruct (LocalModels.dict_of_items _ _) eqn:H; [done|]. cbn.
    intros [= <-]. apply dict_of_items_Raise in H. auto.
Qed.

End ConfigProperties.

(** X21.  A value is asked for once: when a call of [get_from_config]
    returns a value, the configuration file then holds the value under
    the key and its other entries as before, and every later call for
    the key returns the same value without a prompt and leaves the file
    as it is, whatever its other arguments and the input are. *)
Theorem get_from_config_asks_once (int_of_string : string → option Z)
    (float_of_string : string → option Q)
    (file : option (gmap string LocalModels.value)) (key : string)
    (expected_type : LocalModels.pytype) (default_value : LocalModels.value)
    (user_prompt : option string)
    (user_prompt_default_value : LocalModels.value) (user_input : string)
    (v : LocalModels.value) :
  let first :=
    LocalModels.get_from_config int_of_string float_of_string file key
      expected_type default_value user_prompt user_prompt_default_value
      user_input in
  LocalModels.returned first = Ok v →
  default ∅ (LocalModels.saved first) !! key = Some v
  ∧ (∀ k, k ≠ key →
       default ∅ (LocalModels.saved first) !! k = default ∅ file !! k)
  ∧ ∀ t d p u line,
      LocalModels.get_from_config int_of_string float_of_string
        (LocalModels.saved first) key t d p u line
      = {| LocalModels.returned := Ok v; LocalModels.prompted := None;
           LocalModels.saved := LocalModels.saved first |}.
Proof.
  intros first Hv.
  destruct (get_from_config_saved int_of_string float_of_string file key
              expected_type default_value user_prompt
              user_prompt_default_value user_input v Hv) as [Hkey Hother].
  split_and!; [done..|]. intros t d p u line.
  by apply get_from_config_present.
Qed.

Lemma get_from_config_asks_once_witness :
  default ∅
    (LocalModels.saved
       (LocalModels.get_from_config (λ _, None) (λ _, None) None "id2label"
          LocalModels.TList LocalModels.VNull None LocalModels.VNull
          "NEG POS")) !! "id2label"
  = Some (LocalModels.VList [LocalModels.VStr "NEG"; LocalModels.VStr "POS"]).
Proof.
  apply (get_from_config_asks_once (λ _, None) (λ _, None) None "id2label"
           LocalModels.TList LocalModels.VNull None LocalModels.VNull
           "NEG POS").
  reflexivity.
Defined.

(** X22.  [get_from_config] shows no prompt exactly when the file has the
    key, or the default value is not [None] and is of the expected type.
    A prompt that it generates itself depends on the expected type only:
    it names neither the key nor the default value that Enter would
    select. *)
Theorem get_from_config_prompt (int_of_string : string → option Z)
    (float_of_string : string → option Q)
    (file : option (gmap string LocalModels.value)) (key : string)
    (expected_type : LocalModels.pytype) (default_value : LocalModels.value)
    (user_prompt : option string)
    (user_prompt_default_value : LocalModels.value) (user_input : string) :
  let call :=
    LocalModels.get_from_config int_of_string float_of_string file key
      expected_type default_value in
  (LocalModels.prompted
     (call user_prompt user_prompt_default_value user_input) = None
   ↔ is_Some (default ∅ file !! key)
     ∨ (LocalModels.is_not_None default_value
        && LocalModels.isinstance default_value expected_type = true))
  ∧ (∀ p, user_prompt = Some p →
       LocalModels.prompted
         (call user_prompt user_prompt_default_value user_input) = None
       ∨ LocalModels.prompted
           (call user_prompt user_prompt_default_value user_input) = Some p)
  ∧ ∀ file' key' d' u' line' prompt prompt',
      LocalModels.prompted (call None user_prompt_default_value user_input)
      = Some prompt →
      LocalModels.prompted
        (LocalModels.get_from_config int_of_string float_of_string file' key'
           expected_type d' None u' line') = Some prompt' →
      prompt' = prompt.
Proof.
  intros call.
  assert (∀ file key d p u line,
            LocalModels.prompted
              (LocalModels.get_from_config int_of_string float_of_string file
                 key expected_type d p u line)
            = if default ∅ file !! key is Some _ then None
              else if LocalModels.is_not_None d
                      && LocalModels.isinstance d expected_type then None
              else Some (default
                           (LocalModels.generated_prompt expected_type
                              LocalModels.VNull) p)) as Hp.
  { intros f k d p u line. unfold LocalModels.get_from_config.
    destruct (default ∅ f !! k); [done|].
    destruct (LocalModels.is_not_None d && _); [done|].
    assert (LocalModels.generated_prompt expected_type u
            = LocalModels.generated_prompt expected_type LocalModels.VNull)
      as Hg by (by destruct expected_type).
    destruct (_ && _); [by destruct p; cbn; rewrite ?Hg|].
    destruct (LocalModels.parse_input _ _ _ _);
      by destruct p; cbn; rewrite ?Hg. }
  unfold call. split_and!.
  - rewrite Hp. destruct (default ∅ file !! key) as [v|].
    + split; [|done]. intros _. left. by eexists.
    + destruct (_ && _); split; try done; try (by right).
      by intros [[]|].
  - intros p ->. rewrite Hp. destruct (default ∅ file !! key); [by left|].
    destruct (_ && _); [by left|by right].
  - intros file' key' d' u' line' prompt prompt'. rewrite !Hp.
    destruct (default ∅ file !! key); [done|].
    destruct (_ && _); [done|]. intros [= <-].
    destruct (default ∅ file' !! key'); [done|].
    destruct (_ && _); [done|]. by intros [= <-].
Qed.

Lemma dict_of_items_Raise_iff (items : list string)
    (d : list (string * LocalModels.value)) :
  LocalModels.dict_of_items items d = Raise ValueError
  ↔ ∃ item, item ∈ items ∧ length (split_on "=" item) ≠ 2%nat.
Proof.
  revert d. induction items as [|item items IH]; intros d.
  - split; [done|]. intros (item & H & _). by apply elem_of_nil in H.
  - cbn [LocalModels.dict_of_items].
    destruct (split_on "=" item) as [|k [|v [|? ?]]] eqn:Hs.
    1,2,4: split; [intros _; exists item; rewrite Hs; split;
                     [by left|cbn; lia]|done].
    rewrite IH. split.
    + intros (item' & Hin & Hlen). exists item'. split; [by right|done].
    + intros (item' & Hin & Hlen).
      apply elem_of_cons in Hin as [->|Hin]; [by rewrite Hs in Hlen|].
      by exists item'.
Qed.

Lemma parse_input_unparsable (int_of_string : string → option Z)
    (float_of_string : string → option Q) (t : LocalModels.pytype)
    (line : string) :
  LocalModels.parse_input int_of_string float_of_string t line
  = Raise ValueError
  ↔ unparsable int_of_string float_of_string t line.
Proof.
  destruct t; cbn; try done.
  - by destruct (int_of_string line).
  - by destruct (float_of_string line).
  - rewrite <-(dict_of_items_Raise_iff _ []).
    destruct (LocalModels.dict_of_items _ _) as [d|e]; cbn; [done|].
    split; congruence.
Qed.

(** X23.  A reply that is not a value of the expected type makes
    [get_from_config] raise [ValueError] after the prompt and before the
    file is written.  The reply is read when the file does not have the
    key, the default value is [None] or not of the expected type, and the
    reply is not the empty line that selects the default value of the
    prompt.  It is not a value of the expected type when [int] or [float]
    rejects it, or when the expected type is [dict] and one of its items
    between commas does not split at ["="] into a key and a value; the
    reading of a reply raises no other exception. *)
Theorem get_from_config_failure (int_of_string : string → option Z)
    (float_of_string : string → option Q)
    (file : option (gmap string LocalModels.value)) (key : string)
    (expected_type : LocalModels.pytype) (default_value : LocalModels.value)
    (user_prompt : option string)
    (user_prompt_default_value : LocalModels.value) (user_input : string) :
  default ∅ file !! key = None →
  LocalModels.is_not_None default_value
  && LocalModels.isinstance default_value expected_type = false →
  bool_decide (user_input = EmptyString)
  && LocalModels.is_not_None user_prompt_default_value = false →
  let parsed :=
    LocalModels.parse_input int_of_string float_of_string expected_type
      user_input in
  (unparsable int_of_string float_of_string expected_type user_input →
   LocalModels.get_from_config int_of_string float_of_string file key
     expected_type default_value user_prompt user_prompt_default_value
     user_input
   = {| LocalModels.returned := Raise ValueError;
        LocalModels.prompted :=
          Some (default (LocalModels.generated_prompt expected_type
                           user_prompt_default_value) user_prompt);
        LocalModels.saved := file |})
  ∧ (parsed = Raise ValueError
     ↔ unparsable int_of_string float_of_string expected_type user_input)
  ∧ ∀ e, parsed = Raise e → e = ValueError.
Proof.
  intros Hkey Hdefault Hblank parsed. split_and!.
  - intros Hbad. apply parse_input_unparsable in Hbad.
    unfold LocalModels.get_from_config.
    rewrite Hkey, Hdefault, Hblank, Hbad. by destruct user_prompt.
  - apply parse_input_unparsable.
  - intros e H. by apply parse_input_Raise in H as [-> _].
Qed.

Lemma get_from_config_failure_witness :
  LocalModels.get_from_config (λ _, None) (λ _, None) None "epochs"
    LocalModels.TInt LocalModels.VNull None LocalModels.VNull "three"
  = {| LocalModels.returned := Raise ValueError;
       LocalModels.prompted :=
         Some (LocalModels.base_prompt +:+ ": ")%string;
       LocalModels.saved := None |}.
Proof.
  apply (get_from_config_failure (λ _, None) (λ _, None) None "epochs"
           LocalModels.TInt LocalModels.VNull None LocalModels.VNull
           "three"); reflexivity.
Defined.

(** X24.  When [get_model_config_locally] returns, it returns a model
    configuration for the framework PyTorch with the name of the folder
    as model id and an empty revision, after at most two prompts.  The
    tokenizer id and the labels that it returns are then in the
    configuration file, and every later call on that file returns the same
    model configuration without a prompt and leaves the file as it is. *)
Theorem get_model_config_locally_spec (int_of_string : string → option Z)
    (float_of_string : string → option Q) (path_name : string → string)
    (file : option (gmap string LocalModels.value)) (model_folder : string)
    (dataset_id2label : list string) (line1 line2 : string)
    (cfg : LocalModels.ModelConfig) (prompts : list string)
    (file' : option (gmap string LocalModels.value)) :
  let call :=
    LocalModels.get_model_config_locally int_of_string float_of_string
      path_name in
  call file model_folder dataset_id2label line1 line2
  = (Ok cfg, prompts, file') →
  LocalModels.mc_model_id cfg = path_name model_folder
  ∧ LocalModels.mc_revision cfg = ""
  ∧ LocalModels.mc_framework cfg = PyTorch
  ∧ (length prompts ≤ 2)%nat
  ∧ default ∅ file' !! "tokenizer_id" = Some (LocalModels.mc_tokenizer_id cfg)
  ∧ default ∅ file' !! "id2label" = Some (LocalModels.mc_id2label cfg)
  ∧ ∀ labels' line1' line2',
      call file' model_folder labels' line1' line2' = (Ok cfg, [], file').
Proof.
  intros call H. unfold call, LocalModels.get_model_config_locally in *.
  set (p1 := Some "Please specify the Hugging Face ID of the tokenizer to use: ")
    in *.
  set (o1 := LocalModels.get_from_config _ _ file "tokenizer_id" _ _ p1 _ _)
    in *.
  destruct (LocalModels.returned o1) as [tok|e] eqn:Htok; [|done].
  destruct (get_from_config_saved _ _ _ _ _ _ _ _ _ _ Htok) as [Htok1 Htok2].
  fold o1 in Htok1, Htok2.
  set (line := match LocalModels.prompted o1 with
               | Some _ => line2 | None => line1 end) in *.
  set (p2 := Some (_ +:+ LocalModels.join_comma dataset_id2label +:+ _)%string)
    in *.
  set (u2 := LocalModels.VList (LocalModels.VStr <$> dataset_id2label)) in *.
  set (o2 := LocalModels.get_from_config _ _ (LocalModels.saved o1)
               "id2label" _ _ p2 u2 line) in *.
  destruct (LocalModels.returned o2) as [labels|e] eqn:Hlabels; [|done].
  destruct (get_from_config_saved _ _ _ _ _ _ _ _ _ _ Hlabels)
    as [Hlab1 Hlab2].
  fold o2 in Hlab1, Hlab2.
  assert (default ∅ (LocalModels.saved o2) !! "tokenizer_id" = Some tok)
    as Htok3 by (rewrite Hlab2; done).
  injection H as <- <- <-.
  cbn [LocalModels.mc_model_id LocalModels.mc_revision
       LocalModels.mc_framework LocalModels.mc_tokenizer_id
       LocalModels.mc_id2label].
  split_and!; [done..| |done|done|].
  - rewrite length_app.
    destruct (LocalModels.prompted o1), (LocalModels.prompted o2); cbn; lia.
  - intros labels' line1' line2'.
    rewrite (get_from_config_present _ _ _ _ _ _ _ _ _ tok Htok3). cbn.
    by rewrite (get_from_config_present _ _ _ _ _ _ _ _ _ labels Hlab1).
Qed.

Lemma get_model_config_locally_spec_witness :
  LocalModels.get_model_config_locally (λ _, None) (λ _, None) (λ s, s)
    (Some (<["id2label" :=
               LocalModels.VList [LocalModels.VStr "NEG";
                                  LocalModels.VStr "POS"]]>
             (<["tokenizer_id" := LocalModels.VStr "bert"]> ∅)))
    "model" [] "roberta" "A B"
  = (Ok {| LocalModels.mc_model_id := "model";
           LocalModels.mc_tokenizer_id := LocalModels.VStr "bert";
           LocalModels.mc_revision := "";
           LocalModels.mc_framework := PyTorch;
           LocalModels.mc_id2label :=
             LocalModels.VList [LocalModels.VStr "NEG";
                                LocalModels.VStr "POS"] |},
     [],
     Some (<["id2label" :=
               LocalModels.VList [LocalModels.VStr "NEG";
                                  LocalModels.VStr "POS"]]>
             (<["tokenizer_id" := LocalModels.VStr "bert"]> ∅))).
Proof.
  destruct (get_model_config_locally_spec (λ _, None) (λ _, None) (λ s, s)
              None "model" ["NEG"; "POS"] "bert" "NEG POS"
              {| LocalModels.mc_model_id := "model";
                 LocalModels.mc_tokenizer_id := LocalModels.VStr "bert";
                 LocalModels.mc_revision := "";
                 LocalModels.mc_framework := PyTorch;
                 LocalModels.mc_id2label :=
                   LocalModels.VList [LocalModels.VStr "NEG";
                                      LocalModels.VStr "POS"] |}
              ["Please specify the Hugging Face ID of the tokenizer to use: ";
               "Please specify the labels in the order the model was trained (comma-separated), or press enter to use the default values [NEG, POS]: "]
              (Some (<["id2label" :=
                         LocalModels.VList [LocalModels.VStr "NEG";
                                            LocalModels.VStr "POS"]]>
                       (<["tokenizer_id" := LocalModels.VStr "bert"]> ∅))))
    as (_ & _ & _ & _ & _ & _ & Hlater).
  - vm_compute. reflexivity.
  - apply Hlater.
Defined.

(** ** The lists that the user types *)

Lemma append_nil_r (s : string) : (s +:+ EmptyString)%string = s.
Proof.
  induction s as [|c s IH]; [done|].
  change (String c (s +:+ EmptyString)%string = String c s). by rewrite IH.
Qed.

Lemma append_assoc (a b c : string) :
  ((a +:+ b) +:+ c)%string = (a +:+ (b +:+ c))%string.
Proof.
  induction a as [|x a IH]; [done|].
  change (String x ((a +:+ b) +:+ c)%string
          = String x (a +:+ (b +:+ c))%string).
  by rewrite IH.
Qed.

Lemma no_space_app (a b : string) :
  no_space (a +:+ b)%string = no_space a && no_space b.
Proof.
  induction a as [|x a IH]; [done|].
  change (negb (is_space x) && no_space (a +:+ b)%string
          = negb (is_space x) && no_space a && no_space b).
  rewrite IH. by rewrite andb_assoc.
Qed.

Lemma split_ws_from_no_space (word s : string) :
  no_space s = true →
  split_ws_from word s
  = if decide ((word +:+ s)%string = EmptyString) then []
    else [(word +:+ s)%string].
Proof.
  revert word. induction s as [|c s IH]; intros word Hs.
  - cbn [split_ws_from]. by rewrite append_nil_r.
  - cbn [no_space] in Hs. apply andb_true_iff in Hs as [Hc Hs].
    apply negb_true_iff in Hc. cbn [split_ws_from].
    rewrite Hc, IH by done. by rewrite append_assoc.
Qed.

Lemma split_ws_from_words (word s : string) :
  no_space word = true →
  Forall (λ w, w ≠ EmptyString ∧ no_space w = true) (split_ws_from word s).
Proof.
  revert word. induction s as [|c s IH]; intros word Hw; cbn [split_ws_from].
  - destruct (decide (word = EmptyString)); repeat constructor; done.
  - destruct (is_space c) eqn:Hc.
    + destruct (decide (word = EmptyString)); [by apply IH|].
      constructor; [done|by apply IH].
    + apply IH. rewrite no_space_app, Hw. cbn [no_space]. by rewrite Hc.
Qed.

(** X25.  A list is read from the reply of the user by a split at
    whitespace, not at commas: a reply without whitespace gives the list
    of one element, the reply itself, however many commas it has, and in
    general the elements of the list are the words of the reply, which are
    not empty and hold no whitespace. *)
Theorem list_input_is_split_at_whitespace
    (int_of_string : string → option Z) (float_of_string : string → option Q)
    (user_input : string) :
  ∃ words,
    LocalModels.parse_input int_of_string float_of_string LocalModels.TList
      user_input = Ok (LocalModels.VList (LocalModels.VStr <$> words))
    ∧ Forall (λ w, w ≠ EmptyString ∧ no_space w = true) words
    ∧ (no_space user_input = true → user_input ≠ EmptyString →
       words = [user_input]).
Proof.
  exists (split_ws user_input). split_and!; [done| |].
  - by apply split_ws_from_words.
  - intros Hs Hne. unfold split_ws. rewrite split_ws_from_no_space by done.
    change (EmptyString +:+ user_input)%string with user_input.
    by destruct (decide (user_input = EmptyString)).
Qed.
